(** * Card-image pipeline: validation and repair (scripts/verify-and-fix.js)

    A shallow embedding of [ComprehensivePipelineValidator]: the artifact
    paths, [validateCard], the fix operations ([downloadImage],
    [resizeImage], [convertToAvif], [cropImage], [fixIssue]), the issue
    sort and the bounded per-card repair loop of [validateAndFixAll].

    The file system is a finite map from path strings to files.  The two
    external capabilities, the CDN and the image codec (sharp and
    join-images), are oracles indexed by a call counter kept in the
    state, so that every behaviour of the outside world (a 404, a codec
    crash that leaves a partial file, an output of the wrong size) is one
    choice of oracle. *)

From Stdlib Require Import ZArith QArith Qround String Ascii List Lia.
From Stdlib Require Import DecimalString DecimalN Sorting.Sorted Sorting.Permutation.
From stdpp Require Import base gmap strings list.

Close Scope Q_scope.
Open Scope Z_scope.

(** ** JavaScript string helpers *)

Module JS.

Definition upper_ascii (c : ascii) : ascii :=
  let n := nat_of_ascii c in
  if (97 <=? n)%nat && (n <=? 122)%nat then ascii_of_nat (n - 32) else c.

Definition lower_ascii (c : ascii) : ascii :=
  let n := nat_of_ascii c in
  if (65 <=? n)%nat && (n <=? 90)%nat then ascii_of_nat (n + 32) else c.

Fixpoint map_string (f : ascii -> ascii) (s : string) : string :=
  match s with
  | EmptyString => EmptyString
  | String c s' => String (f c) (map_string f s')
  end.

(** [String.prototype.toUpperCase] and [toLowerCase] on ASCII text. *)
Definition toUpperCase : string -> string := map_string upper_ascii.
Definition toLowerCase : string -> string := map_string lower_ascii.

Fixpoint zeros (n : nat) : string :=
  match n with
  | O => EmptyString
  | S n' => String "0" (zeros n')
  end.

(** [s.padStart(n, "0")]. *)
Definition padStart0 (n : nat) (s : string) : string :=
  zeros (n - String.length s) +:+ s.

(** [num.toString()] for a non-negative integer. *)
Definition toString (n : N) : string :=
  NilZero.string_of_uint (N.to_uint n).

Fixpoint drop (n : nat) (s : string) : string :=
  match n, s with
  | O, _ => s
  | S n', String _ s' => drop n' s'
  | S _, EmptyString => EmptyString
  end.

(** [s.replace(pat, rep)] with a string pattern: the first occurrence
    only; [s] itself when [pat] does not occur. *)
Fixpoint replace (pat rep s : string) : string :=
  if String.prefix pat s then rep +:+ drop (String.length pat) s
  else match s with
       | EmptyString => EmptyString
       | String c s' => String c (replace pat rep s')
       end.

Fixpoint endsWith (suffix s : string) : bool :=
  if String.eqb suffix s then true
  else match s with
       | EmptyString => false
       | String _ s' => endsWith suffix s'
       end.

Fixpoint take (n : nat) (s : string) : string :=
  match n, s with
  | O, _ => EmptyString
  | S n', String c s' => String c (take n' s')
  | S _, EmptyString => EmptyString
  end.

(** [s.replace(/\.(webp|avif)$/, "_temp.$1")]. *)
Definition replaceExt (s : string) : string :=
  if endsWith ".webp" s then take (String.length s - 5) s +:+ "_temp.webp"
  else if endsWith ".avif" s then take (String.length s - 5) s +:+ "_temp.avif"
  else s.

End JS.

(** ** Data model *)

(** The [PIPELINE_STEPS] enumeration. *)
Inductive PipelineStep :=
  | DOWNLOAD
  | RESIZE_ORIGINAL
  | CONVERT_ORIGINAL
  | CROP_ART_ONLY
  | CONVERT_ART_ONLY
  | CROP_ART_AND_NAME
  | CONVERT_ART_AND_NAME.

#[global] Instance PipelineStep_eq_dec : EqDecision PipelineStep.
Proof. solve_decision. Defined.

(** An issue object [{ step, path, language }]. *)
Record Issue := mkIssue {
  step : PipelineStep;
  path : string;
  language : string
}.

(** The [CONFIG] object.  [rootFolder] is imported from [./shared.js]
    by the script and is carried here with the rest of the
    configuration. *)
Record Config := mkConfig {
  rootFolder : string;
  edition : string;
  languages : list string;
  cardRange : N * N;
  autoFix : bool;
  skipVariants : bool;
  verbose : bool;
  tolerancePx : Z
}.

(** What the codec did to produce an image; only used to tell one
    file content from another. *)
Inductive Pixels :=
  | Served (url : string) (at_call : nat)
  | Resized (w h : Z) (p : Pixels)
  | Avif (p : Pixels)
  | Extracted (top height : Z) (p : Pixels)
  | Joined (p q : Pixels).

(** A file on disk: a decodable image with its pixel dimensions, or
    bytes that sharp cannot decode. *)
Inductive File :=
  | Image (width height : Z) (px : Pixels)
  | Corrupt.

(** The outside world.  An HTTP GET answers 200 with a body or another
    status.  A codec write behaves as documented ([NoFault]), completes
    with another output ([Garbled]), or throws, possibly leaving a
    partial file behind ([Crash]). *)
Inductive Response :=
  | Status200 (body : File)
  | StatusOther (code : Z).

Inductive Fault :=
  | NoFault
  | Garbled (f : File)
  | Crash (left : option File).

Record World := mkWorld {
  http : nat -> string -> Response;
  codec : nat -> Fault
}.

(** Errors thrown inside the script. *)
Inductive Error :=
  | SourceUnexpectedDimensions (w h : Z)
  | CroppedWrongDimensions (w h : Z)
  | RequestFailed (status : Z)
  | SharpError (file : string)
  | FsError (file : string)
  | TypeError.

(** The arguments of every [this.log(message, type)] call. *)
Inductive LogType := INFO | WARN | ERROR | FIX.

#[global] Instance LogType_eq_dec : EqDecision LogType.
Proof. solve_decision. Defined.

Inductive Message :=
  | ValidatingCard (card lang : string)
  | MissingOriginalWebp (card lang : string)
  | OriginalWrongDimensions (card lang : string) (w h : Z)
  | MissingOriginalAvif (card lang : string)
  | MissingArtOnlyWebp (card : string)
  | ArtOnlyUncropped (card : string) (h : Z)
  | ArtOnlyUnexpectedDimensions (card : string) (w h : Z)
  | MissingArtOnlyAvif (card : string)
  | MissingArtAndNameWebp (card lang : string)
  | ArtAndNameUncropped (card lang : string) (h : Z)
  | ArtAndNameUnexpectedDimensions (card lang : string) (w h : Z)
  | MissingArtAndNameAvif (card lang : string)
  | CardComplete (card lang : string)
  | Downloading (url : string)
  | Downloaded (destination : string)
  | DownloadFailed (url : string) (status : Z)
  | Resizing (file : string) (w h : Z)
  | ResizedFile (file : string)
  | ConvertingToAvif (file : string)
  | Created (file : string)
  | Cropping (card : string) (artOnly : bool) (source destination : string)
  | Cropped (destination : string) (w h : Z)
  | Fixed (card lang : string) (s : PipelineStep)
  | FailedToFix (card lang : string) (s : PipelineStep) (e : Error).

(** [this.stats]. *)
Record LangStats := mkLangStats {
  l_checked : nat;
  l_missing : nat;
  l_recovered : nat;
  l_failed : nat;
  l_skipped : nat
}.

Record Stats := mkStats {
  checked : nat;
  missing : nat;
  recovered : nat;
  failed : nat;
  skipped : nat;
  byLanguage : gmap string LangStats
}.

(** The mutable state: the disk, the validator's counters, the sequence
    of [log] calls, and the number of calls made to the outside world
    so far (requests to the CDN and images written by the codec;
    reading a file's metadata is not counted). *)
Record State := mkState {
  files : gmap string File;
  stats : Stats;
  journal : list (LogType * Message);
  clock : nat
}.

Definition set_files (f : gmap string File -> gmap string File) (st : State) : State :=
  mkState (f (files st)) (stats st) (journal st) (clock st).

Definition set_stats (f : Stats -> Stats) (st : State) : State :=
  mkState (files st) (f (stats st)) (journal st) (clock st).

(** [this.errors], [this.warnings] and [this.fixes] are the [log] calls
    of the matching type, in order. *)
Definition messagesOf (t : LogType) (st : State) : list Message :=
  map snd (List.filter (fun e => bool_decide (fst e = t)) (journal st)).

Definition errors := messagesOf ERROR.
Definition warnings := messagesOf WARN.
Definition fixes := messagesOf FIX.

(** ** A state monad with exceptions *)

Inductive Result (A : Type) :=
  | Ok (a : A)
  | Throw (e : Error).
Arguments Ok {A} a.
Arguments Throw {A} e.

Definition M (A : Type) : Type := State -> Result A * State.

Definition ret {A} (a : A) : M A := fun st => (Ok a, st).

Definition bind {A B} (m : M A) (k : A -> M B) : M B :=
  fun st => match m st with
            | (Ok a, st') => k a st'
            | (Throw e, st') => (Throw e, st')
            end.

Definition throw {A} (e : Error) : M A := fun st => (Throw e, st).

(** [try { m } catch (error) { h error }]. *)
Definition try_catch {A} (m : M A) (h : Error -> M A) : M A :=
  fun st => match m st with
            | (Ok a, st') => (Ok a, st')
            | (Throw e, st') => h e st'
            end.

Notation "'do' x <- m ; k" := (bind m (fun x => k))
  (at level 10, x name, m at level 99, k at level 200).
Notation "'do' ' pat <- m ; k" := (bind m (fun x => match x with pat => k end))
  (at level 10, pat pattern, m at level 99, k at level 200).

Definition when (b : bool) (m : M unit) : M unit := if b then m else ret tt.

(** [for (const x of l) { await f(x); }] *)
Fixpoint forEach {A} (f : A -> M unit) (l : list A) : M unit :=
  match l with
  | [] => ret tt
  | x :: l' => do _ <- f x; forEach f l'
  end.

Definition get_files : M (gmap string File) := fun st => (Ok (files st), st).
Definition modify_files (f : gmap string File -> gmap string File) : M unit :=
  fun st => (Ok tt, set_files f st).
Definition modify_stats (f : Stats -> Stats) : M unit :=
  fun st => (Ok tt, set_stats f st).

(** One call to the outside world: read the counter and advance it. *)
Definition tick : M nat :=
  fun st => (Ok (clock st), mkState (files st) (stats st) (journal st) (S (clock st))).

(** ** Example inputs

    The [CONFIG] of the script for set 001, a root folder, the counters
    the constructor creates, and a few disks. *)

Module Example.

Definition config : Config :=
  mkConfig "cards" "001" ["EN"; "IT"; "DE"; "FR"] (1%N, 216%N) true false false 2.

Definition noCounters : LangStats := mkLangStats 0 0 0 0 0.

(** [this.stats] as the constructor leaves it. *)
Definition freshStats : Stats :=
  mkStats 0 0 0 0 0
    (list_to_map [("EN", noCounters); ("IT", noCounters);
                  ("DE", noCounters); ("FR", noCounters)]%string).

Definition stateOf (disk : gmap string File) : State := mkState disk freshStats [] 0.

Definition card (n : N) : Pixels := Served "disk" (N.to_nat n).

(** A CDN that has no image, and one that serves 734x1024 images; the
    codec never fails. *)
Definition world404 : World :=
  mkWorld (fun _ _ => StatusOther 404) (fun _ => NoFault).

Definition worldOk : World :=
  mkWorld (fun t url => Status200 (Image 734 1024 (Served url t))) (fun _ => NoFault).

(** Nothing on disk. *)
Definition emptyDisk : gmap string File := ∅.

(** Card 001 of EN complete, with an Original of the given size. *)
Definition completeDisk (w h : Z) : gmap string File :=
  list_to_map
    [("cards/EN/001/001.webp", Image w h (card 1));
     ("cards/EN/001/001.avif", Image w h (Avif (card 1)));
     ("cards/001/art_only/001.webp", Image 734 603 (card 2));
     ("cards/001/art_only/001.avif", Image 734 603 (Avif (card 2)));
     ("cards/EN/001/art_and_name/001.webp", Image 734 767 (card 3));
     ("cards/EN/001/art_and_name/001.avif", Image 734 767 (Avif (card 3)))]%string.

(** The same with the Original AVIF missing. *)
Definition noAvifDisk (w h : Z) : gmap string File :=
  delete "cards/EN/001/001.avif"%string (completeDisk w h).

(** The same with an art_and_name (resp. art_only) WebP of height [h]. *)
Definition artAndNameDisk (h : Z) : gmap string File :=
  <["cards/EN/001/art_and_name/001.webp"%string := Image 734 h (card 3)]>
    (completeDisk 734 1024).

Definition artOnlyDisk (h : Z) : gmap string File :=
  <["cards/001/art_only/001.webp"%string := Image 734 h (card 2)]>
    (completeDisk 734 1024).

(** No Original, but an uncropped art_and_name WebP. *)
Definition orphanVariantDisk : gmap string File :=
  {["cards/EN/001/art_and_name/001.webp"%string := Image 734 1024 (card 3)]}.

(** Only the Original of card 001 of IT, 734x1024 or one pixel short. *)
Definition originalOnlyDisk (w h : Z) : gmap string File :=
  {["cards/IT/001/001.webp"%string := Image w h (card 1)]}.

End Example.

(** ** File system and codec primitives *)

Section Validator.

Variable config : Config.
Variable world : World.

(** [this.log(message, type)]: every call is appended to the journal. *)
Definition log (message : Message) (type : LogType) : M unit :=
  fun st => (Ok tt, mkState (files st) (stats st)
                             (journal st ++ [(type, message)]) (clock st)).

(** [fs.existsSync]. *)
Definition existsSync (file : string) : M bool :=
  fun st => (Ok (match files st !! file with Some _ => true | None => false end), st).

(** [fs.unlinkSync]. *)
Definition unlinkSync (file : string) : M unit :=
  fun st => match files st !! file with
            | Some _ => (Ok tt, set_files (delete file) st)
            | None => (Throw (FsError file), st)
            end.

(** [fs.copyFileSync]. *)
Definition copyFileSync (src dest : string) : M unit :=
  fun st => match files st !! src with
            | Some f => (Ok tt, set_files (insert dest f) st)
            | None => (Throw (FsError src), st)
            end.

(** [fs.renameSync]: the destination is replaced in one step. *)
Definition renameSync (oldPath newPath : string) : M unit :=
  fun st => match files st !! oldPath with
            | Some f =>
                if decide (oldPath = newPath) then (Ok tt, st)
                else (Ok tt, set_files (fun m => <[newPath := f]> (delete oldPath m)) st)
            | None => (Throw (FsError oldPath), st)
            end.

(** [sharp(file)] decoding its input: dimensions and content of the
    file as it is on disk at that moment.  (sharp keeps a cache of the
    inputs it has opened; a file that is decoded, rewritten and decoded
    again in the same process is outside what this definition
    describes.) *)
Definition sharp (file : string) : M (Z * Z * Pixels) :=
  fun st => match files st !! file with
            | Some (Image w h px) => (Ok (w, h, px), st)
            | _ => (Throw (SharpError file), st)
            end.

(** [await sharp(file).metadata()]. *)
Definition metadata (file : string) : M (Z * Z) :=
  do '(w, h, _) <- sharp file; ret (w, h).

(** [.toFile(out)] of an image whose documented result is [ideal]:
    the world decides what really lands on disk. *)
Definition toFile (out : string) (ideal : File) : M unit :=
  do t <- tick;
  match codec world t with
  | NoFault => modify_files (insert out ideal)
  | Garbled f => modify_files (insert out f)
  | Crash None => throw (SharpError out)
  | Crash (Some f) => do _ <- modify_files (insert out f); throw (SharpError out)
  end.

(** [sharp(input).resize(w, h, { fit: 'fill' }).toFile(out)]. *)
Definition resize_toFile (input out : string) (w h : Z) : M unit :=
  do '(_, _, px) <- sharp input;
  toFile out (Image w h (Resized w h px)).

(** [sharp(input).avif({ quality: 50, speed: 1 }).toFile(out)]. *)
Definition avif_toFile (input out : string) : M unit :=
  do '(w, h, px) <- sharp input;
  toFile out (Image w h (Avif px)).

(** [sharp(input).extract({ left, top, width, height }).toFile(out)]:
    sharp rejects an area that is empty or not inside the image. *)
Definition extract_toFile (input out : string) (left top width height : Z) : M unit :=
  do '(w, h, px) <- sharp input;
  if (0 <=? left) && (0 <=? top) && (0 <? width) && (0 <? height)
     && (left + width <=? w) && (top + height <=? h)
  then toFile out (Image width height (Extracted top height px))
  else throw (SharpError input).

(** [await joinImages([a, b], { direction: "vertical" })]: the images
    stacked, as wide as the wider one. *)
Definition joinImages (a b : string) : M File :=
  do '(wa, ha, pa) <- sharp a;
  do '(wb, hb, pb) <- sharp b;
  ret (Image (Z.max wa wb) (ha + hb) (Joined pa pb)).

(** ** The validator's helpers *)

(** [getCardNumber(num)]. *)
Definition getCardNumber (num : N) : string :=
  JS.padStart0 3 (JS.toString num).

Record Paths := mkPaths {
  originalWebp : string;
  originalAvif : string;
  artOnlyWebp : string;
  artOnlyAvif : string;
  artAndNameWebp : string;
  artAndNameAvif : string
}.

(** [getFilePaths(cardNum, language)]. *)
Definition getFilePaths (cardNum : N) (language : string) : Paths :=
  let cardNumber := getCardNumber cardNum in
  let root := rootFolder config in
  let ed := edition config in
  {| originalWebp := root +:+ "/" +:+ language +:+ "/" +:+ ed +:+ "/" +:+ cardNumber +:+ ".webp";
     originalAvif := root +:+ "/" +:+ language +:+ "/" +:+ ed +:+ "/" +:+ cardNumber +:+ ".avif";
     artOnlyWebp := root +:+ "/" +:+ ed +:+ "/art_only/" +:+ cardNumber +:+ ".webp";
     artOnlyAvif := root +:+ "/" +:+ ed +:+ "/art_only/" +:+ cardNumber +:+ ".avif";
     artAndNameWebp :=
       root +:+ "/" +:+ language +:+ "/" +:+ ed +:+ "/art_and_name/" +:+ cardNumber +:+ ".webp";
     artAndNameAvif :=
       root +:+ "/" +:+ language +:+ "/" +:+ ed +:+ "/art_and_name/" +:+ cardNumber +:+ ".avif" |}.

(** [getExpectedDimensions(type)], as [(width, height)]. *)
Definition getExpectedDimensions (type : string) : Z * Z :=
  if String.eqb type "original" then (734, 1024)
  else if String.eqb type "art_only" then (734, 603)
  else if String.eqb type "art_and_name" then (734, 767)
  else (734, 1024).

(** [this.stats.checked++] and the like. *)
Definition incr_checked (s : Stats) : Stats :=
  mkStats (S (checked s)) (missing s) (recovered s) (failed s) (skipped s) (byLanguage s).
Definition incr_missing (s : Stats) : Stats :=
  mkStats (checked s) (S (missing s)) (recovered s) (failed s) (skipped s) (byLanguage s).
Definition incr_recovered (s : Stats) : Stats :=
  mkStats (checked s) (missing s) (S (recovered s)) (failed s) (skipped s) (byLanguage s).
Definition incr_failed (s : Stats) : Stats :=
  mkStats (checked s) (missing s) (recovered s) (S (failed s)) (skipped s) (byLanguage s).
Definition set_byLanguage (lang : string) (l : LangStats) (s : Stats) : Stats :=
  mkStats (checked s) (missing s) (recovered s) (failed s) (skipped s)
          (<[lang := l]> (byLanguage s)).

Definition l_incr_checked (l : LangStats) : LangStats :=
  mkLangStats (S (l_checked l)) (l_missing l) (l_recovered l) (l_failed l) (l_skipped l).
Definition l_incr_missing (l : LangStats) : LangStats :=
  mkLangStats (l_checked l) (S (l_missing l)) (l_recovered l) (l_failed l) (l_skipped l).
Definition l_incr_recovered (l : LangStats) : LangStats :=
  mkLangStats (l_checked l) (l_missing l) (S (l_recovered l)) (l_failed l) (l_skipped l).
Definition l_incr_failed (l : LangStats) : LangStats :=
  mkLangStats (l_checked l) (l_missing l) (l_recovered l) (S (l_failed l)) (l_skipped l).

(** [this.stats.byLanguage] is a plain object: besides the entries
    the constructor creates, a lookup finds what every object inherits
    from [Object.prototype]. *)
Definition objectPrototypeNames : list string :=
  ["constructor"; "__defineGetter__"; "__defineSetter__"; "hasOwnProperty";
   "__lookupGetter__"; "__lookupSetter__"; "isPrototypeOf"; "propertyIsEnumerable";
   "toString"; "valueOf"; "__proto__"; "toLocaleString"].

Definition inherited (name : string) : bool :=
  bool_decide (name ∈ objectPrototypeNames).

(** [this.stats.byLanguage[language].field++].  With an entry of its
    own the language's counter moves.  For a name that is only
    inherited the increment lands on the inherited object and no
    counter of [byLanguage] changes.  For any other name the lookup is
    [undefined] and the increment is a TypeError. *)
Definition byLanguage_incr (f : LangStats -> LangStats) (language : string) : M unit :=
  fun st => match byLanguage (stats st) !! language with
            | Some l => (Ok tt, set_stats (set_byLanguage language (f l)) st)
            | None => if inherited language then (Ok tt, st) else (Throw TypeError, st)
            end.

(** [if (language && this.stats.byLanguage[language]) { ...field++ }]. *)
Definition byLanguage_incr_guarded (f : LangStats -> LangStats) (language : string) : M unit :=
  fun st => match language, byLanguage (stats st) !! language with
            | String _ _, Some l => (Ok tt, set_stats (set_byLanguage language (f l)) st)
            | _, _ => (Ok tt, st)
            end.

Definition isFirstLanguage (language : string) : bool :=
  match languages config with
  | first :: _ => String.eqb language first
  | [] => false
  end.

(** ** validateCard *)

(** Step 4 of [validateCard]: the shared art_only variants. *)
Definition checkArtOnly (cardNumber : string) (paths : Paths) (issues : list Issue)
  : M (list Issue) :=
  do artOnlyWebpExists <- existsSync (artOnlyWebp paths);
  do issues <-
    (if negb artOnlyWebpExists then
       do _ <- log (MissingArtOnlyWebp cardNumber) WARN;
       ret (issues ++ [mkIssue CROP_ART_ONLY (artOnlyWebp paths) "shared"])
     else
       do '(artOnlyW, artOnlyH) <- metadata (artOnlyWebp paths);
       let expectedArtOnly := getExpectedDimensions "art_only" in
       if artOnlyH =? 1024 then
         do _ <- log (ArtOnlyUncropped cardNumber artOnlyH) WARN;
         ret (issues ++ [mkIssue CROP_ART_ONLY (artOnlyWebp paths) "shared"])
       else if Z.abs (artOnlyH - snd expectedArtOnly) >? tolerancePx config then
         do _ <- log (ArtOnlyUnexpectedDimensions cardNumber artOnlyW artOnlyH) WARN;
         ret issues
       else ret issues);
  do artOnlyAvifExists <- existsSync (artOnlyAvif paths);
  if negb artOnlyAvifExists then
    do _ <- log (MissingArtOnlyAvif cardNumber) WARN;
    ret (issues ++ [mkIssue CONVERT_ART_ONLY (artOnlyAvif paths) "shared"])
  else ret issues.

(** Step 5 of [validateCard]: the art_and_name variants of the language. *)
Definition checkArtAndName (cardNumber language : string) (paths : Paths)
    (issues : list Issue) : M (list Issue) :=
  do artAndNameWebpExists <- existsSync (artAndNameWebp paths);
  do issues <-
    (if negb artAndNameWebpExists then
       do _ <- log (MissingArtAndNameWebp cardNumber language) WARN;
       ret (issues ++ [mkIssue CROP_ART_AND_NAME (artAndNameWebp paths) language])
     else
       do '(artAndNameW, artAndNameH) <- metadata (artAndNameWebp paths);
       let expectedArtAndName := getExpectedDimensions "art_and_name" in
       if artAndNameH =? 1024 then
         do _ <- log (ArtAndNameUncropped cardNumber language artAndNameH) WARN;
         ret (issues ++ [mkIssue CROP_ART_AND_NAME (artAndNameWebp paths) language])
       else if Z.abs (artAndNameH - snd expectedArtAndName) >? tolerancePx config then
         do _ <- log (ArtAndNameUnexpectedDimensions cardNumber language
                        artAndNameW artAndNameH) WARN;
         ret issues
       else ret issues);
  do artAndNameAvifExists <- existsSync (artAndNameAvif paths);
  if negb artAndNameAvifExists then
    do _ <- log (MissingArtAndNameAvif cardNumber language) WARN;
    ret (issues ++ [mkIssue CONVERT_ART_AND_NAME (artAndNameAvif paths) language])
  else ret issues.

(** Steps 2 to 5 of [validateCard], run when the original WebP exists. *)
Definition checkExisting (cardNumber language : string) (paths : Paths)
    (issues : list Issue) : M (list Issue) :=
  do '(width, height) <- metadata (originalWebp paths);
  let expected := getExpectedDimensions "original" in
  do issues <-
    (if negb (width =? fst expected) || negb (height =? snd expected) then
       do _ <- log (OriginalWrongDimensions cardNumber language width height) WARN;
       ret (issues ++ [mkIssue RESIZE_ORIGINAL (originalWebp paths) language])
     else ret issues);
  do originalAvifExists <- existsSync (originalAvif paths);
  do issues <-
    (if negb originalAvifExists then
       do _ <- log (MissingOriginalAvif cardNumber language) WARN;
       ret (issues ++ [mkIssue CONVERT_ORIGINAL (originalAvif paths) language])
     else ret issues);
  do issues <-
    (if negb (skipVariants config) && isFirstLanguage language
     then checkArtOnly cardNumber paths issues
     else ret issues);
  if negb (skipVariants config)
  then checkArtAndName cardNumber language paths issues
  else ret issues.

Definition validateCard (cardNum : N) (language : string) : M (list Issue) :=
  let cardNumber := getCardNumber cardNum in
  let paths := getFilePaths cardNum language in
  let issues := [] in
  do _ <- when (verbose config) (log (ValidatingCard cardNumber language) INFO);
  do originalExists <- existsSync (originalWebp paths);
  do issues <-
    (if negb originalExists then
       do _ <- log (MissingOriginalWebp cardNumber language) WARN;
       ret (issues ++ [mkIssue DOWNLOAD (originalWebp paths) language])
     else checkExisting cardNumber language paths issues);
  do _ <- modify_stats incr_checked;
  do _ <- byLanguage_incr l_incr_checked language;
  if (0 <? length issues)%nat then
    do _ <- modify_stats incr_missing;
    do _ <- byLanguage_incr l_incr_missing language;
    ret issues
  else
    do _ <- when (verbose config) (log (CardComplete cardNumber language) INFO);
    ret [].

(** ** Fix operations *)

(** [downloadImage(cardNumber, language, edition)]: one GET; a 200
    body is piped to the destination, any other status rejects. *)
Definition downloadImage (cardNumber : N) (language edition : string) : M string :=
  let cardNumberPadded := JS.padStart0 3 (JS.toString cardNumber) in
  let editionPadded := JS.padStart0 3 edition in
  let url := "https://cdn.dreamborn.ink/images/" +:+ JS.toLowerCase language
             +:+ "/cards/" +:+ editionPadded +:+ "-" +:+ cardNumberPadded in
  let destination := rootFolder config +:+ "/" +:+ JS.toUpperCase language +:+ "/"
                     +:+ editionPadded +:+ "/" +:+ cardNumberPadded +:+ ".webp" in
  do _ <- log (Downloading url) FIX;
  do t <- tick;
  match http world t url with
  | Status200 body =>
      do _ <- modify_files (insert destination body);
      do _ <- log (Downloaded destination) FIX;
      ret destination
  | StatusOther code =>
      do _ <- log (DownloadFailed url code) ERROR;
      throw (RequestFailed code)
  end.

(** [resizeImage(filePath, dimensions)]. *)
Definition resizeImage (filePath : string) (dimensions : Z * Z) : M unit :=
  do _ <- log (Resizing filePath (fst dimensions) (snd dimensions)) FIX;
  let tempFile := JS.replaceExt filePath in
  do _ <- copyFileSync filePath tempFile;
  do _ <- resize_toFile tempFile filePath (fst dimensions) (snd dimensions);
  do _ <- unlinkSync tempFile;
  log (ResizedFile filePath) FIX.

(** [convertToAvif(webpPath, avifPath)]. *)
Definition convertToAvif (webpPath avifPath : string) : M unit :=
  do _ <- log (ConvertingToAvif avifPath) FIX;
  do _ <- avif_toFile webpPath avifPath;
  log (Created avifPath) FIX.

(** The literals [0.52], [0.674], [0.931] and [0.925] as the binary64
    numbers JavaScript reads them as.  [cropImage] multiplies them by
    a height that its guard has fixed to 1024, a power of two, so the
    binary64 product is exact and [Math.floor] of it is the floor of
    the rational product. *)
Definition double_0_52 : Q := 1170935903116329 # 2251799813685248.
Definition double_0_674 : Q := 6070852297695429 # 9007199254740992.
Definition double_0_931 : Q := 1048212813270483 # 1125899906842624.
Definition double_0_925 : Q := 4165829655317709 # 4503599627370496.

(** [Math.floor(height * fraction)]. *)
Definition floorMul (height : Z) (fraction : Q) : Z :=
  Qfloor (Qmult (inject_Z height) fraction).

Definition topFraction (artOnly : bool) : Q :=
  if artOnly then double_0_52 else double_0_674.
Definition bottomStartFraction (artOnly : bool) : Q :=
  if artOnly then double_0_931 else double_0_925.

Definition tempDestinationOf (destinationFile : string) : string :=
  JS.replace ".webp" "_temp_dest.webp" destinationFile.
Definition topFileOf (destinationFile : string) : string :=
  JS.replace ".webp" "_top.webp" destinationFile.
Definition bottomFileOf (destinationFile : string) : string :=
  JS.replace ".webp" "_bottom.webp" destinationFile.

(** [files.forEach(file => { if (fs.existsSync(file)) fs.unlinkSync(file); })] *)
Definition cleanUp (l : list string) : M unit :=
  forEach (fun file => do present <- existsSync file;
                       if present then unlinkSync file else ret tt) l.

(** [cropImage(sourceFile, destinationFile, artOnly, cardNumber)]. *)
Definition cropImage (sourceFile destinationFile : string) (artOnly : bool)
    (cardNumber : string) : M bool :=
  do _ <- log (Cropping cardNumber artOnly sourceFile destinationFile) FIX;
  let tempDestination := tempDestinationOf destinationFile in
  let topFile := topFileOf destinationFile in
  let bottomFile := bottomFileOf destinationFile in
  try_catch
    (do '(width, height) <- metadata sourceFile;
     do _ <- (if negb (width =? 734) || negb (height =? 1024)
              then throw (SourceUnexpectedDimensions width height)
              else ret tt);
     let topStartHeight := 0 in
     let topEndHeight := floorMul height (topFraction artOnly) in
     let bottomStartHeight := floorMul height (bottomStartFraction artOnly) in
     let bottomEndHeight := height in
     do _ <- extract_toFile sourceFile topFile
               0 topStartHeight width (topEndHeight - topStartHeight);
     do _ <- extract_toFile sourceFile bottomFile
               0 bottomStartHeight width (bottomEndHeight - bottomStartHeight);
     do joinedImage <- joinImages topFile bottomFile;
     do _ <- toFile tempDestination joinedImage;
     do '(resultW, resultH) <- metadata tempDestination;
     let expectedHeight :=
       (topEndHeight - topStartHeight) + (bottomEndHeight - bottomStartHeight) in
     do _ <- (if negb (resultW =? 734) || negb (resultH =? expectedHeight)
              then throw (CroppedWrongDimensions resultW resultH)
              else ret tt);
     do _ <- renameSync tempDestination destinationFile;
     do _ <- log (Cropped destinationFile resultW resultH) FIX;
     do _ <- cleanUp [topFile; bottomFile];
     ret true)
    (fun error =>
       do _ <- cleanUp [tempDestination; topFile; bottomFile];
       throw error).

(** The [switch (issue.step)] of [fixIssue]. *)
Definition fixOperation (s : PipelineStep) (cardNum : N) (language : string) : M unit :=
  let cardNumber := getCardNumber cardNum in
  let paths := getFilePaths cardNum language in
  match s with
  | DOWNLOAD =>
      do _ <- downloadImage cardNum language (edition config); ret tt
  | RESIZE_ORIGINAL =>
      do _ <- resizeImage (originalWebp paths) (getExpectedDimensions "original");
      do avifExists <- existsSync (originalAvif paths);
      if avifExists
      then resizeImage (originalAvif paths) (getExpectedDimensions "original")
      else ret tt
  | CONVERT_ORIGINAL =>
      convertToAvif (originalWebp paths) (originalAvif paths)
  | CROP_ART_ONLY =>
      do _ <- cropImage (originalWebp paths) (artOnlyWebp paths) true cardNumber;
      ret tt
  | CONVERT_ART_ONLY =>
      convertToAvif (artOnlyWebp paths) (artOnlyAvif paths)
  | CROP_ART_AND_NAME =>
      do _ <- cropImage (originalWebp paths) (artAndNameWebp paths) false cardNumber;
      ret tt
  | CONVERT_ART_AND_NAME =>
      convertToAvif (artAndNameWebp paths) (artAndNameAvif paths)
  end.

(** [fixIssue(issue, cardNum, language)]. *)
Definition fixIssue (issue : Issue) (cardNum : N) (language : string) : M bool :=
  let cardNumber := getCardNumber cardNum in
  try_catch
    (do _ <- fixOperation (step issue) cardNum language;
     do _ <- modify_stats incr_recovered;
     do _ <- byLanguage_incr_guarded l_incr_recovered language;
     do _ <- log (Fixed cardNumber language (step issue)) FIX;
     ret true)
    (fun error =>
       do _ <- modify_stats incr_failed;
       do _ <- byLanguage_incr_guarded l_incr_failed language;
       do _ <- log (FailedToFix cardNumber language (step issue) error) ERROR;
       ret false).

(** ** Sorting and the repair loop *)

(** [order.indexOf(step)]. *)
Definition orderIndex (s : PipelineStep) : Z :=
  match s with
  | DOWNLOAD => 0
  | RESIZE_ORIGINAL => 1
  | CONVERT_ORIGINAL => 2
  | CROP_ART_ONLY => 3
  | CONVERT_ART_ONLY => 4
  | CROP_ART_AND_NAME => 5
  | CONVERT_ART_AND_NAME => 6
  end.

(** The comparator [(a, b) => order.indexOf(a.step) - order.indexOf(b.step)]. *)
Definition compareIssues (a b : Issue) : Z :=
  orderIndex (step a) - orderIndex (step b).

(** [Array.prototype.sort] with a comparator is a stable sort: an
    element goes before the first later element it does not exceed. *)
Fixpoint insertSorted (x : Issue) (l : list Issue) : list Issue :=
  match l with
  | [] => [x]
  | y :: l' => if compareIssues x y <=? 0 then x :: y :: l' else y :: insertSorted x l'
  end.

Definition sortIssuesByPipelineOrder (issues : list Issue) : list Issue :=
  fold_right insertSorted [] issues.

Definition maxAttempts : nat := 3.

(** The [while (remainingIssues.length > 0 && attempt < maxAttempts)]
    loop of phase 2, by recursion on [maxAttempts - attempt], the
    number of passes still allowed; it returns the remaining issues
    and [attempt]. *)
Fixpoint repairLoop (budget : nat) (cardNum : N) (language : string)
    (remainingIssues : list Issue) : M (list Issue * nat) :=
  let attempt := (maxAttempts - budget)%nat in
  match budget with
  | O => ret (remainingIssues, attempt)
  | S budget' =>
      if (0 <? length remainingIssues)%nat then
        let attempt := S attempt in
        let sortedIssues := sortIssuesByPipelineOrder remainingIssues in
        do _ <- forEach (fun issue => do _ <- fixIssue issue cardNum language; ret tt)
                  sortedIssues;
        do remainingIssues <- validateCard cardNum language;
        if (length remainingIssues =? 0)%nat then ret (remainingIssues, attempt)
        else repairLoop budget' cardNum language remainingIssues
      else ret (remainingIssues, attempt)
  end.

(** The body of [for (const { cardNum, language, issues } of allIssues)]. *)
Definition fixCard (cardNum : N) (language : string) (issues : list Issue)
  : M (list Issue * nat) :=
  repairLoop maxAttempts cardNum language issues.

(** [for (let cardNum = start; cardNum <= end; cardNum++)]. *)
Definition cardNumbers : list N :=
  let '(first, last) := cardRange config in
  if (last <? first)%N then []
  else map (fun i => (first + N.of_nat i)%N) (seq 0 (S (N.to_nat (last - first)))).

(** Phase 1 of [validateAndFixAll]: validate every card of every
    language and keep the cards that have issues. *)
Fixpoint validateCards (language : string) (cards : list N)
    (allIssues : list (N * string * list Issue)) : M (list (N * string * list Issue)) :=
  match cards with
  | [] => ret allIssues
  | cardNum :: cards' =>
      do issues <- validateCard cardNum language;
      validateCards language cards'
        (if (0 <? length issues)%nat then allIssues ++ [(cardNum, language, issues)]
         else allIssues)
  end.

Fixpoint validateLanguages (langs : list string)
    (allIssues : list (N * string * list Issue)) : M (list (N * string * list Issue)) :=
  match langs with
  | [] => ret allIssues
  | language :: langs' =>
      do allIssues <- validateCards language cardNumbers allIssues;
      validateLanguages langs' allIssues
  end.

(** Phase 2: [for (const { cardNum, language, issues } of allIssues)]. *)
Fixpoint fixCards (allIssues : list (N * string * list Issue))
  : M (list (list Issue * nat)) :=
  match allIssues with
  | [] => ret []
  | (cardNum, language, issues) :: rest =>
      do outcome <- fixCard cardNum language issues;
      do outcomes <- fixCards rest;
      ret (outcome :: outcomes)
  end.

(** The two phases of [validateAndFixAll()], up to its
    [return this.generateReport()], without the console output; it
    returns, for each repaired card, the issues left and the number of
    passes.  [validateAndFixAll] itself follows with [generateReport]. *)
Definition runPhases : M (list (list Issue * nat)) :=
  do allIssues <- validateLanguages (languages config) [];
  if (length allIssues =? 0)%nat then ret []
  else if negb (autoFix config) then ret []
  else fixCards allIssues.

(** ** Observations on a run *)

(** The [fixIssue] calls recorded in a journal, in order: the step and
    whether the fix succeeded. *)
Definition executedEntry (e : LogType * Message) : option (string * PipelineStep * bool) :=
  match snd e with
  | Fixed _ lang s => Some (lang, s, true)
  | FailedToFix _ lang s _ => Some (lang, s, false)
  | _ => None
  end.

Definition executed (j : list (LogType * Message)) : list (string * PipelineStep * bool) :=
  omap executedEntry j.

Definition isArtOnlyStep (s : PipelineStep) : bool :=
  match s with
  | CROP_ART_ONLY | CONVERT_ART_ONLY => true
  | _ => false
  end.

Definition isCropStep (s : PipelineStep) : bool :=
  match s with
  | CROP_ART_ONLY | CROP_ART_AND_NAME => true
  | _ => false
  end.

(** Weakest precondition of a computation for a postcondition on its
    result and final state. *)
Definition wp {A} (m : M A) (Q : Result A -> State -> Prop) (st : State) : Prop :=
  Q (fst (m st)) (snd (m st)).

(** No file on disk is undecodable. *)
Definition decodable (disk : gmap string File) : Prop :=
  forall p, disk !! p <> Some Corrupt.

(** The two disks agree outside the listed paths. *)
Definition agreeOutside (l : list string) (disk disk' : gmap string File) : Prop :=
  forall p, p ∉ l -> disk' !! p = disk !! p.

(** ** A validation pass as a function of the disk

    [validateCard] reads the disk and only writes counters and log
    lines.  Its findings, read off the disk: each warning it logs, in
    order, with the issue pushed together with it if there is one;
    [None] where a probe of an undecodable file throws.
    [validateCard_findings] below proves that this is what
    [validateCard] returns and logs. *)

Abbreviation Finding := (Message * option Issue)%type.

Definition artOnlyFindings (disk : gmap string File) (cardNumber : string)
    (paths : Paths) : option (list Finding) :=
  let crop := mkIssue CROP_ART_ONLY (artOnlyWebp paths) "shared" in
  let convert := mkIssue CONVERT_ART_ONLY (artOnlyAvif paths) "shared" in
  let avif := match disk !! artOnlyAvif paths with
              | None => [(MissingArtOnlyAvif cardNumber, Some convert)]
              | Some _ => []
              end in
  match disk !! artOnlyWebp paths with
  | None => Some ((MissingArtOnlyWebp cardNumber, Some crop) :: avif)
  | Some Corrupt => None
  | Some (Image w h _) =>
      if h =? 1024 then Some ((ArtOnlyUncropped cardNumber h, Some crop) :: avif)
      else if Z.abs (h - snd (getExpectedDimensions "art_only")) >? tolerancePx config
      then Some ((ArtOnlyUnexpectedDimensions cardNumber w h, None) :: avif)
      else Some avif
  end.

Definition artAndNameFindings (disk : gmap string File) (cardNumber language : string)
    (paths : Paths) : option (list Finding) :=
  let crop := mkIssue CROP_ART_AND_NAME (artAndNameWebp paths) language in
  let convert := mkIssue CONVERT_ART_AND_NAME (artAndNameAvif paths) language in
  let avif := match disk !! artAndNameAvif paths with
              | None => [(MissingArtAndNameAvif cardNumber language, Some convert)]
              | Some _ => []
              end in
  match disk !! artAndNameWebp paths with
  | None => Some ((MissingArtAndNameWebp cardNumber language, Some crop) :: avif)
  | Some Corrupt => None
  | Some (Image w h _) =>
      if h =? 1024
      then Some ((ArtAndNameUncropped cardNumber language h, Some crop) :: avif)
      else if Z.abs (h - snd (getExpectedDimensions "art_and_name")) >? tolerancePx config
      then Some ((ArtAndNameUnexpectedDimensions cardNumber language w h, None) :: avif)
      else Some avif
  end.

Definition findings (disk : gmap string File) (cardNum : N) (language : string)
  : option (list Finding) :=
  let cardNumber := getCardNumber cardNum in
  let paths := getFilePaths cardNum language in
  match disk !! originalWebp paths with
  | None =>
      Some [(MissingOriginalWebp cardNumber language,
             Some (mkIssue DOWNLOAD (originalWebp paths) language))]
  | Some Corrupt => None
  | Some (Image w h _) =>
      let resize :=
        if negb (w =? 734) || negb (h =? 1024)
        then [(OriginalWrongDimensions cardNumber language w h,
               Some (mkIssue RESIZE_ORIGINAL (originalWebp paths) language))]
        else [] in
      let convert :=
        match disk !! originalAvif paths with
        | None => [(MissingOriginalAvif cardNumber language,
                    Some (mkIssue CONVERT_ORIGINAL (originalAvif paths) language))]
        | Some _ => []
        end in
      match (if negb (skipVariants config) && isFirstLanguage language
             then artOnlyFindings disk cardNumber paths else Some []),
            (if negb (skipVariants config)
             then artAndNameFindings disk cardNumber language paths else Some [])
      with
      | Some artOnly, Some artAndName => Some (resize ++ convert ++ artOnly ++ artAndName)
      | _, _ => None
      end
  end.

(** The AVIF part of the findings on a variant. *)
Definition artOnlyAvifFindings (disk : gmap string File) card paths : list Finding :=
  match disk !! artOnlyAvif paths with
  | None => [(MissingArtOnlyAvif card,
              Some (mkIssue CONVERT_ART_ONLY (artOnlyAvif paths) "shared"))]
  | Some _ => []
  end.

Definition artAndNameAvifFindings (disk : gmap string File) card lang paths
  : list Finding :=
  match disk !! artAndNameAvif paths with
  | None => [(MissingArtAndNameAvif card lang,
              Some (mkIssue CONVERT_ART_AND_NAME (artAndNameAvif paths) lang))]
  | Some _ => []
  end.

Definition issuesOf (fs : list Finding) : list Issue := omap snd fs.

(** The state after logging the warnings [ms]. *)
Definition warned (ms : list Message) (st : State) : State :=
  mkState (files st) (stats st) (journal st ++ map (fun m => (WARN, m)) ms) (clock st).

(** The final state of a computation that only read the disk. *)
Definition readOnly (st st' : State) : Prop :=
  files st' = files st /\ stats st' = stats st /\ clock st' = clock st
  /\ executed (journal st') = executed (journal st).

(** The warnings of these findings are not records of [fixIssue] calls. *)
Definition quiet (fs : list Finding) : Prop :=
  executed (map (fun m => (WARN, m)) (map fst fs)) = [].

(** A computation that leaves the counters and the record of
    [fixIssue] calls alone and writes no file outside [touched]. *)
Definition confined {A} (touched : list string) (m : M A) : Prop :=
  forall st,
    wp m (fun _ st' =>
            stats st' = stats st
            /\ executed (journal st') = executed (journal st)
            /\ agreeOutside touched (files st) (files st')) st.

(** The codec and the CDN never fail. *)
Definition faultless : Prop := forall t, codec world t = NoFault.

(** The download destination of a card. *)
Definition downloadDestination (cardNum : N) (lang : string) : string :=
  rootFolder config +:+ "/" +:+ JS.toUpperCase lang +:+ "/"
  +:+ JS.padStart0 3 (edition config) +:+ "/" +:+ JS.padStart0 3 (JS.toString cardNum)
  +:+ ".webp".

(** The destination of a crop and its three temporary files. *)
Definition cropFiles (destinationFile : string) : list string :=
  [destinationFile; tempDestinationOf destinationFile;
   topFileOf destinationFile; bottomFileOf destinationFile].

(** The files a fix of each step may write. *)
Definition writeSet (s : PipelineStep) (cardNum : N) (lang : string) : list string :=
  let paths := getFilePaths cardNum lang in
  match s with
  | DOWNLOAD => [downloadDestination cardNum lang]
  | RESIZE_ORIGINAL =>
      [originalWebp paths; JS.replaceExt (originalWebp paths);
       originalAvif paths; JS.replaceExt (originalAvif paths)]
  | CONVERT_ORIGINAL => [originalAvif paths]
  | CROP_ART_ONLY => cropFiles (artOnlyWebp paths)
  | CONVERT_ART_ONLY => [artOnlyAvif paths]
  | CROP_ART_AND_NAME => cropFiles (artAndNameWebp paths)
  | CONVERT_ART_AND_NAME => [artAndNameAvif paths]
  end.

(** The pipeline order on issues. *)
Definition stepLe (a b : Issue) : Prop := orderIndex (step a) <= orderIndex (step b).

(** The files the fixes of the steps in [steps] may write. *)
Definition writeSets (steps : list PipelineStep) (cardNum : N) (lang : string)
  : list string :=
  concat (map (fun s => writeSet s cardNum lang) steps).

(** The [fixIssue] records [es] are all for language [lang] and for
    steps in [steps]. *)
Definition recordsWithin (lang : string) (steps : list PipelineStep)
    (es : list (string * PipelineStep * bool)) : Prop :=
  Forall (fun e => fst (fst e) = lang /\ snd (fst e) ∈ steps) es.

(** No provider ever has the image. *)
Definition neverFound : Prop :=
  forall t url, exists code, http world t url = StatusOther code.

Definition allSteps : list PipelineStep :=
  [DOWNLOAD; RESIZE_ORIGINAL; CONVERT_ORIGINAL; CROP_ART_ONLY; CONVERT_ART_ONLY;
   CROP_ART_AND_NAME; CONVERT_ART_AND_NAME].

(** The steps validation returns for a language that is not the first. *)
Definition perLanguageSteps : list PipelineStep :=
  [DOWNLOAD; RESIZE_ORIGINAL; CONVERT_ORIGINAL; CROP_ART_AND_NAME; CONVERT_ART_AND_NAME].

(** The steps validation can return for a language. *)
Definition stepsFor (lang : string) : list PipelineStep :=
  if isFirstLanguage lang then allSteps else perLanguageSteps.

(** An entry of [allIssues] whose issues are of the language's steps. *)
Definition wellFormedEntry (entry : N * string * list Issue) : Prop :=
  Forall (fun i => step i ∈ stepsFor (snd (fst entry))) (snd entry).

(** A [fixIssue] record of an art_only step is of the first language. *)
Definition artOnlyByFirst (e : string * PipelineStep * bool) : Prop :=
  isArtOnlyStep (snd (fst e)) = true -> isFirstLanguage (fst (fst e)) = true.

(** The height of a crop of a 1024-pixel-high source. *)
Definition croppedHeight (artOnly : bool) : Z :=
  (floorMul 1024 (topFraction artOnly) - 0)
  + (1024 - floorMul 1024 (bottomStartFraction artOnly)).

(** The destination of a crop step. *)
Definition cropDestination (artOnly : bool) (cardNum : N) (lang : string) : string :=
  let paths := getFilePaths cardNum lang in
  if artOnly then artOnlyWebp paths else artAndNameWebp paths.

Definition cropStep (artOnly : bool) : PipelineStep :=
  if artOnly then CROP_ART_ONLY else CROP_ART_AND_NAME.

(** The pixels of a crop of [px]: the top band above the bottom band. *)
Definition croppedPixels (artOnly : bool) (px : Pixels) : Pixels :=
  let topEnd := floorMul 1024 (topFraction artOnly) in
  let bottomStart := floorMul 1024 (bottomStartFraction artOnly) in
  Joined (Extracted 0 (topEnd - 0) px) (Extracted bottomStart (1024 - bottomStart) px).

(** A boolean check of [decodable]. *)
Definition decodableb (disk : gmap string File) : bool :=
  forallb (fun entry => match snd entry with Corrupt => false | Image _ _ _ => true end)
          (map_to_list disk).

(** The fixes of one pass ran in pipeline order. *)
Definition passSorted (pass : list (string * PipelineStep * bool)) : Prop :=
  StronglySorted Z.le (map (fun e => orderIndex (snd (fst e))) pass).

(** The CDN serves a 734x1024 image for every request. *)
Definition servesFullSize : Prop :=
  forall t url, exists px, http world t url = Status200 (Image 734 1024 px).


(** Whether a lookup of [this.stats.byLanguage[language]] finds an
    object: an entry of its own or an inherited property. *)
Definition resolves (st : State) (language : string) : bool :=
  match byLanguage (stats st) !! language with
  | Some _ => true
  | None => inherited language
  end.

(** The WebP files [validateCard] decodes for a card whose Original
    exists: the Original and the variants it examines. *)
Definition examined (cardNum : N) (language : string) : list string :=
  let paths := getFilePaths cardNum language in
  [originalWebp paths]
  ++ (if negb (skipVariants config) && isFirstLanguage language
      then [artOnlyWebp paths] else [])
  ++ (if negb (skipVariants config) then [artAndNameWebp paths] else []).

(** [cropImage]'s check of the joined image it has written to the
    temporary destination. *)
Definition verified (artOnly : bool) (written : File) : bool :=
  match written with
  | Image w h _ => (w =? 734) && (h =? croppedHeight artOnly)
  | Corrupt => false
  end.

(** What a completed codec write of [ideal] leaves on disk; [None]
    when the codec throws. *)
Definition writtenBy (fault : Fault) (ideal : File) : option File :=
  match fault with
  | NoFault => Some ideal
  | Garbled f => Some f
  | Crash _ => None
  end.

(** ** The constructor and the counters of a run *)

(** The counters of one language as the constructor creates them. *)
Definition zeroCounters : LangStats := mkLangStats 0 0 0 0 0.

(** [config.languages.forEach(lang => { this.stats.byLanguage[lang] = {...}; })].
    (An assignment to the name [__proto__] replaces the prototype of
    the object instead of creating an entry; a later lookup of that
    name finds the counters all the same, and it is modelled as an
    entry like the others.) *)
Definition initByLanguage (langs : list string) : gmap string LangStats :=
  fold_left (fun byLang lang => <[lang := zeroCounters]> byLang) langs ∅.

(** [new ComprehensivePipelineValidator(config)] beside a disk: no log
    line yet, every counter zero, one counter object per configured
    language. *)
Definition constructor (disk : gmap string File) : State :=
  mkState disk (mkStats 0 0 0 0 0 (initByLanguage (languages config))) [] 0.

(** How many of the recorded [fixIssue] calls returned [true], and how
    many [false]. *)
Definition successes (es : list (string * PipelineStep * bool)) : nat :=
  length (List.filter (fun e => snd e) es).

Definition failures (es : list (string * PipelineStep * bool)) : nat :=
  length (List.filter (fun e => negb (snd e)) es).

(** The counters of a language after one more validation, which found
    issues or not. *)
Definition countValidation (found : bool) (l : LangStats) : LangStats :=
  mkLangStats (S (l_checked l)) (if found then S (l_missing l) else l_missing l)
              (l_recovered l) (l_failed l) (l_skipped l).

(** The counters of a language after one more fix, which succeeded or
    failed. *)
Definition countFix (fixed : bool) (l : LangStats) : LangStats :=
  mkLangStats (l_checked l) (l_missing l)
              (if fixed then S (l_recovered l) else l_recovered l)
              (if fixed then l_failed l else S (l_failed l)) (l_skipped l).

(** Every body the CDN serves with a 200 is an image sharp can decode. *)
Definition servesImages : Prop :=
  forall t url body, http world t url = Status200 body -> body <> Corrupt.

(** A computation that left the disk, the outside world, the record of
    fixes and its two counters alone, and created or dropped no
    language's counters. *)
Definition untouched (st st' : State) : Prop :=
  files st' = files st
  /\ clock st' = clock st
  /\ executed (journal st') = executed (journal st)
  /\ recovered (stats st') = recovered (stats st)
  /\ failed (stats st') = failed (stats st)
  /\ (forall x, is_Some (byLanguage (stats st') !! x)
                <-> is_Some (byLanguage (stats st) !! x)).

(** The fixes recorded between two states, with their effect on the
    two counters of fixes. *)
Definition tallied (st st' : State) (es : list (string * PipelineStep * bool)) : Prop :=
  executed (journal st') = executed (journal st) ++ es
  /\ recovered (stats st') = (recovered (stats st) + successes es)%nat
  /\ failed (stats st') = (failed (stats st) + failures es)%nat.

(** The URL [downloadImage] requests for a card. *)
Definition downloadUrl (cardNum : N) (lang : string) : string :=
  "https://cdn.dreamborn.ink/images/" +:+ JS.toLowerCase lang
  +:+ "/cards/" +:+ JS.padStart0 3 (edition config) +:+ "-"
  +:+ JS.padStart0 3 (JS.toString cardNum).

(** ** One repair pass *)

(** Every file a repair of a card whose Original is on disk may write:
    the Original and its AVIF with their [_temp] copies, the AVIFs of
    the two variants, and the two variants with their crop files. *)
Definition repairFiles (cardNum : N) (lang : string) : list string :=
  let paths := getFilePaths cardNum lang in
  [originalWebp paths; JS.replaceExt (originalWebp paths);
   originalAvif paths; JS.replaceExt (originalAvif paths);
   artOnlyAvif paths; artAndNameAvif paths]
  ++ cropFiles (artOnlyWebp paths) ++ cropFiles (artAndNameWebp paths).

(** Whether validation asks for a crop of a variant: the WebP is
    missing or still has the full height. *)
Definition needsCrop (variant : option File) : bool :=
  match variant with
  | None => true
  | Some (Image _ h _) => h =? 1024
  | Some Corrupt => false
  end.

(** A variant WebP that is on disk with the full height: the one case
    in which a crop rewrites a file that validation has decoded. *)
Definition uncropped (variant : option File) : bool :=
  match variant with
  | Some (Image _ h _) => h =? 1024
  | _ => false
  end.


(** The fixes of [l] ran one after the other from [st] to [st'] and
    every one of them succeeded. *)
Definition fixedAll (cardNum : N) (lang : string) (l : list Issue) (st st' : State)
  : Prop :=
  forEach (fun issue => do _ <- fixIssue issue cardNum lang; ret tt) l st = (Ok tt, st')
  /\ executed (journal st')
     = executed (journal st) ++ map (fun i => (lang, step i, true)) l
  /\ failed (stats st') = failed (stats st)
  /\ (forall x, is_Some (byLanguage (stats st') !! x)
                <-> is_Some (byLanguage (stats st) !! x)).

(** ** The report and the exit code *)

(** [report.summary]. *)
Record Summary := mkSummary {
  totalCards : Z;
  totalLanguages : nat;
  checkedCards : nat;
  cardsWithIssues : nat;
  recoveredCards : nat;
  failedRecoveries : nat;
  skippedCards : nat
}.

(** The [report] object of [generateReport]; [timestamp] is the time
    read by [new Date()]. *)
Record Report := mkReport {
  timestamp : N;
  report_config : Config;
  report_stats : Stats;
  summary : Summary;
  report_byLanguage : gmap string LangStats;
  report_errors : list Message;
  report_warnings : list Message;
  report_fixes : list Message
}.

(** [`./validation-report-${edition}-${langSuffix}-${Date.now()}.json`],
    for the time [now] read by [Date.now()]. *)
Definition reportPath (now : N) : string :=
  let langSuffix :=
    match languages config with
    | [only] => only
    | _ => "ALL"
    end in
  "./validation-report-" +:+ edition config +:+ "-" +:+ langSuffix +:+ "-"
  +:+ JS.toString now +:+ ".json".

(** [const langStats = this.stats.byLanguage[lang]; ... langStats.checked ...]:
    a TypeError when the lookup is [undefined]. *)
Definition readCounters (lang : string) : M unit :=
  fun st => match byLanguage (stats st) !! lang with
            | Some _ => (Ok tt, st)
            | None => if inherited lang then (Ok tt, st) else (Throw TypeError, st)
            end.

(** [generateReport()], without the console output.  The report is
    built, the counters of every configured language are read, and the
    report is written as JSON to [reportPath]: a file that is not an
    image. *)
Definition generateReport (isoTime now : N) : M Report :=
  fun st =>
    let totalCards :=
      Z.of_N (snd (cardRange config)) - Z.of_N (fst (cardRange config)) + 1 in
    let report :=
      mkReport isoTime config (stats st)
        (mkSummary totalCards (length (languages config))
           (checked (stats st)) (missing (stats st)) (recovered (stats st))
           (failed (stats st)) (skipped (stats st)))
        (byLanguage (stats st)) (errors st) (warnings st) (fixes st) in
    (do _ <- forEach readCounters (languages config);
     do _ <- modify_files (insert (reportPath now) Corrupt);
     ret report) st.

(** [validateAndFixAll()]: the two phases, then the
    [return this.generateReport()] that ends each of its three exits.
    [isoTime] and [now] are the two readings of the clock that
    [generateReport] makes. *)
Definition validateAndFixAll (isoTime now : N) : M Report :=
  do _ <- runPhases;
  generateReport isoTime now.

(** [main()]: a new validator, the run, and the code passed to
    [process.exit]. *)
Definition main (isoTime now : N) (disk : gmap string File) : Z * State :=
  match validateAndFixAll isoTime now (constructor disk) with
  | (Ok report, st) =>
      if (0 <? failedRecoveries (summary report))%nat then (1, st)
      else if (0 <? cardsWithIssues (summary report))%nat && negb (autoFix config)
           then (0, st)
           else (0, st)
  | (Throw _, st) => (1, st)
  end.

(** [args.includes(flag)]. *)
Definition includes (flag : string) (args : list string) : bool :=
  existsb (String.eqb flag) args.

(** The command-line flags applied to [CONFIG] when the script loads:
    [--dry-run] switches [autoFix] off, [--verbose] switches [verbose]
    on. *)
Definition parseArgs (args : list string) (CONFIG : Config) : Config :=
  let CONFIG :=
    if includes "--dry-run" args
    then mkConfig (rootFolder CONFIG) (edition CONFIG) (languages CONFIG)
                  (cardRange CONFIG) false (skipVariants CONFIG) (verbose CONFIG)
                  (tolerancePx CONFIG)
    else CONFIG in
  if includes "--verbose" args
  then mkConfig (rootFolder CONFIG) (edition CONFIG) (languages CONFIG)
                (cardRange CONFIG) (autoFix CONFIG) (skipVariants CONFIG) true
                (tolerancePx CONFIG)
  else CONFIG.

(** ** More example inputs *)

(** The [CONFIG] of the script after [--dry-run]. *)
Definition dryRunConfig : Config := parseArgs ["--dry-run"] Example.config.

(** One card of one language, the language written in lower case. *)
Definition lowerCaseConfig : Config :=
  mkConfig "cards" "001" ["en"] (1%N, 1%N) true false false 2.

(** The Original of card 001 of EN holds bytes that are not an image. *)
Definition corruptDisk : gmap string File :=
  {["cards/EN/001/001.webp"%string := Corrupt]}.

(** Card 001 of EN with an art_and_name WebP of height 700 and no
    Original AVIF. *)
Definition oddVariantDisk : gmap string File :=
  delete "cards/EN/001/001.avif"%string (Example.artAndNameDisk 700).

(** A codec whose third write leaves a 1x1 image instead of what was
    asked for; the CDN has nothing. *)
Definition worldGarbled : World :=
  mkWorld (fun _ _ => StatusOther 404)
          (fun t => if (t =? 2)%nat then Garbled (Image 1 1 (Served "garbled" 0))
                    else NoFault).
(** ** Reasoning rules *)

Lemma wp_ret {A} (a : A) Q st : Q (Ok a) st -> wp (ret a) Q st.
Proof. exact id. Qed.

Lemma wp_throw {A} (e : Error) (Q : Result A -> State -> Prop) st :
  Q (Throw e) st -> wp (throw e) Q st.
Proof. exact id. Qed.

Lemma wp_bind {A B} (m : M A) (k : A -> M B) Q st :
  wp m (fun r st' => match r with
                     | Ok a => wp (k a) Q st'
                     | Throw e => Q (Throw e) st'
                     end) st ->
  wp (bind m k) Q st.
Proof.
  unfold wp, bind. destruct (m st) as [[a|e] st']; simpl; auto.
Qed.

Lemma wp_try_catch {A} (m : M A) (h : Error -> M A) Q st :
  wp m (fun r st' => match r with
                     | Ok a => Q (Ok a) st'
                     | Throw e => wp (h e) Q st'
                     end) st ->
  wp (try_catch m h) Q st.
Proof.
  unfold wp, try_catch. destruct (m st) as [[a|e] st']; simpl; auto.
Qed.

Lemma wp_mono {A} (m : M A) (Q Q' : Result A -> State -> Prop) st :
  wp m Q st -> (forall r st', Q r st' -> Q' r st') -> wp m Q' st.
Proof. unfold wp. auto. Qed.

Lemma wp_eq {A} (m : M A) Q st r st' :
  m st = (r, st') -> Q r st' -> wp m Q st.
Proof. unfold wp. intros ->. auto. Qed.

Lemma wp_run {A} (m : M A) Q st :
  wp m Q st -> forall r st', m st = (r, st') -> Q r st'.
Proof. unfold wp. intros H r st' E. rewrite E in H. exact H. Qed.

(** ** Strings: a replaced path is another path *)

Lemma append_cons (c : ascii) (a b : string) :
  String c a +:+ b = String c (a +:+ b).
Proof. reflexivity. Qed.

Lemma append_nil_l (b : string) : "" +:+ b = b.
Proof. reflexivity. Qed.

Lemma append_nil_r (a : string) : a +:+ "" = a.
Proof.
  induction a as [|c a IH]; [reflexivity|]. now rewrite append_cons, IH.
Qed.

Lemma length_append (a b : string) :
  String.length (a +:+ b) = (String.length a + String.length b)%nat.
Proof.
  induction a as [|c a IH]; [reflexivity|].
  rewrite append_cons. simpl. now rewrite IH.
Qed.

Lemma append_assoc (a b c : string) : (a +:+ b) +:+ c = a +:+ (b +:+ c).
Proof.
  induction a as [|x a IH]; [reflexivity|].
  now rewrite !append_cons, IH.
Qed.

Lemma length_drop_prefix (p s : string) :
  String.prefix p s = true ->
  (String.length (JS.drop (String.length p) s) + String.length p)%nat = String.length s.
Proof.
  revert s. induction p as [|c p IH]; intros s H; simpl.
  - destruct s; simpl; lia.
  - destruct s as [|d s]; simpl in *; [discriminate|].
    destruct (Ascii.ascii_dec c d); [|discriminate].
    specialize (IH _ H). lia.
Qed.

Lemma prefix_append (p s : string) : String.prefix p (p +:+ s) = true.
Proof.
  induction p as [|c p IH]; [now destruct s|].
  rewrite append_cons. simpl.
  destruct (Ascii.ascii_dec c c); [exact IH | congruence].
Qed.

Lemma replace_unfold (pat rep s : string) :
  JS.replace pat rep s =
  if String.prefix pat s then rep +:+ JS.drop (String.length pat) s
  else match s with
       | EmptyString => EmptyString
       | String c s' => String c (JS.replace pat rep s')
       end.
Proof. destruct s; reflexivity. Qed.

(** Replacing an occurring pattern changes the length by the
    difference between replacement and pattern. *)
Lemma length_replace (pat rep pre post : string) :
  (String.length (JS.replace pat rep (pre +:+ pat +:+ post))
   = String.length pre + String.length rep + String.length post)%nat.
Proof.
  induction pre as [|c pre IH].
  - rewrite append_nil_l, replace_unfold, prefix_append, length_append.
    pose proof (length_drop_prefix _ _ (prefix_append pat post)) as L.
    rewrite length_append in L. simpl. lia.
  - rewrite append_cons, replace_unfold.
    destruct (String.prefix pat (String c (pre +:+ pat +:+ post))) eqn:P.
    + rewrite length_append.
      pose proof (length_drop_prefix _ _ P) as L.
      simpl in L. rewrite !length_append in L. simpl. lia.
    + simpl. now rewrite IH.
Qed.

Lemma replace_webp_neq (rep pre : string) :
  String.length rep <> 5%nat ->
  JS.replace ".webp" rep (pre +:+ ".webp") <> pre +:+ ".webp".
Proof.
  intros Hlen E. apply (f_equal String.length) in E.
  pose proof (length_replace ".webp" rep pre "") as L.
  change (".webp" +:+ "") with ".webp" in L.
  rewrite L, length_append in E. simpl in E. lia.
Qed.

(** ** One validation pass *)

Ltac step_in :=
  solve [ apply list_elem_of_In; simpl; tauto
        | exfalso;
          match goal with
          | H : _ ∈ _ |- _ => apply list_elem_of_In in H; simpl in H; intuition discriminate
          end ].

Ltac wp_step :=
  first [ apply wp_bind | apply wp_try_catch ].

Ltac run_prim :=
  unfold wp at 1;
  cbn beta iota delta [fst snd log existsSync modify_stats modify_files tick ret throw
                       when files stats journal clock set_files set_stats].

Lemma warned_nil st : warned [] st = st.
Proof. destruct st. unfold warned. simpl. now rewrite app_nil_r. Qed.

Lemma warned_app ms ms' st : warned ms' (warned ms st) = warned (ms ++ ms') st.
Proof. unfold warned. simpl. now rewrite map_app, app_assoc. Qed.

Lemma log_warned m st : log m WARN st = (Ok tt, warned [m] st).
Proof. reflexivity. Qed.

Ltac unfold_monad :=
  unfold existsSync, metadata, sharp, log; unfold bind, ret, throw; simpl.

Lemma checkArtOnly_findings card paths issues st fs :
  artOnlyFindings (files st) card paths = Some fs ->
  checkArtOnly card paths issues st
  = (Ok (issues ++ issuesOf fs), warned (map fst fs) st).
Proof.
  unfold artOnlyFindings, checkArtOnly. unfold_monad.
  destruct (files st !! artOnlyWebp paths) as [[w h px|]|] eqn:Ew; simpl;
    rewrite ?Ew; simpl;
    [destruct (h =? 1024) eqn:Eh; simpl;
     [|destruct (Z.abs (h - 603) >? tolerancePx config) eqn:Et;
       simpl]| |];
    try discriminate;
    destruct (files st !! artOnlyAvif paths) eqn:Ea; simpl;
    rewrite ?Ea; simpl;
    intros [= <-]; simpl;
    rewrite <- ?app_assoc, ?app_nil_r; simpl; try reflexivity;
    try (now rewrite warned_nil);
    unfold warned; simpl; now rewrite <- ?app_assoc.
Qed.

Lemma checkArtOnly_throws card paths issues st :
  artOnlyFindings (files st) card paths = None ->
  checkArtOnly card paths issues st = (Throw (SharpError (artOnlyWebp paths)), st).
Proof.
  unfold artOnlyFindings, checkArtOnly. unfold_monad.
  destruct (files st !! artOnlyWebp paths) as [[w h px|]|] eqn:Ew; simpl;
    rewrite ?Ew; simpl; try discriminate; try reflexivity.
  destruct (h =? 1024); [discriminate|].
  destruct (Z.abs (h - 603) >? tolerancePx config); discriminate.
Qed.

Lemma checkArtAndName_findings card lang paths issues st fs :
  artAndNameFindings (files st) card lang paths = Some fs ->
  checkArtAndName card lang paths issues st
  = (Ok (issues ++ issuesOf fs), warned (map fst fs) st).
Proof.
  unfold artAndNameFindings, checkArtAndName. unfold_monad.
  destruct (files st !! artAndNameWebp paths) as [[w h px|]|] eqn:Ew; simpl;
    rewrite ?Ew; simpl;
    [destruct (h =? 1024) eqn:Eh; simpl;
     [|destruct (Z.abs (h - 767) >? tolerancePx config) eqn:Et;
       simpl]| |];
    try discriminate;
    destruct (files st !! artAndNameAvif paths) eqn:Ea; simpl;
    rewrite ?Ea; simpl;
    intros [= <-]; simpl;
    rewrite <- ?app_assoc, ?app_nil_r; simpl; try reflexivity;
    try (now rewrite warned_nil);
    unfold warned; simpl; now rewrite <- ?app_assoc.
Qed.

Lemma checkArtAndName_throws card lang paths issues st :
  artAndNameFindings (files st) card lang paths = None ->
  checkArtAndName card lang paths issues st
  = (Throw (SharpError (artAndNameWebp paths)), st).
Proof.
  unfold artAndNameFindings, checkArtAndName. unfold_monad.
  destruct (files st !! artAndNameWebp paths) as [[w h px|]|] eqn:Ew; simpl;
    rewrite ?Ew; simpl; try discriminate; try reflexivity.
  destruct (h =? 1024); [discriminate|].
  destruct (Z.abs (h - 767) >? tolerancePx config); discriminate.
Qed.

Lemma issuesOf_app fs fs' : issuesOf (fs ++ fs') = issuesOf fs ++ issuesOf fs'.
Proof. apply omap_app. Qed.

Lemma executed_app j j' : executed (j ++ j') = executed j ++ executed j'.
Proof. apply omap_app. Qed.

Lemma executed_warned ms : executed (map (fun m => (WARN, m)) ms) = [] ->
  forall st, readOnly st (warned ms st).
Proof.
  intros H st. unfold readOnly, warned. simpl.
  rewrite executed_app, H, app_nil_r. auto.
Qed.

Lemma metadata_eq file st w h px :
  files st !! file = Some (Image w h px) -> metadata file st = (Ok (w, h), st).
Proof. intros H. unfold metadata, sharp, bind. now rewrite H. Qed.

Lemma metadata_throws file st :
  (forall w h px, files st !! file <> Some (Image w h px)) ->
  metadata file st = (Throw (SharpError file), st).
Proof.
  intros H. unfold metadata, sharp, bind.
  destruct (files st !! file) as [[w h px|]|]; try reflexivity.
  now destruct (H w h px).
Qed.

Lemma quiet_app fs fs' : quiet fs -> quiet fs' -> quiet (fs ++ fs').
Proof.
  unfold quiet. intros H H'. now rewrite !map_app, executed_app, H, H'.
Qed.

Lemma artOnlyFindings_quiet disk card paths fs :
  artOnlyFindings disk card paths = Some fs -> quiet fs.
Proof.
  unfold artOnlyFindings.
  destruct (disk !! artOnlyWebp paths) as [[w h px|]|];
    [destruct (h =? 1024);
     [|destruct (Z.abs (h - snd (getExpectedDimensions "art_only")) >? tolerancePx config)]
    | |]; try discriminate;
    destruct (disk !! artOnlyAvif paths); intros [= <-]; reflexivity.
Qed.

Lemma artAndNameFindings_quiet disk card lang paths fs :
  artAndNameFindings disk card lang paths = Some fs -> quiet fs.
Proof.
  unfold artAndNameFindings.
  destruct (disk !! artAndNameWebp paths) as [[w h px|]|];
    [destruct (h =? 1024);
     [|destruct (Z.abs (h - snd (getExpectedDimensions "art_and_name"))
                 >? tolerancePx config)]
    | |]; try discriminate;
    destruct (disk !! artAndNameAvif paths); intros [= <-]; reflexivity.
Qed.

Lemma readOnly_warned fs st : quiet fs -> readOnly st (warned (map fst fs) st).
Proof. intros H. now apply executed_warned. Qed.

(** What [checkExisting] does on a decodable original. *)
Lemma checkExisting_findings cardNum lang st w h px :
  let paths := getFilePaths cardNum lang in
  let card := getCardNumber cardNum in
  files st !! originalWebp paths = Some (Image w h px) ->
  wp (checkExisting card lang paths [])
     (fun r st' =>
        match findings (files st) cardNum lang with
        | Some fs => r = Ok (issuesOf fs) /\ st' = warned (map fst fs) st
        | None => (exists e, r = Throw e) /\ readOnly st st'
        end) st.
Proof.
  intros paths card. unfold findings. fold paths. fold card.
  clearbody paths card. intros Ho. rewrite Ho.
  set (resize := if negb (w =? 734) || negb (h =? 1024) then _ else _).
  set (convert := match files st !! originalAvif paths with Some _ => _ | None => _ end).
  unfold checkExisting.
  wp_step. eapply wp_eq; [eapply metadata_eq; exact Ho|]. simpl.
  wp_step.
  apply wp_eq with (r := Ok (issuesOf resize)) (st' := warned (map fst resize) st).
  { subst resize. destruct (negb (w =? 734) || negb (h =? 1024)); simpl.
    - reflexivity.
    - now rewrite warned_nil. }
  wp_step. run_prim.
  wp_step.
  apply wp_eq with (r := Ok (issuesOf (resize ++ convert)))
                   (st' := warned (map fst (resize ++ convert)) st).
  { rewrite issuesOf_app, map_app, <- warned_app. subst convert.
    cbn [files warned].
    destruct (files st !! originalAvif paths); simpl.
    - now rewrite warned_nil, app_nil_r.
    - reflexivity. }
  assert (quiet (resize ++ convert)) as Hq.
  { apply quiet_app; [subst resize; now destruct (negb _ || negb _)|].
    subst convert. now destruct (files st !! originalAvif paths). }
  wp_step.
  destruct (negb (skipVariants config)) eqn:Es; simpl.
  - destruct (isFirstLanguage lang) eqn:Ef; simpl.
    + destruct (artOnlyFindings (files st) card paths) as [ao|] eqn:Eao.
      * eapply wp_eq; [apply checkArtOnly_findings; exact Eao|].
        rewrite warned_app, <- map_app, <- issuesOf_app.
        destruct (artAndNameFindings (files st) card lang paths) as [an|] eqn:Ean.
        -- eapply wp_eq; [apply checkArtAndName_findings; exact Ean|].
           rewrite warned_app, <- map_app, <- issuesOf_app, <- !app_assoc. auto.
        -- eapply wp_eq; [apply checkArtAndName_throws; exact Ean|].
           split; [eauto|]. apply readOnly_warned, quiet_app; [exact Hq|].
           eapply artOnlyFindings_quiet; eauto.
      * eapply wp_eq; [apply checkArtOnly_throws; exact Eao|].
        split; [eauto|]. now apply readOnly_warned.
    + run_prim.
      destruct (artAndNameFindings (files st) card lang paths) as [an|] eqn:Ean.
      * eapply wp_eq; [apply checkArtAndName_findings; exact Ean|].
        rewrite warned_app, <- map_app, <- issuesOf_app, <- !app_assoc. auto.
      * eapply wp_eq; [apply checkArtAndName_throws; exact Ean|].
        split; [eauto|]. now apply readOnly_warned.
  - run_prim. rewrite !app_nil_r. run_prim. auto.
Qed.

Lemma findings_quiet disk cardNum lang fs :
  findings disk cardNum lang = Some fs -> quiet fs.
Proof.
  unfold findings.
  destruct (disk !! originalWebp _) as [[w h px|]|]; [| discriminate |].
  - destruct (if negb (skipVariants config) && isFirstLanguage lang then _ else _)
      as [ao|] eqn:Eao; [|discriminate].
    destruct (if negb (skipVariants config) then _ else _) as [an|] eqn:Ean;
      [|discriminate].
    intros [= <-].
    repeat apply quiet_app.
    + now destruct (negb _ || negb _).
    + match goal with |- context [disk !! ?p] => now destruct (disk !! p) end.
    + destruct (negb (skipVariants config) && isFirstLanguage lang).
      * eapply artOnlyFindings_quiet; eauto.
      * now injection Eao as <-.
    + destruct (negb (skipVariants config)).
      * eapply artAndNameFindings_quiet; eauto.
      * now injection Ean as <-.
  - now intros [= <-].
Qed.

Lemma messagesOf_warned t ms st :
  messagesOf t (warned ms st)
  = messagesOf t st ++ (if bool_decide (t = WARN) then ms else []).
Proof.
  unfold messagesOf, warned. simpl.
  rewrite List.filter_app, map_app. f_equal.
  induction ms as [|m ms IH]; simpl.
  - now destruct (bool_decide (t = WARN)).
  - destruct (decide (t = WARN)) as [->|Hne].
    + rewrite bool_decide_true by done. rewrite bool_decide_true in IH by done.
      simpl. now rewrite IH.
    + rewrite bool_decide_false by done. rewrite bool_decide_false in IH by done.
      rewrite bool_decide_false by congruence. exact IH.
Qed.

Lemma originalCheck_findings cardNum lang st :
  let paths := getFilePaths cardNum lang in
  let card := getCardNumber cardNum in
  wp (if negb (match files st !! originalWebp paths with
               | Some _ => true
               | None => false
               end)
      then do _ <- log (MissingOriginalWebp card lang) WARN;
           ret ([] ++ [mkIssue DOWNLOAD (originalWebp paths) lang])
      else checkExisting card lang paths [])
     (fun r st' =>
        match findings (files st) cardNum lang with
        | Some fs => r = Ok (issuesOf fs) /\ st' = warned (map fst fs) st
        | None => (exists e, r = Throw e) /\ readOnly st st'
        end) st.
Proof.
  intros paths card.
  destruct (files st !! originalWebp paths) as [[w h px|]|] eqn:Ho; simpl.
  - eapply checkExisting_findings; exact Ho.
  - unfold findings. fold paths. rewrite Ho.
    unfold checkExisting. wp_step.
    eapply wp_eq; [apply metadata_throws; intros; rewrite Ho; discriminate|].
    split; [eauto|]. unfold readOnly; auto.
  - unfold findings. fold paths. rewrite Ho.
    wp_step. run_prim. run_prim. auto.
Qed.

Lemma readOnly_trans st st' st'' :
  readOnly st st' -> readOnly st' st'' -> readOnly st st''.
Proof. unfold readOnly. intuition congruence. Qed.

Lemma readOnly_refl st : readOnly st st.
Proof. unfold readOnly. auto. Qed.

Lemma readOnly_info m st :
  executedEntry (INFO, m) = None ->
  readOnly st (mkState (files st) (stats st) (journal st ++ [(INFO, m)]) (clock st)).
Proof.
  intros H. unfold readOnly. simpl. rewrite executed_app. unfold executed at 2. simpl.
  rewrite H. simpl. now rewrite app_nil_r.
Qed.

Lemma warnings_info m st :
  warnings (mkState (files st) (stats st) (journal st ++ [(INFO, m)]) (clock st))
  = warnings st.
Proof.
  unfold warnings, messagesOf. simpl. rewrite List.filter_app, map_app. simpl.
  now rewrite app_nil_r.
Qed.

Lemma length_nil_inv {A} (l : list A) : (0 <? length l)%nat = false -> l = [].
Proof. destruct l; [auto|discriminate]. Qed.

(** The counters at the end of [validateCard]. *)
Lemma resolves_counters st lang :
  is_Some (byLanguage (stats st) !! lang) -> resolves st lang = true.
Proof. intros [l Hl]. unfold resolves. now rewrite Hl. Qed.

Lemma resolves_dom st st' lang :
  (forall x, is_Some (byLanguage (stats st') !! x)
             <-> is_Some (byLanguage (stats st) !! x)) ->
  resolves st' lang = resolves st lang.
Proof.
  intros H. unfold resolves. specialize (H lang).
  destruct (byLanguage (stats st') !! lang), (byLanguage (stats st) !! lang);
    try reflexivity.
  - destruct (proj1 H) as [? [=]]. eauto.
  - destruct (proj2 H) as [? [=]]. eauto.
Qed.

(** The end of [validateCard]: the counters. *)
Lemma counters_tail_spec card lang (issues : list Issue) st :
  let found := (0 <? length issues)%nat in
  wp (do _ <- modify_stats incr_checked;
      do _ <- byLanguage_incr l_incr_checked lang;
      if (0 <? length issues)%nat
      then
        do _ <- modify_stats incr_missing;
        do _ <- byLanguage_incr l_incr_missing lang; ret issues
      else
        do _ <- when (verbose config) (log (CardComplete card lang) INFO);
        ret [])
     (fun r st' =>
        files st' = files st /\ clock st' = clock st
        /\ executed (journal st') = executed (journal st)
        /\ warnings st' = warnings st
        /\ if resolves st lang
           then r = Ok issues
                /\ stats st'
                   = mkStats (S (checked (stats st)))
                       (if found then S (missing (stats st)) else missing (stats st))
                       (recovered (stats st)) (failed (stats st)) (skipped (stats st))
                       (match byLanguage (stats st) !! lang with
                        | Some ls =>
                            <[lang := countValidation found ls]> (byLanguage (stats st))
                        | None => byLanguage (stats st)
                        end)
           else r = Throw TypeError /\ stats st' = incr_checked (stats st)) st.
Proof.
  intros found. subst found.
  wp_step. run_prim. wp_step.
  unfold wp at 1, byLanguage_incr, resolves.
  cbn [stats set_stats incr_checked byLanguage].
  destruct (byLanguage (stats st) !! lang) as [ls|] eqn:El; cbn [fst snd].
  - destruct (0 <? length issues)%nat eqn:Elen.
    + wp_step. run_prim. wp_step.
      unfold wp at 1, byLanguage_incr.
      cbn [stats set_stats incr_checked incr_missing set_byLanguage byLanguage].
      rewrite lookup_insert_eq. cbn [fst snd]. run_prim.
      cbn [stats set_stats incr_checked incr_missing set_byLanguage byLanguage
           recovered failed checked missing skipped files journal clock].
      split_and!; try reflexivity.
      unfold set_byLanguage, incr_missing, incr_checked.
      cbn [checked missing recovered failed skipped byLanguage].
      now rewrite insert_insert_eq.
    + apply length_nil_inv in Elen. subst issues.
      wp_step. destruct (verbose config); run_prim; run_prim;
        cbn [stats set_stats incr_checked set_byLanguage byLanguage
             recovered failed checked missing skipped files journal clock];
        split_and!; try reflexivity.
      * rewrite executed_app. unfold executed at 2. simpl. now rewrite app_nil_r.
      * apply warnings_info.
  - destruct (inherited lang) eqn:Einh; cbn [fst snd].
    + destruct (0 <? length issues)%nat eqn:Elen.
      * wp_step. run_prim. wp_step.
        unfold wp at 1, byLanguage_incr.
        cbn [stats set_stats incr_checked incr_missing set_byLanguage byLanguage].
        rewrite El. cbn [fst snd]. run_prim.
        cbn [stats set_stats incr_checked incr_missing set_byLanguage byLanguage
             recovered failed checked missing skipped files journal clock].
        split_and!; reflexivity.
      * apply length_nil_inv in Elen. subst issues.
        wp_step. destruct (verbose config); run_prim; run_prim;
          cbn [stats set_stats incr_checked set_byLanguage byLanguage
               recovered failed checked missing skipped files journal clock];
          split_and!; try reflexivity.
        -- rewrite executed_app. unfold executed at 2. simpl. now rewrite app_nil_r.
        -- apply warnings_info.
    + cbn [stats set_stats incr_checked byLanguage recovered failed checked
           files journal clock].
      split_and!; reflexivity.
Qed.

Lemma validateCard_counters card lang (issues : list Issue) st :
  wp (do _ <- modify_stats incr_checked;
      do _ <- byLanguage_incr l_incr_checked lang;
      if (0 <? length issues)%nat
      then
        do _ <- modify_stats incr_missing;
        do _ <- byLanguage_incr l_incr_missing lang; ret issues
      else
        do _ <- when (verbose config) (log (CardComplete card lang) INFO);
        ret [])
     (fun r st' =>
        files st' = files st /\ clock st' = clock st
        /\ executed (journal st') = executed (journal st)
        /\ warnings st' = warnings st
        /\ recovered (stats st') = recovered (stats st)
        /\ failed (stats st') = failed (stats st)
        /\ (forall x, is_Some (byLanguage (stats st') !! x)
                      <-> is_Some (byLanguage (stats st) !! x))
        /\ checked (stats st') = S (checked (stats st))
        /\ match r with
           | Ok issues' => issues' = issues /\ resolves st lang = true
           | Throw e => resolves st lang = false
           end) st.
Proof.
  eapply wp_mono; [apply counters_tail_spec|].
  intros r st' (Hf & Hc & Hj & Hw & H).
  destruct (resolves st lang) eqn:Eres.
  - destruct H as [-> Hs]. rewrite Hs. cbn [recovered failed checked byLanguage].
    split_and!; auto.
    intros x. destruct (byLanguage (stats st) !! lang) as [ls|] eqn:El; [|reflexivity].
    destruct (decide (lang = x)) as [<-|Hne].
    + rewrite lookup_insert_eq, El. split; eauto.
    + now rewrite lookup_insert_ne.
  - destruct H as [-> Hs]. rewrite Hs. cbn [incr_checked recovered failed checked byLanguage].
    split_and!; auto.
Qed.

Lemma validateCard_findings cardNum lang st :
  wp (validateCard cardNum lang)
     (fun r st' =>
        files st' = files st /\ clock st' = clock st
        /\ executed (journal st') = executed (journal st)
        /\ recovered (stats st') = recovered (stats st)
        /\ failed (stats st') = failed (stats st)
        /\ (forall x, is_Some (byLanguage (stats st') !! x)
                      <-> is_Some (byLanguage (stats st) !! x))
        /\ (checked (stats st') <= S (checked (stats st)))%nat
        /\ match r with
           | Ok issues =>
               exists fs, findings (files st) cardNum lang = Some fs
                          /\ issues = issuesOf fs
                          /\ warnings st' = warnings st ++ map fst fs
                          /\ checked (stats st') = S (checked (stats st))
                          /\ resolves st lang = true
           | Throw e =>
               findings (files st) cardNum lang = None
               \/ resolves st lang = false
           end) st.
Proof.
  unfold validateCard.
  wp_step.
  apply wp_eq with (r := Ok tt)
    (st' := if verbose config
            then mkState (files st) (stats st)
                   (journal st ++ [(INFO, ValidatingCard (getCardNumber cardNum) lang)])
                   (clock st)
            else st).
  { now destruct (verbose config). }
  set (st0 := if verbose config then _ else st).
  assert (readOnly st st0 /\ warnings st0 = warnings st) as [H0 W0].
  { subst st0. destruct (verbose config).
    - split; [now apply readOnly_info | apply warnings_info].
    - split; [apply readOnly_refl | reflexivity]. }
  wp_step. run_prim. wp_step.
  eapply wp_mono; [apply originalCheck_findings|].
  intros r st1. cbv beta.
  replace (files st0) with (files st) by (symmetry; apply H0).
  destruct (findings (files st) cardNum lang) as [fs|] eqn:Ef.
  - intros [-> ->].
    pose proof (findings_quiet _ _ _ _ Ef) as Hq.
    eapply wp_mono; [apply validateCard_counters|].
    intros r st' (Hf & Hc & Hj & Hw & Hrec & Hfail & Hdom & Hchk & Hr).
    unfold resolves in Hr |- *.
    cbn [files clock journal set_stats warned] in *.
    destruct H0 as (Hf0 & Hs0 & Hc0 & Hj0).
    cbn [stats warned] in *. rewrite Hs0 in *.
    assert (executed (journal st') = executed (journal st)) as Hex.
    { rewrite Hj, executed_app, Hq, app_nil_r. exact Hj0. }
    unfold warnings in *. rewrite messagesOf_warned, W0 in Hw.
    rewrite bool_decide_true in Hw by done.
    split_and!; try congruence; try apply Hdom; try lia.
    destruct r as [issues|e].
    + destruct Hr as [-> Hsome]. exists fs. auto.
    + auto.
  - intros [[e ->] Hro].
    destruct (readOnly_trans _ _ _ H0 Hro) as (Hf & Hs & Hc & Hj).
    rewrite Hs. split_and!; auto.
Qed.
(** ** Consequences for the issues of one pass *)

Lemma artOnlyFindings_decodable disk card paths :
  decodable disk -> is_Some (artOnlyFindings disk card paths).
Proof.
  intros Hd. unfold artOnlyFindings.
  destruct (disk !! artOnlyWebp paths) as [[w h px|]|] eqn:E; eauto.
  - destruct (h =? 1024); eauto.
    destruct (Z.abs _ >? _); eauto.
  - now destruct (Hd _ E).
Qed.

Lemma artAndNameFindings_decodable disk card lang paths :
  decodable disk -> is_Some (artAndNameFindings disk card lang paths).
Proof.
  intros Hd. unfold artAndNameFindings.
  destruct (disk !! artAndNameWebp paths) as [[w h px|]|] eqn:E; eauto.
  - destruct (h =? 1024); eauto.
    destruct (Z.abs _ >? _); eauto.
  - now destruct (Hd _ E).
Qed.

Lemma findings_decodable disk cardNum lang :
  decodable disk -> is_Some (findings disk cardNum lang).
Proof.
  intros Hd. unfold findings.
  destruct (disk !! originalWebp _) as [[w h px|]|] eqn:E; eauto.
  - destruct (artOnlyFindings_decodable disk (getCardNumber cardNum)
                (getFilePaths cardNum lang) Hd) as [ao ->].
    destruct (artAndNameFindings_decodable disk (getCardNumber cardNum) lang
                (getFilePaths cardNum lang) Hd) as [an ->].
    destruct (negb (skipVariants config) && isFirstLanguage lang);
      destruct (negb (skipVariants config)); eauto.
  - now destruct (Hd _ E).
Qed.

(** On a decodable disk and for a language that has counters, a
    validation pass returns its findings. *)
Lemma validateCard_returns cardNum lang st :
  decodable (files st) ->
  is_Some (byLanguage (stats st) !! lang) ->
  exists fs st',
    findings (files st) cardNum lang = Some fs
    /\ validateCard cardNum lang st = (Ok (issuesOf fs), st')
    /\ files st' = files st
    /\ warnings st' = warnings st ++ map fst fs.
Proof.
  intros Hd Hl.
  destruct (findings_decodable (files st) cardNum lang Hd) as [fs Hfs].
  pose proof (validateCard_findings cardNum lang st) as H. unfold wp in H.
  destruct (validateCard cardNum lang st) as [[issues|e] st']; simpl in H.
  - destruct H as (Hf & _ & _ & _ & _ & _ & _ & fs' & Hfs' & -> & Hw & _).
    exists fs', st'. auto.
  - destruct H as (_ & _ & _ & _ & _ & _ & _ & [H|H]).
    + congruence.
    + unfold resolves in H. destruct Hl as [l Hl]. rewrite Hl in H. discriminate.
Qed.

(** Whatever a validation pass returns are the findings on the disk. *)
Lemma validateCard_inv cardNum lang st issues st' :
  validateCard cardNum lang st = (Ok issues, st') ->
  exists fs, findings (files st) cardNum lang = Some fs
             /\ issues = issuesOf fs
             /\ files st' = files st
             /\ warnings st' = warnings st ++ map fst fs.
Proof.
  intros E. pose proof (validateCard_findings cardNum lang st) as H.
  unfold wp in H. rewrite E in H. simpl in H.
  destruct H as (Hf & _ & _ & _ & _ & _ & _ & fs & Hfs & -> & Hw & _).
  exists fs. auto.
Qed.

Lemma artOnlyFindings_steps disk card paths fs i :
  artOnlyFindings disk card paths = Some fs -> In i (issuesOf fs) ->
  i = mkIssue CROP_ART_ONLY (artOnlyWebp paths) "shared"
  \/ i = mkIssue CONVERT_ART_ONLY (artOnlyAvif paths) "shared".
Proof.
  unfold artOnlyFindings.
  destruct (disk !! artOnlyWebp paths) as [[w h px|]|];
    [destruct (h =? 1024); [|destruct (Z.abs _ >? _)]| |]; try discriminate;
    destruct (disk !! artOnlyAvif paths); intros [= <-]; simpl; intuition.
Qed.

Lemma artAndNameFindings_steps disk card lang paths fs i :
  artAndNameFindings disk card lang paths = Some fs -> In i (issuesOf fs) ->
  i = mkIssue CROP_ART_AND_NAME (artAndNameWebp paths) lang
  \/ i = mkIssue CONVERT_ART_AND_NAME (artAndNameAvif paths) lang.
Proof.
  unfold artAndNameFindings.
  destruct (disk !! artAndNameWebp paths) as [[w h px|]|];
    [destruct (h =? 1024); [|destruct (Z.abs _ >? _)]| |]; try discriminate;
    destruct (disk !! artAndNameAvif paths); intros [= <-]; simpl; intuition.
Qed.

(** The findings on an existing original, part by part. *)
Lemma findings_existing disk cardNum lang w h px fs :
  let paths := getFilePaths cardNum lang in
  let card := getCardNumber cardNum in
  disk !! originalWebp paths = Some (Image w h px) ->
  findings disk cardNum lang = Some fs ->
  exists ao an,
    fs = (if negb (w =? 734) || negb (h =? 1024)
          then [(OriginalWrongDimensions card lang w h,
                 Some (mkIssue RESIZE_ORIGINAL (originalWebp paths) lang))]
          else [])
         ++ match disk !! originalAvif paths with
            | None => [(MissingOriginalAvif card lang,
                        Some (mkIssue CONVERT_ORIGINAL (originalAvif paths) lang))]
            | Some _ => []
            end
         ++ ao ++ an
    /\ (if negb (skipVariants config) && isFirstLanguage lang
        then artOnlyFindings disk card paths else Some []) = Some ao
    /\ (if negb (skipVariants config)
        then artAndNameFindings disk card lang paths else Some []) = Some an.
Proof.
  intros paths card Ho. unfold findings. fold paths card. rewrite Ho.
  destruct (if negb (skipVariants config) && isFirstLanguage lang then _ else _)
    as [ao|]; [|discriminate].
  destruct (if negb (skipVariants config) then _ else _) as [an|]; [|discriminate].
  intros [= <-]. eauto.
Qed.

Lemma decodable_check disk : decodableb disk = true -> decodable disk.
Proof.
  unfold decodableb, decodable. rewrite forallb_forall. intros H p Hp.
  apply elem_of_map_to_list, list_elem_of_In in Hp. apply H in Hp. discriminate.
Qed.


(** ** When a validation returns *)

Lemma findings_examined disk cardNum lang :
  (forall p, p ∈ examined cardNum lang -> disk !! p <> Some Corrupt) ->
  is_Some (findings disk cardNum lang).
Proof.
  intros H. unfold findings, examined in *.
  set (paths := getFilePaths cardNum lang) in *.
  set (card := getCardNumber cardNum).
  destruct (disk !! originalWebp paths) as [[w h px|]|] eqn:Eo; eauto.
  - assert (is_Some (if negb (skipVariants config) && isFirstLanguage lang
                     then artOnlyFindings disk card paths else Some [])) as [ao ->].
    { destruct (negb (skipVariants config) && isFirstLanguage lang); eauto.
      unfold artOnlyFindings.
      destruct (disk !! artOnlyWebp paths) as [[vw vh vpx|]|] eqn:E; eauto.
      - destruct (vh =? 1024); eauto. destruct (Z.abs _ >? _); eauto.
      - exfalso. apply (H (artOnlyWebp paths)); [|exact E].
        apply list_elem_of_In. cbn. tauto. }
    assert (is_Some (if negb (skipVariants config)
                     then artAndNameFindings disk card lang paths else Some []))
      as [an ->]; eauto.
    destruct (negb (skipVariants config)); eauto.
    unfold artAndNameFindings.
    destruct (disk !! artAndNameWebp paths) as [[vw vh vpx|]|] eqn:E; eauto.
    + destruct (vh =? 1024); eauto. destruct (Z.abs _ >? _); eauto.
    + exfalso. apply (H (artAndNameWebp paths)); [|exact E].
      apply list_elem_of_In. rewrite !in_app_iff. cbn. tauto.
  - exfalso. apply (H (originalWebp paths)); [|exact Eo].
    apply list_elem_of_In. cbn. tauto.
Qed.

Lemma findings_undecodable disk cardNum lang p :
  is_Some (disk !! originalWebp (getFilePaths cardNum lang)) ->
  p ∈ examined cardNum lang ->
  disk !! p = Some Corrupt ->
  findings disk cardNum lang = None.
Proof.
  intros [f Ho] Hp Hc. unfold findings, examined in *.
  set (paths := getFilePaths cardNum lang) in *.
  rewrite Ho. destruct f as [w h px|]; [|reflexivity].
  apply list_elem_of_In in Hp. rewrite !in_app_iff in Hp.
  destruct Hp as [[<-|[]]|[Hp|Hp]]; [congruence| |].
  - destruct (negb (skipVariants config) && isFirstLanguage lang); [|destruct Hp].
    destruct Hp as [<-|[]]. unfold artOnlyFindings at 1. rewrite Hc. reflexivity.
  - destruct (negb (skipVariants config)); [|destruct Hp].
    destruct Hp as [<-|[]]. unfold artAndNameFindings at 1. rewrite Hc.
    cbn [andb]. destruct (isFirstLanguage lang);
      [destruct (artOnlyFindings _ _ _)|]; reflexivity.
Qed.

(** A validation returns when the files it decodes are images and the
    language has its counters. *)
Lemma validateCard_total cardNum lang st :
  (forall p, p ∈ examined cardNum lang -> files st !! p <> Some Corrupt) ->
  is_Some (byLanguage (stats st) !! lang) ->
  exists issues st', validateCard cardNum lang st = (Ok issues, st').
Proof.
  intros Hp Hl. destruct (findings_examined _ _ _ Hp) as [fs Hfs].
  pose proof (validateCard_findings cardNum lang st) as H. unfold wp in H.
  destruct (validateCard cardNum lang st) as [[issues|e] st']; cbn [fst snd] in H.
  - eauto.
  - destruct H as (_ & _ & _ & _ & _ & _ & _ & [H|H]).
    + congruence.
    + rewrite resolves_counters in H by exact Hl. discriminate.
Qed.

(** It throws when the Original exists and one of the files it decodes
    is not an image. *)
Lemma validateCard_throws cardNum lang st p :
  is_Some (files st !! originalWebp (getFilePaths cardNum lang)) ->
  p ∈ examined cardNum lang ->
  files st !! p = Some Corrupt ->
  exists e st', validateCard cardNum lang st = (Throw e, st').
Proof.
  intros Ho Hp Hc. pose proof (findings_undecodable _ _ _ _ Ho Hp Hc) as Hnone.
  pose proof (validateCard_findings cardNum lang st) as H. unfold wp in H.
  destruct (validateCard cardNum lang st) as [[issues|e] st']; cbn [fst snd] in H.
  - destruct H as (_ & _ & _ & _ & _ & _ & _ & fs & Hfs & _). congruence.
  - eauto.
Qed.

(** With the Original missing it returns the DOWNLOAD issue alone. *)
Lemma validateCard_missing_original cardNum lang st issues st' :
  files st !! originalWebp (getFilePaths cardNum lang) = None ->
  validateCard cardNum lang st = (Ok issues, st') ->
  issues = [mkIssue DOWNLOAD (originalWebp (getFilePaths cardNum lang)) lang].
Proof.
  intros Ho E. destruct (validateCard_inv _ _ _ _ _ E) as (fs & Hfs & -> & _).
  unfold findings in Hfs. rewrite Ho in Hfs. now injection Hfs as <-.
Qed.
Lemma in_issues_existing (disk : gmap string File) cardNum lang w h fs ao an i :
  let paths := getFilePaths cardNum lang in
  let card := getCardNumber cardNum in
  fs = (if negb (w =? 734) || negb (h =? 1024)
        then [(OriginalWrongDimensions card lang w h,
               Some (mkIssue RESIZE_ORIGINAL (originalWebp paths) lang))]
        else [])
       ++ match disk !! originalAvif paths with
          | None => [(MissingOriginalAvif card lang,
                      Some (mkIssue CONVERT_ORIGINAL (originalAvif paths) lang))]
          | Some _ => []
          end
       ++ ao ++ an ->
  In i (issuesOf fs) <->
  (i = mkIssue RESIZE_ORIGINAL (originalWebp paths) lang /\ (w <> 734 \/ h <> 1024))
  \/ (i = mkIssue CONVERT_ORIGINAL (originalAvif paths) lang
      /\ disk !! originalAvif paths = None)
  \/ In i (issuesOf ao) \/ In i (issuesOf an).
Proof.
  intros paths card ->. rewrite !issuesOf_app, !in_app_iff.
  assert (negb (w =? 734) || negb (h =? 1024) = true <-> (w <> 734 \/ h <> 1024)) as Hd.
  { rewrite orb_true_iff, !negb_true_iff, !Z.eqb_neq. tauto. }
  destruct (negb (w =? 734) || negb (h =? 1024));
    destruct (disk !! originalAvif paths); simpl;
    intuition (try congruence; eauto).
Qed.

(** ** Claims about validation *)

(** C7 (amended).  Original dimension check: whenever a validation
    returns, its issues contain RESIZE_ORIGINAL if and only if the
    Original WebP is on disk with probed dimensions that are not
    exactly 734x1024.  The tolerance is not consulted for the
    Original: 733x1023 is flagged.  The validation returns when the
    Original and the variant WebPs it examines decode and the language
    has its counters; it throws, and returns no issue, when the
    Original exists and one of these files does not decode. *)
Theorem C7_original_resize_iff_not_exact cardNum lang st :
  let paths := getFilePaths cardNum lang in
  (forall issues st',
      validateCard cardNum lang st = (Ok issues, st') ->
      (In RESIZE_ORIGINAL (map step issues)
       <-> exists w h px,
             files st !! originalWebp paths = Some (Image w h px)
             /\ (w <> 734 \/ h <> 1024)))
  /\ ((forall p, p ∈ examined cardNum lang -> files st !! p <> Some Corrupt) ->
      is_Some (byLanguage (stats st) !! lang) ->
      exists issues st', validateCard cardNum lang st = (Ok issues, st'))
  /\ (forall p,
         is_Some (files st !! originalWebp paths) ->
         p ∈ examined cardNum lang -> files st !! p = Some Corrupt ->
         exists e st', validateCard cardNum lang st = (Throw e, st')).
Proof.
  intros paths. split_and!.
  - intros issues st' Hv.
    destruct (files st !! originalWebp paths) as [[w h px|]|] eqn:Ho.
    + destruct (validateCard_inv _ _ _ _ _ Hv) as (fs & Hfs & -> & _).
      destruct (findings_existing _ _ _ _ _ _ _ Ho Hfs)
        as (ao & an & Hdec & Hao & Han).
      rewrite in_map_iff. split.
      * intros (i & Hs & Hi).
        apply (in_issues_existing _ _ _ _ _ _ _ _ _ Hdec) in Hi.
        destruct Hi as [[-> H]|[[-> _]|[Hi|Hi]]]; try discriminate.
        -- eauto.
        -- exfalso. destruct (negb (skipVariants config) && isFirstLanguage lang).
           ++ destruct (artOnlyFindings_steps _ _ _ _ _ Hao Hi) as [E | E];
                rewrite E in Hs; discriminate.
           ++ injection Hao as <-. destruct Hi.
        -- exfalso. destruct (negb (skipVariants config)).
           ++ destruct (artAndNameFindings_steps _ _ _ _ _ _ Han Hi) as [E | E];
                rewrite E in Hs; discriminate.
           ++ injection Han as <-. destruct Hi.
      * intros (w' & h' & px' & [= <- <- <-] & H).
        eexists. split; [|apply (in_issues_existing _ _ _ _ _ _ _ _ _ Hdec)].
        2: { left. split; [reflexivity | exact H]. }
        reflexivity.
    + destruct (validateCard_inv _ _ _ _ _ Hv) as (fs & Hfs & _).
      unfold findings in Hfs. fold paths in Hfs. rewrite Ho in Hfs. discriminate.
    + rewrite (validateCard_missing_original _ _ _ _ _ Ho Hv). cbn.
      split; [intros [[=]|[]] | intros (? & ? & ? & [=] & _)].
  - apply validateCard_total.
  - intros p. apply validateCard_throws.
Qed.

(** C8 (amended).  The Original's AVIF check is not gated by the
    resize flag: it runs whenever the Original WebP exists and
    decodes.  Whenever a validation returns, its issues contain
    CONVERT_ORIGINAL if and only if the Original WebP exists and the
    Original AVIF is absent, whatever the Original's dimensions, so
    that an Original of the wrong size without AVIF gets both a
    RESIZE_ORIGINAL and a CONVERT_ORIGINAL issue.  An Original WebP
    that exists but does not decode makes the validation throw before
    the AVIF check.  The validation returns when the Original and the
    variant WebPs it examines decode and the language has its
    counters; it throws, and returns no issue, when the Original
    exists and one of these files does not decode. *)
Theorem C8_convert_original_iff_avif_absent cardNum lang st :
  let paths := getFilePaths cardNum lang in
  (forall issues st',
      validateCard cardNum lang st = (Ok issues, st') ->
      (In CONVERT_ORIGINAL (map step issues)
       <-> is_Some (files st !! originalWebp paths)
           /\ files st !! originalAvif paths = None)
      /\ (forall w h px,
             files st !! originalWebp paths = Some (Image w h px) ->
             w <> 734 \/ h <> 1024 ->
             files st !! originalAvif paths = None ->
             In RESIZE_ORIGINAL (map step issues)
             /\ In CONVERT_ORIGINAL (map step issues)))
  /\ (files st !! originalWebp paths = Some Corrupt ->
      exists e st', validateCard cardNum lang st = (Throw e, st'))
  /\ ((forall p, p ∈ examined cardNum lang -> files st !! p <> Some Corrupt) ->
      is_Some (byLanguage (stats st) !! lang) ->
      exists issues st', validateCard cardNum lang st = (Ok issues, st'))
  /\ (forall p,
         is_Some (files st !! originalWebp paths) ->
         p ∈ examined cardNum lang -> files st !! p = Some Corrupt ->
         exists e st', validateCard cardNum lang st = (Throw e, st')).
Proof.
  intros paths. split_and!; [| | | intros p; apply validateCard_throws].
  - intros issues st' Hv.
    destruct (files st !! originalWebp paths) as [[w h px|]|] eqn:Ho.
    + destruct (validateCard_inv _ _ _ _ _ Hv) as (fs & Hfs & -> & _).
      destruct (findings_existing _ _ _ _ _ _ _ Ho Hfs)
        as (ao & an & Hdec & Hao & Han).
      fold paths in Hdec, Hao, Han.
      assert (forall s, In s (map step (issuesOf fs)) ->
                s = RESIZE_ORIGINAL \/ s = CONVERT_ORIGINAL ->
                (s = RESIZE_ORIGINAL /\ (w <> 734 \/ h <> 1024))
                \/ (s = CONVERT_ORIGINAL /\ files st !! originalAvif paths = None))
        as Hboth.
      { intros s0 Hin Hs0. apply in_map_iff in Hin. destruct Hin as (i & <- & Hi).
        apply (in_issues_existing _ _ _ _ _ _ _ _ _ Hdec) in Hi.
        destruct Hi as [[-> H]|[[-> H]|[Hi|Hi]]]; [left; auto | right; auto | |].
        - exfalso. destruct (negb (skipVariants config) && isFirstLanguage lang).
          + destruct (artOnlyFindings_steps _ _ _ _ _ Hao Hi) as [E | E];
              rewrite E in Hs0; destruct Hs0; discriminate.
          + injection Hao as <-. destruct Hi.
        - exfalso. destruct (negb (skipVariants config)).
          + destruct (artAndNameFindings_steps _ _ _ _ _ _ Han Hi) as [E | E];
              rewrite E in Hs0; destruct Hs0; discriminate.
          + injection Han as <-. destruct Hi. }
      assert (forall i, (i = mkIssue RESIZE_ORIGINAL (originalWebp paths) lang
                         /\ (w <> 734 \/ h <> 1024))
                        \/ (i = mkIssue CONVERT_ORIGINAL (originalAvif paths) lang
                            /\ files st !! originalAvif paths = None) ->
                        In (step i) (map step (issuesOf fs))) as Hin.
      { intros i Hi. apply in_map.
        apply (in_issues_existing _ _ _ _ _ _ _ _ _ Hdec). tauto. }
      split.
      * split.
        -- intros H. destruct (Hboth _ H) as [[[=] _]|[_ Hn]]; [now right|].
           split; [eauto | exact Hn].
        -- intros [_ Hn].
           apply (Hin (mkIssue CONVERT_ORIGINAL (originalAvif paths) lang)). auto.
      * intros w' h' px' [= <- <- <-] Hwh Hn. split.
        -- apply (Hin (mkIssue RESIZE_ORIGINAL (originalWebp paths) lang)). auto.
        -- apply (Hin (mkIssue CONVERT_ORIGINAL (originalAvif paths) lang)). auto.
    + destruct (validateCard_inv _ _ _ _ _ Hv) as (fs & Hfs & _).
      unfold findings in Hfs. fold paths in Hfs. rewrite Ho in Hfs. discriminate.
    + rewrite (validateCard_missing_original _ _ _ _ _ Ho Hv). cbn. split.
      * split; [intros [[=]|[]] | intros [[? [=]] _]].
      * intros ? ? ? [=].
  - intros Ho. apply (validateCard_throws cardNum lang st (originalWebp paths)).
    + fold paths. rewrite Ho. eauto.
    + apply list_elem_of_In. unfold examined. fold paths. cbn. tauto.
    + exact Ho.
  - apply validateCard_total.
Qed.

Lemma artOnlyFindings_webp (disk : gmap string File) card paths vw vh vpx :
  disk !! artOnlyWebp paths = Some (Image vw vh vpx) ->
  artOnlyFindings disk card paths
  = Some ((if vh =? 1024
           then [(ArtOnlyUncropped card vh,
                  Some (mkIssue CROP_ART_ONLY (artOnlyWebp paths) "shared"))]
           else if Z.abs (vh - snd (getExpectedDimensions "art_only"))
                   >? tolerancePx config
                then [(ArtOnlyUnexpectedDimensions card vw vh, None)]
                else []) ++ artOnlyAvifFindings disk card paths).
Proof.
  intros E. unfold artOnlyFindings, artOnlyAvifFindings. rewrite E.
  destruct (vh =? 1024); [reflexivity|].
  destruct (Z.abs _ >? _); reflexivity.
Qed.

Lemma artAndNameFindings_webp (disk : gmap string File) card lang paths vw vh vpx :
  disk !! artAndNameWebp paths = Some (Image vw vh vpx) ->
  artAndNameFindings disk card lang paths
  = Some ((if vh =? 1024
           then [(ArtAndNameUncropped card lang vh,
                  Some (mkIssue CROP_ART_AND_NAME (artAndNameWebp paths) lang))]
           else if Z.abs (vh - snd (getExpectedDimensions "art_and_name"))
                   >? tolerancePx config
                then [(ArtAndNameUnexpectedDimensions card lang vw vh, None)]
                else []) ++ artAndNameAvifFindings disk card lang paths).
Proof.
  intros E. unfold artAndNameFindings, artAndNameAvifFindings. rewrite E.
  destruct (vh =? 1024); [reflexivity|].
  destruct (Z.abs _ >? _); reflexivity.
Qed.

(** C1 (amended).  Crop/resize discrimination: whenever a validation
    returns for a card whose Original WebP is on disk (the variants
    are examined only then) and variants are not skipped, an
    art_and_name WebP whose probed height is 1024 gets the
    CROP_ART_AND_NAME issue with its own path, and so does, for the
    first configured language, an art_only WebP with CROP_ART_ONLY;
    every RESIZE_ORIGINAL issue that a validation returns carries the
    path of the Original WebP.  With the Original WebP missing, a
    validation returns the DOWNLOAD issue alone, whatever the variants
    on disk are.  The validation returns when the Original and the
    variant WebPs it examines decode and the language has its
    counters; it throws, and returns no issue, when the Original
    exists and one of these files does not decode. *)
Theorem C1_uncropped_variant_gets_crop_issue :
  (forall cardNum lang st issues st',
      let paths := getFilePaths cardNum lang in
      validateCard cardNum lang st = (Ok issues, st') ->
      is_Some (files st !! originalWebp paths) ->
      skipVariants config = false ->
      (forall vw vpx,
          files st !! artAndNameWebp paths = Some (Image vw 1024 vpx) ->
          In (mkIssue CROP_ART_AND_NAME (artAndNameWebp paths) lang) issues)
      /\ (isFirstLanguage lang = true ->
          forall vw vpx,
            files st !! artOnlyWebp paths = Some (Image vw 1024 vpx) ->
            In (mkIssue CROP_ART_ONLY (artOnlyWebp paths) "shared") issues))
  /\ (forall cardNum lang st issues st' i,
         validateCard cardNum lang st = (Ok issues, st') ->
         In i issues -> step i = RESIZE_ORIGINAL ->
         path i = originalWebp (getFilePaths cardNum lang))
  /\ (forall cardNum lang st,
         let paths := getFilePaths cardNum lang in
         files st !! originalWebp paths = None ->
         (forall issues st',
             validateCard cardNum lang st = (Ok issues, st') ->
             issues = [mkIssue DOWNLOAD (originalWebp paths) lang])
         /\ (is_Some (byLanguage (stats st) !! lang) ->
             exists st',
               validateCard cardNum lang st
               = (Ok [mkIssue DOWNLOAD (originalWebp paths) lang], st')))
  /\ (forall cardNum lang st,
         (forall p, p ∈ examined cardNum lang -> files st !! p <> Some Corrupt) ->
         is_Some (byLanguage (stats st) !! lang) ->
         exists issues st', validateCard cardNum lang st = (Ok issues, st'))
  /\ (forall cardNum lang st p,
         is_Some (files st !! originalWebp (getFilePaths cardNum lang)) ->
         p ∈ examined cardNum lang -> files st !! p = Some Corrupt ->
         exists e st', validateCard cardNum lang st = (Throw e, st')).
Proof.
  split_and!.
  - intros cardNum lang st issues st' paths Hv [f Ho] Hskip.
    destruct (validateCard_inv _ _ _ _ _ Hv) as (fs & Hfs & -> & _).
    destruct f as [w h px|];
      [|unfold findings in Hfs; fold paths in Hfs; rewrite Ho in Hfs; discriminate].
    destruct (findings_existing _ _ _ _ _ _ _ Ho Hfs) as (ao & an & Hdec & Hao & Han).
    rewrite Hskip in Hao, Han. simpl in Hao, Han.
    split.
    + intros vw vpx Ev.
      apply (in_issues_existing _ _ _ _ _ _ _ _ _ Hdec). right. right. right.
      pose proof (artAndNameFindings_webp _ (getCardNumber cardNum) lang _ _ _ _ Ev)
        as E.
      fold paths in Han. rewrite E in Han. injection Han as <-.
      simpl. now left.
    + intros Hfirst vw vpx Ev.
      apply (in_issues_existing _ _ _ _ _ _ _ _ _ Hdec). right. right. left.
      rewrite Hfirst in Hao.
      pose proof (artOnlyFindings_webp _ (getCardNumber cardNum) _ _ _ _ Ev) as E.
      fold paths in Hao. rewrite E in Hao. injection Hao as <-.
      simpl. now left.
  - intros cardNum lang st issues st' i Hv Hi Hs.
    destruct (validateCard_inv _ _ _ _ _ Hv) as (fs & Hfs & -> & _).
    destruct (files st !! originalWebp (getFilePaths cardNum lang))
      as [[w h px|]|] eqn:Ho.
    + destruct (findings_existing _ _ _ _ _ _ _ Ho Hfs) as (ao & an & Hdec & Hao & Han).
      apply (in_issues_existing _ _ _ _ _ _ _ _ _ Hdec) in Hi.
      destruct Hi as [[-> H]|[[-> H]|[Hi|Hi]]]; try reflexivity; try discriminate.
      * destruct (negb (skipVariants config) && isFirstLanguage lang).
        -- destruct (artOnlyFindings_steps _ _ _ _ _ Hao Hi) as [-> | ->];
             discriminate.
        -- injection Hao as <-. destruct Hi.
      * destruct (negb (skipVariants config)).
        -- destruct (artAndNameFindings_steps _ _ _ _ _ _ Han Hi) as [-> | ->];
             discriminate.
        -- injection Han as <-. destruct Hi.
    + unfold findings in Hfs. rewrite Ho in Hfs. discriminate.
    + unfold findings in Hfs. rewrite Ho in Hfs. injection Hfs as <-.
      destruct Hi as [<-|[]]. reflexivity.
  - intros cardNum lang st paths Ho. split.
    + intros issues st'. now apply validateCard_missing_original.
    + intros Hl.
      assert (findings (files st) cardNum lang
              = Some [(MissingOriginalWebp (getCardNumber cardNum) lang,
                       Some (mkIssue DOWNLOAD (originalWebp paths) lang))]) as Hfs
        by (unfold findings; fold paths; now rewrite Ho).
      pose proof (validateCard_findings cardNum lang st) as H. unfold wp in H.
      destruct (validateCard cardNum lang st) as [[issues|e] st'] eqn:E;
        cbn [fst snd] in H.
      * exists st'. now rewrite (validateCard_missing_original _ _ _ _ _ Ho E).
      * destruct H as (_ & _ & _ & _ & _ & _ & _ & [H|H]); [congruence|].
        rewrite resolves_counters in H by exact Hl. discriminate.
  - intros cardNum lang st. apply validateCard_total.
  - intros cardNum lang st p. apply validateCard_throws.
Qed.

Lemma artOnlyFindings_messages disk card paths fs m :
  artOnlyFindings disk card paths = Some fs -> In m (map fst fs) ->
  m = MissingArtOnlyWebp card \/ m = MissingArtOnlyAvif card
  \/ (exists h, m = ArtOnlyUncropped card h)
  \/ (exists w h, m = ArtOnlyUnexpectedDimensions card w h).
Proof.
  unfold artOnlyFindings.
  destruct (disk !! artOnlyWebp paths) as [[w h px|]|];
    [destruct (h =? 1024); [|destruct (Z.abs _ >? _)]| |]; try discriminate;
    destruct (disk !! artOnlyAvif paths); intros [= <-]; simpl;
    intuition (subst; eauto).
Qed.

Lemma artAndNameFindings_messages disk card lang paths fs m :
  artAndNameFindings disk card lang paths = Some fs -> In m (map fst fs) ->
  m = MissingArtAndNameWebp card lang \/ m = MissingArtAndNameAvif card lang
  \/ (exists h, m = ArtAndNameUncropped card lang h)
  \/ (exists w h, m = ArtAndNameUnexpectedDimensions card lang w h).
Proof.
  unfold artAndNameFindings.
  destruct (disk !! artAndNameWebp paths) as [[w h px|]|];
    [destruct (h =? 1024); [|destruct (Z.abs _ >? _)]| |]; try discriminate;
    destruct (disk !! artAndNameAvif paths); intros [= <-]; simpl;
    intuition (subst; eauto).
Qed.

Lemma in_messages_existing (disk : gmap string File) cardNum lang w h fs ao an m :
  let paths := getFilePaths cardNum lang in
  let card := getCardNumber cardNum in
  fs = (if negb (w =? 734) || negb (h =? 1024)
        then [(OriginalWrongDimensions card lang w h,
               Some (mkIssue RESIZE_ORIGINAL (originalWebp paths) lang))]
        else [])
       ++ match disk !! originalAvif paths with
          | None => [(MissingOriginalAvif card lang,
                      Some (mkIssue CONVERT_ORIGINAL (originalAvif paths) lang))]
          | Some _ => []
          end
       ++ ao ++ an ->
  In m (map fst fs) <->
  (m = OriginalWrongDimensions card lang w h /\ (w <> 734 \/ h <> 1024))
  \/ (m = MissingOriginalAvif card lang /\ disk !! originalAvif paths = None)
  \/ In m (map fst ao) \/ In m (map fst an).
Proof.
  intros paths card ->. rewrite !map_app, !in_app_iff.
  assert (negb (w =? 734) || negb (h =? 1024) = true <-> (w <> 734 \/ h <> 1024)) as Hd.
  { rewrite orb_true_iff, !negb_true_iff, !Z.eqb_neq. tauto. }
  destruct (negb (w =? 734) || negb (h =? 1024));
    destruct (disk !! originalAvif paths); simpl;
    intuition (try congruence; eauto).
Qed.

(** C9 (amended).  Variant tolerance boundary: whenever a validation
    returns for a card whose Original WebP is on disk, with variants
    not skipped and a tolerance that is not negative, a variant it
    has examined whose height is not 1024 gets no Crop issue; a height
    of expected +- tolerancePx adds no warning, and a height of
    expected +- (tolerancePx + 1) is reported by an "unexpected
    dimensions" warning in the log and by no Issue.  The validation
    returns when the Original and the variant WebPs it examines decode
    and the language has its counters; it throws, and returns no
    issue, when one of these files does not decode. *)
Theorem C9_variant_beyond_tolerance_only_warns cardNum lang st :
  let paths := getFilePaths cardNum lang in
  let card := getCardNumber cardNum in
  let tol := tolerancePx config in
  is_Some (files st !! originalWebp paths) ->
  skipVariants config = false ->
  0 <= tol ->
  (forall issues st',
      validateCard cardNum lang st = (Ok issues, st') ->
      exists ws,
        warnings st' = warnings st ++ ws
        /\ (forall vw vh vpx,
               files st !! artAndNameWebp paths = Some (Image vw vh vpx) ->
               vh <> 1024 ->
               let expected := snd (getExpectedDimensions "art_and_name") in
               ~ In CROP_ART_AND_NAME (map step issues)
               /\ (vh = expected + tol \/ vh = expected - tol ->
                   ~ In (ArtAndNameUnexpectedDimensions card lang vw vh) ws)
               /\ (vh = expected + (tol + 1) \/ vh = expected - (tol + 1) ->
                   In (ArtAndNameUnexpectedDimensions card lang vw vh) ws))
        /\ (isFirstLanguage lang = true ->
            forall vw vh vpx,
              files st !! artOnlyWebp paths = Some (Image vw vh vpx) ->
              vh <> 1024 ->
              let expected := snd (getExpectedDimensions "art_only") in
              ~ In CROP_ART_ONLY (map step issues)
              /\ (vh = expected + tol \/ vh = expected - tol ->
                  ~ In (ArtOnlyUnexpectedDimensions card vw vh) ws)
              /\ (vh = expected + (tol + 1) \/ vh = expected - (tol + 1) ->
                  In (ArtOnlyUnexpectedDimensions card vw vh) ws)))
  /\ ((forall p, p ∈ examined cardNum lang -> files st !! p <> Some Corrupt) ->
      is_Some (byLanguage (stats st) !! lang) ->
      exists issues st', validateCard cardNum lang st = (Ok issues, st'))
  /\ (forall p,
         p ∈ examined cardNum lang -> files st !! p = Some Corrupt ->
         exists e st', validateCard cardNum lang st = (Throw e, st')).
Proof.
  intros paths card tol [f Ho] Hskip Htol.
  split_and!;
    [| apply validateCard_total
     | intros p; apply validateCard_throws; fold paths; rewrite Ho; eauto].
  intros issues st' Hv.
  destruct (validateCard_inv _ _ _ _ _ Hv) as (fs & Hfs & -> & _ & Hw).
  destruct f as [w h px|];
    [|unfold findings in Hfs; fold paths in Hfs; rewrite Ho in Hfs; discriminate].
  exists (map fst fs). split; [exact Hw|].
  destruct (findings_existing _ _ _ _ _ _ _ Ho Hfs) as (ao & an & Hdec & Hao & Han).
  fold paths card in Hdec, Hao, Han.
  rewrite Hskip in Hao, Han. simpl in Hao, Han.
  split.
  - intros vw vh vpx Ev Hvh expected.
    pose proof (artAndNameFindings_webp _ card lang _ _ _ _ Ev) as E.
    set (avif := artAndNameAvifFindings (files st) card lang paths) in *.
    rewrite E in Han. injection Han as Han.
    apply Z.eqb_neq in Hvh. rewrite Hvh in Han.
    assert (forall m, In m (map fst ao) ->
              forall a b, m <> ArtAndNameUnexpectedDimensions card lang a b) as Hao'.
    { intros m Hm a b. destruct (isFirstLanguage lang).
      - destruct (artOnlyFindings_messages _ _ _ _ _ Hao Hm)
          as [->|[->|[[? ->]|[? [? ->]]]]]; discriminate.
      - injection Hao as <-. destruct Hm. }
    assert (forall i, In i (issuesOf ao) -> step i <> CROP_ART_AND_NAME) as Hao''.
    { intros i Hi. destruct (isFirstLanguage lang).
      - destruct (artOnlyFindings_steps _ _ _ _ _ Hao Hi) as [-> | ->]; discriminate.
      - injection Hao as <-. destruct Hi. }
    assert (forall m, In m (map fst avif) ->
              forall a b, m <> ArtAndNameUnexpectedDimensions card lang a b) as Hav.
    { intros m Hm a b. subst avif. unfold artAndNameAvifFindings in Hm.
      destruct (files st !! artAndNameAvif paths); simpl in Hm.
      - destruct Hm.
      - destruct Hm as [<-|[]]. discriminate. }
    assert (forall i, In i (issuesOf avif) -> step i <> CROP_ART_AND_NAME) as Hav'.
    { intros i Hi. subst avif. unfold artAndNameAvifFindings in Hi.
      destruct (files st !! artAndNameAvif paths); simpl in Hi.
      - destruct Hi.
      - destruct Hi as [<-|[]]. discriminate. }
    split; [|split].
    + rewrite in_map_iff. intros (i & Hs & Hi).
      apply (in_issues_existing _ _ _ _ _ _ _ _ _ Hdec) in Hi.
      destruct Hi as [[-> _]|[[-> _]|[Hi|Hi]]]; try discriminate.
      * now apply (Hao'' i).
      * subst an. rewrite issuesOf_app, in_app_iff in Hi. destruct Hi as [Hi|Hi].
        -- destruct (Z.abs _ >? _); destruct Hi.
        -- now apply (Hav' i).
    + intros Hb Hin.
      apply (in_messages_existing _ _ _ _ _ _ _ _ _ Hdec) in Hin.
      destruct Hin as [[? _]|[[? _]|[Hin|Hin]]]; try discriminate.
      * now apply (Hao' _ Hin vw vh).
      * subst an. rewrite map_app, in_app_iff in Hin.
        assert ((Z.abs (vh - expected) >? tol) = false) as Hle
          by (rewrite Z.gtb_ltb; apply Z.ltb_ge; subst expected; lia).
        subst expected tol. cbn in Hle, Hin. rewrite Hle in Hin.
        destruct Hin as [[]|Hin]. now apply (Hav _ Hin vw vh).
    + intros Hb.
      apply (in_messages_existing _ _ _ _ _ _ _ _ _ Hdec). right. right. right.
      subst an. rewrite map_app, in_app_iff. left.
      assert ((Z.abs (vh - expected) >? tol) = true) as Hgt
        by (rewrite Z.gtb_ltb; apply Z.ltb_lt; subst expected; lia).
      subst expected tol. cbn in Hgt |- *. rewrite Hgt. now left.
  - intros Hfirst vw vh vpx Ev Hvh expected.
    rewrite Hfirst in Hao.
    pose proof (artOnlyFindings_webp _ card _ _ _ _ Ev) as E.
    set (avif := artOnlyAvifFindings (files st) card paths) in *.
    rewrite E in Hao. injection Hao as Hao.
    apply Z.eqb_neq in Hvh. rewrite Hvh in Hao.
    assert (forall m, In m (map fst an) ->
              forall a b, m <> ArtOnlyUnexpectedDimensions card a b) as Han'.
    { intros m Hm a b.
      destruct (artAndNameFindings_messages _ _ _ _ _ _ Han Hm)
        as [->|[->|[[? ->]|[? [? ->]]]]]; discriminate. }
    assert (forall i, In i (issuesOf an) -> step i <> CROP_ART_ONLY) as Han''.
    { intros i Hi.
      destruct (artAndNameFindings_steps _ _ _ _ _ _ Han Hi) as [-> | ->];
        discriminate. }
    assert (forall m, In m (map fst avif) ->
              forall a b, m <> ArtOnlyUnexpectedDimensions card a b) as Hav.
    { intros m Hm a b. subst avif. unfold artOnlyAvifFindings in Hm.
      destruct (files st !! artOnlyAvif paths); simpl in Hm.
      - destruct Hm.
      - destruct Hm as [<-|[]]. discriminate. }
    assert (forall i, In i (issuesOf avif) -> step i <> CROP_ART_ONLY) as Hav'.
    { intros i Hi. subst avif. unfold artOnlyAvifFindings in Hi.
      destruct (files st !! artOnlyAvif paths); simpl in Hi.
      - destruct Hi.
      - destruct Hi as [<-|[]]. discriminate. }
    split; [|split].
    + rewrite in_map_iff. intros (i & Hs & Hi).
      apply (in_issues_existing _ _ _ _ _ _ _ _ _ Hdec) in Hi.
      destruct Hi as [[-> _]|[[-> _]|[Hi|Hi]]]; try discriminate.
      * subst ao. rewrite issuesOf_app, in_app_iff in Hi. destruct Hi as [Hi|Hi].
        -- destruct (Z.abs _ >? _); destruct Hi.
        -- now apply (Hav' i).
      * now apply (Han'' i).
    + intros Hb Hin.
      apply (in_messages_existing _ _ _ _ _ _ _ _ _ Hdec) in Hin.
      destruct Hin as [[? _]|[[? _]|[Hin|Hin]]]; try discriminate.
      * subst ao. rewrite map_app, in_app_iff in Hin.
        assert ((Z.abs (vh - expected) >? tol) = false) as Hle
          by (rewrite Z.gtb_ltb; apply Z.ltb_ge; subst expected; lia).
        subst expected tol. cbn in Hle, Hin. rewrite Hle in Hin.
        destruct Hin as [[]|Hin]. now apply (Hav _ Hin vw vh).
      * now apply (Han' _ Hin vw vh).
    + intros Hb.
      apply (in_messages_existing _ _ _ _ _ _ _ _ _ Hdec). right. right. left.
      subst ao. rewrite map_app, in_app_iff. left.
      assert ((Z.abs (vh - expected) >? tol) = true) as Hgt
        by (rewrite Z.gtb_ltb; apply Z.ltb_lt; subst expected; lia).
      subst expected tol. cbn in Hgt |- *. rewrite Hgt. now left.
Qed.

(** Validation of a language that is not the first one never returns
    an art_only issue. *)
Lemma validateCard_no_artOnly cardNum lang st issues st' :
  isFirstLanguage lang = false ->
  validateCard cardNum lang st = (Ok issues, st') ->
  Forall (fun i => isArtOnlyStep (step i) = false) issues.
Proof.
  intros Hfirst Hv.
  destruct (validateCard_inv _ _ _ _ _ Hv) as (fs & Hfs & -> & _).
  apply Forall_forall. intros i Hi. apply list_elem_of_In in Hi.
  destruct (files st !! originalWebp (getFilePaths cardNum lang))
    as [[w h px|]|] eqn:Ho.
  - destruct (findings_existing _ _ _ _ _ _ _ Ho Hfs) as (ao & an & Hdec & Hao & Han).
    rewrite Hfirst, andb_false_r in Hao. injection Hao as <-.
    apply (in_issues_existing _ _ _ _ _ _ _ _ _ Hdec) in Hi.
    destruct Hi as [[-> _]|[[-> _]|[[]|Hi]]]; try reflexivity.
    destruct (negb (skipVariants config)).
    + destruct (artAndNameFindings_steps _ _ _ _ _ _ Han Hi) as [-> | ->];
        reflexivity.
    + injection Han as <-. destruct Hi.
  - unfold findings in Hfs. rewrite Ho in Hfs. discriminate.
  - unfold findings in Hfs. rewrite Ho in Hfs. injection Hfs as <-.
    destruct Hi as [<-|[]]. reflexivity.
Qed.

(** ** Fix operations: what they may touch *)

Ltac sublist :=
  let x := fresh "x" in let Hx := fresh "Hx" in
  intros x Hx; apply list_elem_of_In in Hx; simpl in Hx;
  repeat (destruct Hx as [<-|Hx]; [assumption|]); destruct Hx.

Lemma agreeOutside_refl l disk : agreeOutside l disk disk.
Proof. now intros p _. Qed.

Lemma agreeOutside_trans l disk disk' disk'' :
  agreeOutside l disk disk' -> agreeOutside l disk' disk'' ->
  agreeOutside l disk disk''.
Proof. intros H H' p Hp. now rewrite H', H. Qed.

Lemma agreeOutside_weaken l l' disk disk' :
  l ⊆ l' -> agreeOutside l disk disk' -> agreeOutside l' disk disk'.
Proof. intros Hl H p Hp. apply H. intros Hin. apply Hp, Hl, Hin. Qed.

Lemma agreeOutside_insert l p f disk :
  p ∈ l -> agreeOutside l disk (<[p := f]> disk).
Proof.
  intros Hp q Hq. apply lookup_insert_ne. intros ->. contradiction.
Qed.

Lemma agreeOutside_delete l p disk :
  p ∈ l -> agreeOutside l disk (delete p disk).
Proof.
  intros Hp q Hq. apply lookup_delete_ne. intros ->. contradiction.
Qed.

Lemma confined_weaken {A} l l' (m : M A) :
  l ⊆ l' -> confined l m -> confined l' m.
Proof.
  intros Hl H st. eapply wp_mono; [apply H|].
  intros r st' (Hs & Hj & Hf). eauto using agreeOutside_weaken.
Qed.

Lemma confined_ret {A} l (a : A) : confined l (ret a).
Proof. intros st. unfold wp. simpl. auto using agreeOutside_refl. Qed.

Lemma confined_throw {A} l e : confined l (@throw A e).
Proof. intros st. unfold wp. simpl. auto using agreeOutside_refl. Qed.

Lemma confined_bind {A B} l (m : M A) (k : A -> M B) :
  confined l m -> (forall a, confined l (k a)) -> confined l (bind m k).
Proof.
  intros Hm Hk st. apply wp_bind. eapply wp_mono; [apply Hm|].
  intros [a|e] st' (Hs & Hj & Hf); [|auto].
  eapply wp_mono; [apply Hk|].
  intros r st'' (Hs' & Hj' & Hf').
  split_and!; try congruence. eauto using agreeOutside_trans.
Qed.

Lemma confined_try_catch {A} l (m : M A) (h : Error -> M A) :
  confined l m -> (forall e, confined l (h e)) -> confined l (try_catch m h).
Proof.
  intros Hm Hh st. apply wp_try_catch. eapply wp_mono; [apply Hm|].
  intros [a|e] st' (Hs & Hj & Hf); [auto|].
  eapply wp_mono; [apply Hh|].
  intros r st'' (Hs' & Hj' & Hf').
  split_and!; try congruence. eauto using agreeOutside_trans.
Qed.

Lemma confined_forEach {A} l (f : A -> M unit) (xs : list A) :
  (forall x, x ∈ xs -> confined l (f x)) -> confined l (forEach f xs).
Proof.
  intros Hf. induction xs as [|x xs IH]; simpl.
  - apply confined_ret.
  - apply confined_bind; [apply Hf; left|].
    intros _. apply IH. intros y Hy. apply Hf. now right.
Qed.

Lemma confined_log l m t :
  executedEntry (t, m) = None -> confined l (log m t).
Proof.
  intros H st. unfold wp. simpl. rewrite executed_app.
  unfold executed at 2. simpl. rewrite H. simpl. rewrite app_nil_r.
  auto using agreeOutside_refl.
Qed.

Lemma confined_existsSync l p : confined l (existsSync p).
Proof. intros st. unfold wp. simpl. auto using agreeOutside_refl. Qed.

Lemma confined_tick l : confined l tick.
Proof. intros st. unfold wp. simpl. auto using agreeOutside_refl. Qed.

Lemma confined_sharp l p : confined l (sharp p).
Proof.
  intros st. unfold wp, sharp.
  destruct (files st !! p) as [[w h px|]|]; simpl; auto using agreeOutside_refl.
Qed.

Lemma confined_metadata l p : confined l (metadata p).
Proof.
  apply confined_bind; [apply confined_sharp|].
  intros [[w h] px]. apply confined_ret.
Qed.

Lemma confined_insert l p f : p ∈ l -> confined l (modify_files (insert p f)).
Proof.
  intros Hp st. unfold wp. simpl. auto using agreeOutside_insert.
Qed.

Lemma confined_unlinkSync l p : p ∈ l -> confined l (unlinkSync p).
Proof.
  intros Hp st. unfold wp, unlinkSync.
  destruct (files st !! p); simpl; auto using agreeOutside_refl, agreeOutside_delete.
Qed.

Lemma confined_copyFileSync l src dest : dest ∈ l -> confined l (copyFileSync src dest).
Proof.
  intros Hp st. unfold wp, copyFileSync.
  destruct (files st !! src); simpl; auto using agreeOutside_refl, agreeOutside_insert.
Qed.

Lemma confined_renameSync l a b : a ∈ l -> b ∈ l -> confined l (renameSync a b).
Proof.
  intros Ha Hb st. unfold wp, renameSync.
  destruct (files st !! a); simpl; [|auto using agreeOutside_refl].
  destruct (decide (a = b)); simpl; split_and!; auto using agreeOutside_refl.
  eapply agreeOutside_trans; [apply agreeOutside_delete, Ha|].
  now apply agreeOutside_insert.
Qed.

Lemma confined_toFile l out ideal : out ∈ l -> confined l (toFile out ideal).
Proof.
  intros Hp. unfold toFile. apply confined_bind; [apply confined_tick|].
  intros t. destruct (codec world t) as [|f|[f|]].
  - now apply confined_insert.
  - now apply confined_insert.
  - apply confined_bind; [now apply confined_insert|]. intros _. apply confined_throw.
  - apply confined_throw.
Qed.

Lemma confined_cleanUp l files_ : files_ ⊆ l -> confined l (cleanUp files_).
Proof.
  intros Hl. apply confined_forEach. intros x Hx.
  apply confined_bind; [apply confined_existsSync|].
  intros [|]; [|apply confined_ret].
  apply confined_unlinkSync, Hl, Hx.
Qed.

Lemma confined_if {A} l (b : bool) (m m' : M A) :
  confined l m -> confined l m' -> confined l (if b then m else m').
Proof. now destruct b. Qed.

Lemma confined_resize_toFile l input out w h :
  out ∈ l -> confined l (resize_toFile input out w h).
Proof.
  intros Hp. apply confined_bind; [apply confined_sharp|].
  intros [[? ?] px]. now apply confined_toFile.
Qed.

Lemma confined_avif_toFile l input out :
  out ∈ l -> confined l (avif_toFile input out).
Proof.
  intros Hp. apply confined_bind; [apply confined_sharp|].
  intros [[? ?] px]. now apply confined_toFile.
Qed.

Lemma confined_extract_toFile l input out left top width height :
  out ∈ l -> confined l (extract_toFile input out left top width height).
Proof.
  intros Hp. apply confined_bind; [apply confined_sharp|].
  intros [[? ?] px]. apply confined_if; [now apply confined_toFile|apply confined_throw].
Qed.

Lemma confined_joinImages l a b : confined l (joinImages a b).
Proof.
  apply confined_bind; [apply confined_sharp|]. intros [[? ?] ?].
  apply confined_bind; [apply confined_sharp|]. intros [[? ?] ?].
  apply confined_ret.
Qed.

Lemma confined_downloadImage l cardNum lang :
  downloadDestination cardNum lang ∈ l ->
  confined l (downloadImage cardNum lang (edition config)).
Proof.
  intros Hp. unfold downloadImage.
  apply confined_bind; [now apply confined_log|]. intros _.
  apply confined_bind; [apply confined_tick|]. intros t.
  destruct (http world t _).
  - apply confined_bind; [now apply confined_insert|]. intros _.
    apply confined_bind; [now apply confined_log|]. intros _. apply confined_ret.
  - apply confined_bind; [now apply confined_log|]. intros _. apply confined_throw.
Qed.

Lemma confined_resizeImage l filePath dims :
  filePath ∈ l -> JS.replaceExt filePath ∈ l -> confined l (resizeImage filePath dims).
Proof.
  intros Hp Ht. unfold resizeImage.
  apply confined_bind; [now apply confined_log|]. intros _.
  apply confined_bind; [now apply confined_copyFileSync|]. intros _.
  apply confined_bind; [now apply confined_resize_toFile|]. intros _.
  apply confined_bind; [now apply confined_unlinkSync|]. intros _.
  now apply confined_log.
Qed.

Lemma confined_convertToAvif l webpPath avifPath :
  avifPath ∈ l -> confined l (convertToAvif webpPath avifPath).
Proof.
  intros Hp. unfold convertToAvif.
  apply confined_bind; [now apply confined_log|]. intros _.
  apply confined_bind; [now apply confined_avif_toFile|]. intros _.
  now apply confined_log.
Qed.

Lemma confined_cropImage l src dest artOnly card :
  cropFiles dest ⊆ l -> confined l (cropImage src dest artOnly card).
Proof.
  intros Hl. unfold cropImage.
  assert (dest ∈ l) as Hd by (apply Hl; unfold cropFiles; set_solver).
  assert (tempDestinationOf dest ∈ l) as Htmp by (apply Hl; unfold cropFiles; set_solver).
  assert (topFileOf dest ∈ l) as Htop by (apply Hl; unfold cropFiles; set_solver).
  assert (bottomFileOf dest ∈ l) as Hbot by (apply Hl; unfold cropFiles; set_solver).
  apply confined_bind; [now apply confined_log|]. intros _.
  apply confined_try_catch.
  - apply confined_bind; [apply confined_metadata|]. intros [w h].
    apply confined_bind; [apply confined_if; [apply confined_throw|apply confined_ret]|].
    intros _.
    apply confined_bind; [now apply confined_extract_toFile|]. intros _.
    apply confined_bind; [now apply confined_extract_toFile|]. intros _.
    apply confined_bind; [apply confined_joinImages|]. intros joined.
    apply confined_bind; [now apply confined_toFile|]. intros _.
    apply confined_bind; [apply confined_metadata|]. intros [rw rh].
    apply confined_bind; [apply confined_if; [apply confined_throw|apply confined_ret]|].
    intros _.
    apply confined_bind; [now apply confined_renameSync|]. intros _.
    apply confined_bind; [now apply confined_log|]. intros _.
    apply confined_bind; [apply confined_cleanUp; sublist|]. intros _.
    apply confined_ret.
  - intros e. apply confined_bind; [apply confined_cleanUp; sublist|].
    intros _. apply confined_throw.
Qed.

Lemma elem_of_here {A} (x : A) l : x ∈ x :: l.
Proof. left. Qed.

Lemma confined_fix_operation (s : PipelineStep) cardNum lang :
  confined (writeSet s cardNum lang) (fixOperation s cardNum lang).
Proof.
  unfold fixOperation. set (paths := getFilePaths cardNum lang).
  destruct s; unfold writeSet; fold paths.
  - apply confined_bind; [apply confined_downloadImage, elem_of_here|].
    intros _. apply confined_ret.
  - apply confined_bind; [apply confined_resizeImage; set_solver|]. intros _.
    apply confined_bind; [apply confined_existsSync|]. intros [|].
    + apply confined_resizeImage; set_solver.
    + apply confined_ret.
  - apply confined_convertToAvif, elem_of_here.
  - apply confined_bind; [now apply confined_cropImage|]. intros _. apply confined_ret.
  - apply confined_convertToAvif, elem_of_here.
  - apply confined_bind; [now apply confined_cropImage|]. intros _. apply confined_ret.
  - apply confined_convertToAvif, elem_of_here.
Qed.

Lemma byLanguage_incr_guarded_spec f lang st :
  exists st',
    byLanguage_incr_guarded f lang st = (Ok tt, st')
    /\ files st' = files st /\ journal st' = journal st /\ clock st' = clock st
    /\ checked (stats st') = checked (stats st)
    /\ recovered (stats st') = recovered (stats st)
    /\ failed (stats st') = failed (stats st)
    /\ (forall x, is_Some (byLanguage (stats st') !! x)
                  <-> is_Some (byLanguage (stats st) !! x)).
Proof.
  unfold byLanguage_incr_guarded.
  destruct lang as [|c lang]; [exists st; split_and!; auto|].
  destruct (byLanguage (stats st) !! String c lang) as [l|] eqn:E;
    [|exists st; split_and!; auto].
  eexists. split; [reflexivity|]. simpl. split_and!; auto.
  intros x. destruct (decide (String c lang = x)) as [<-|Hne].
  - rewrite lookup_insert_eq, E. split; eauto.
  - now rewrite lookup_insert_ne.
Qed.

(** [fixIssue] never throws.  It records its step once, counts one
    recovery or one failure, and writes only the files of its step. *)
Lemma fixIssue_spec issue cardNum lang st :
  wp (fixIssue issue cardNum lang)
     (fun r st' =>
        exists b, r = Ok b
          /\ agreeOutside (writeSet (step issue) cardNum lang) (files st) (files st')
          /\ executed (journal st') = executed (journal st) ++ [(lang, step issue, b)]
          /\ checked (stats st') = checked (stats st)
          /\ (forall x, is_Some (byLanguage (stats st') !! x)
                        <-> is_Some (byLanguage (stats st) !! x))
          /\ recovered (stats st') = ((if b then 1 else 0) + recovered (stats st))%nat
          /\ failed (stats st') = ((if b then 0 else 1) + failed (stats st))%nat) st.
Proof.
  unfold fixIssue. apply wp_try_catch. apply wp_bind.
  eapply wp_mono; [apply confined_fix_operation|].
  intros [[]|e] st1 (Hs & Hj & Hf).
  - wp_step. run_prim. wp_step.
    destruct (byLanguage_incr_guarded_spec l_incr_recovered lang
                (set_stats incr_recovered st1))
      as (st2 & E & Hf2 & Hj2 & Hc2 & Hch & Hre & Hfa & Hdom).
    eapply wp_eq; [exact E|]. wp_step. run_prim. run_prim.
    exists true. simpl in *. rewrite Hs in *.
    split_and!; auto; try congruence.
    + rewrite Hf2. exact Hf.
    + rewrite executed_app, Hj2, Hj. reflexivity.
  - wp_step. run_prim. wp_step.
    destruct (byLanguage_incr_guarded_spec l_incr_failed lang
                (set_stats incr_failed st1))
      as (st2 & E & Hf2 & Hj2 & Hc2 & Hch & Hre & Hfa & Hdom).
    eapply wp_eq; [exact E|]. wp_step. run_prim. run_prim.
    exists false. simpl in *. rewrite Hs in *.
    split_and!; auto; try congruence.
    + rewrite Hf2. exact Hf.
    + rewrite executed_app, Hj2, Hj. reflexivity.
Qed.

(** ** cropImage *)

Lemma cleanUp_spec l st :
  exists st',
    cleanUp l st = (Ok tt, st')
    /\ stats st' = stats st /\ journal st' = journal st /\ clock st' = clock st
    /\ (forall q, files st' !! q = if decide (q ∈ l) then None else files st !! q).
Proof.
  revert st. induction l as [|p l IH]; intros st.
  - exists st. split_and!; auto.
  - unfold cleanUp in *. cbn [forEach]. unfold bind at 1. unfold bind at 1.
    unfold existsSync at 1. cbn beta iota.
    destruct (files st !! p) as [f|] eqn:Ep.
    + unfold unlinkSync. rewrite Ep.
      destruct (IH (set_files (delete p) st)) as (st' & E & Hs & Hj & Hc & Hf).
      exists st'. split; [exact E|]. split_and!; auto.
      intros q. rewrite Hf. cbn [files set_files].
      destruct (decide (q = p)) as [->|Hne].
      * rewrite lookup_delete_eq. rewrite (decide_True (P := p ∈ p :: l)) by left.
        now destruct (decide (p ∈ l)).
      * rewrite lookup_delete_ne by auto.
        destruct (decide (q ∈ l)).
        -- rewrite decide_True; [auto | now right].
        -- rewrite decide_False; [auto|]. intros [?|?]%elem_of_cons; auto.
    + cbn [ret]. destruct (IH st) as (st' & E & Hs & Hj & Hc & Hf).
      exists st'. split; [exact E|]. split_and!; auto.
      intros q. rewrite Hf.
      destruct (decide (q = p)) as [->|Hne].
      * rewrite (decide_True (P := p ∈ p :: l)) by left.
        now destruct (decide (p ∈ l)).
      * destruct (decide (q ∈ l)).
        -- rewrite decide_True; [auto | now right].
        -- rewrite decide_False; [auto|]. intros [?|?]%elem_of_cons; auto.
Qed.

Lemma wp_confined {A} touched (m : M A) Q st :
  confined touched m ->
  (forall r st', m st = (r, st') ->
                 stats st' = stats st ->
                 executed (journal st') = executed (journal st) ->
                 agreeOutside touched (files st) (files st') -> Q r st') ->
  wp m Q st.
Proof.
  intros Hc HQ. specialize (Hc st). unfold wp in *.
  destruct (m st) as [r st'] eqn:E. cbn [fst snd] in *.
  destruct Hc as (Hs & Hj & Hf). now apply HQ.
Qed.

Lemma metadata_inv file st w h st' :
  metadata file st = (Ok (w, h), st') ->
  st' = st /\ exists px, files st !! file = Some (Image w h px).
Proof.
  unfold metadata, sharp, bind.
  destruct (files st !! file) as [[w0 h0 px|]|]; simpl; try discriminate.
  intros [= <- <- <-]. eauto.
Qed.

Lemma temps_sub dest :
  [tempDestinationOf dest; topFileOf dest; bottomFileOf dest] ⊆ cropFiles dest.
Proof. intros x Hx. unfold cropFiles. now right. Qed.

(** What [cropImage] guarantees whatever the codec does: the three
    temporary files are gone at the end; on success the source was
    734x1024 and the destination holds an image of the verified size;
    on failure the destination is as it was. *)
Lemma cropImage_spec src dest artOnly card st :
  tempDestinationOf dest <> dest ->
  topFileOf dest <> dest ->
  bottomFileOf dest <> dest ->
  wp (cropImage src dest artOnly card)
     (fun r st' =>
        files st' !! tempDestinationOf dest = None
        /\ files st' !! topFileOf dest = None
        /\ files st' !! bottomFileOf dest = None
        /\ match r with
           | Ok b =>
               b = true
               /\ (exists px, files st !! src = Some (Image 734 1024 px))
               /\ (exists px', files st' !! dest
                               = Some (Image 734 (croppedHeight artOnly) px'))
           | Throw e => files st' !! dest = files st !! dest
           end) st.
Proof.
  intros Htmp Htop Hbot.
  set (temps := [tempDestinationOf dest; topFileOf dest; bottomFileOf dest]).
  assert (dest ∉ temps) as Hdest.
  { subst temps. intros H. apply list_elem_of_In in H. simpl in H.
    intuition congruence. }
  set (Q := fun (r : Result bool) (st' : State) => _).
  (* The handler restores the invariant from any state that agrees
     with the initial one outside the temporary files. *)
  assert (forall e st1, agreeOutside temps (files st) (files st1) ->
            wp (do _ <- cleanUp temps; throw e) Q st1) as Hhandler.
  { intros e st1 Hagree. wp_step.
    destruct (cleanUp_spec temps st1) as (st2 & E & _ & _ & _ & Hf).
    eapply wp_eq; [exact E|]. run_prim. subst Q. cbv beta.
    rewrite !Hf. subst temps.
    rewrite !decide_True by (apply list_elem_of_In; simpl; tauto).
    split_and!; auto.
    rewrite decide_False by exact Hdest. exact (Hagree dest Hdest). }
  unfold cropImage. wp_step. run_prim.
  set (st0 := mkState _ _ _ _).
  assert (agreeOutside temps (files st) (files st0)) as H0 by apply agreeOutside_refl.
  apply wp_try_catch.
  (* source metadata *)
  wp_step. apply (wp_confined temps); [apply confined_metadata|].
  intros [[w h]|e] st1 E1 _ _ Ha1;
    [|apply Hhandler; eauto using agreeOutside_trans].
  apply metadata_inv in E1. destruct E1 as [-> [px Hsrc]].
  cbn [files] in Hsrc.
  wp_step.
  destruct (negb (w =? 734) || negb (h =? 1024)) eqn:Edim.
  { run_prim. apply Hhandler, H0. }
  apply orb_false_iff in Edim. destruct Edim as [Ew Eh].
  apply negb_false_iff, Z.eqb_eq in Ew, Eh. subst w h.
  run_prim.
  (* the two bands *)
  wp_step. apply (wp_confined temps);
    [apply confined_extract_toFile; subst temps; apply list_elem_of_In; simpl; tauto|].
  intros [[]|e] st2 _ _ _ Ha2;
    [|apply Hhandler; eauto using agreeOutside_trans].
  wp_step. apply (wp_confined temps);
    [apply confined_extract_toFile; subst temps; apply list_elem_of_In; simpl; tauto|].
  intros [[]|e] st3 _ _ _ Ha3;
    [|apply Hhandler; eauto using agreeOutside_trans].
  (* join and write the temporary destination *)
  wp_step. apply (wp_confined temps); [apply confined_joinImages|].
  intros [joined|e] st4 _ _ _ Ha4;
    [|apply Hhandler; eauto using agreeOutside_trans].
  wp_step. apply (wp_confined temps);
    [apply confined_toFile; subst temps; apply list_elem_of_In; simpl; tauto|].
  intros [[]|e] st5 _ _ _ Ha5;
    [|apply Hhandler; eauto 6 using agreeOutside_trans].
  assert (agreeOutside temps (files st) (files st5)) as H5
    by eauto 6 using agreeOutside_trans.
  (* verify *)
  wp_step. apply (wp_confined temps); [apply confined_metadata|].
  intros [[rw rh]|e] st6 E6 _ _ _; [|apply Hhandler].
  2: { unfold metadata, sharp, bind in E6.
       destruct (files st5 !! tempDestinationOf dest) as [[]|]; simpl in E6;
         injection E6 as _ <-; exact H5. }
  apply metadata_inv in E6. destruct E6 as [-> [px' Htemp]].
  wp_step.
  destruct (negb (rw =? 734) || negb (rh =? _)) eqn:Eres.
  { run_prim. apply Hhandler, H5. }
  apply orb_false_iff in Eres. destruct Eres as [Erw Erh].
  apply negb_false_iff, Z.eqb_eq in Erw, Erh. subst rw.
  run_prim.
  (* move into place *)
  wp_step. unfold wp at 1, renameSync. rewrite Htemp.
  rewrite decide_False by exact Htmp. cbn [fst snd].
  wp_step. run_prim. wp_step.
  match goal with |- wp (cleanUp ?l) _ ?s =>
    destruct (cleanUp_spec l s) as (st7 & E7 & _ & _ & _ & Hf7) end.
  eapply wp_eq; [exact E7|]. run_prim. subst Q. cbv beta.
  rewrite !Hf7. cbn [files set_files].
  rewrite (decide_True (P := topFileOf dest ∈ _)) by (apply list_elem_of_In; simpl; tauto).
  rewrite (decide_True (P := bottomFileOf dest ∈ _))
    by (apply list_elem_of_In; simpl; tauto).
  assert (dest ∉ [topFileOf dest; bottomFileOf dest]) as Hd2.
  { intros H. apply list_elem_of_In in H. simpl in H. intuition congruence. }
  rewrite (decide_False (P := dest ∈ _)) by exact Hd2.
  rewrite lookup_insert_eq.
  split.
  { destruct (decide (tempDestinationOf dest ∈ _)); [reflexivity|].
    rewrite lookup_insert_ne by auto. apply lookup_delete_eq. }
  split_and!; eauto.
  exists px'. unfold croppedHeight. now rewrite Erh.
Qed.

Lemma replace_webp_length rep pre :
  String.length (JS.replace ".webp" rep (pre +:+ ".webp"))
  = (String.length pre + String.length rep)%nat.
Proof.
  pose proof (length_replace ".webp" rep pre "") as L.
  change (".webp" +:+ "") with ".webp" in L. rewrite L. simpl. lia.
Qed.

(** The crop destinations end in ".webp", so their temporary files
    are four different paths. *)
Lemma crop_paths_distinct pre :
  let dest := pre +:+ ".webp" in
  NoDup [dest; tempDestinationOf dest; topFileOf dest; bottomFileOf dest].
Proof.
  intros dest.
  assert (forall a b : string, String.length a <> String.length b -> a <> b) as Hlen
    by (intros a b H ->; congruence).
  assert (String.length dest = (String.length pre + 5)%nat) as Ld
    by (subst dest; now rewrite length_append).
  assert (String.length (tempDestinationOf dest) = (String.length pre + 15)%nat) as Lt
    by apply replace_webp_length.
  assert (String.length (topFileOf dest) = (String.length pre + 9)%nat) as Lp
    by apply replace_webp_length.
  assert (String.length (bottomFileOf dest) = (String.length pre + 12)%nat) as Lb
    by apply replace_webp_length.
  repeat constructor; rewrite ?not_elem_of_cons; split_and?;
    try apply not_elem_of_nil; apply Hlen; lia.
Qed.

Lemma artOnlyWebp_ends cardNum lang :
  exists pre, artOnlyWebp (getFilePaths cardNum lang) = pre +:+ ".webp".
Proof.
  eexists. unfold getFilePaths. cbn [artOnlyWebp].
  rewrite <- !append_assoc. reflexivity.
Qed.

Lemma artAndNameWebp_ends cardNum lang :
  exists pre, artAndNameWebp (getFilePaths cardNum lang) = pre +:+ ".webp".
Proof.
  eexists. unfold getFilePaths. cbn [artAndNameWebp].
  rewrite <- !append_assoc. reflexivity.
Qed.

Lemma cropDestination_distinct artOnly cardNum lang :
  NoDup (cropFiles (cropDestination artOnly cardNum lang)).
Proof.
  unfold cropDestination, cropFiles. destruct artOnly.
  - destruct (artOnlyWebp_ends cardNum lang) as [pre ->]. apply crop_paths_distinct.
  - destruct (artAndNameWebp_ends cardNum lang) as [pre ->]. apply crop_paths_distinct.
Qed.

Lemma cropDestination_neq artOnly cardNum lang :
  let dest := cropDestination artOnly cardNum lang in
  tempDestinationOf dest <> dest /\ topFileOf dest <> dest /\ bottomFileOf dest <> dest
  /\ topFileOf dest <> bottomFileOf dest.
Proof.
  intros dest. pose proof (cropDestination_distinct artOnly cardNum lang) as H.
  fold dest in H. unfold cropFiles in H.
  apply NoDup_cons in H. destruct H as [H1 H].
  apply NoDup_cons in H. destruct H as [H2 H].
  apply NoDup_cons in H. destruct H as [H3 H].
  rewrite !not_elem_of_cons in *. intuition congruence.
Qed.

(** A crop fix: the outcome of [cropImage] seen through [fixIssue]. *)
Lemma fixIssue_crop_spec artOnly issue cardNum lang st :
  let dest := cropDestination artOnly cardNum lang in
  step issue = cropStep artOnly ->
  wp (fixIssue issue cardNum lang)
     (fun r st' =>
        files st' !! tempDestinationOf dest = None
        /\ files st' !! topFileOf dest = None
        /\ files st' !! bottomFileOf dest = None
        /\ ((r = Ok true
             /\ (exists px, files st !! originalWebp (getFilePaths cardNum lang)
                            = Some (Image 734 1024 px))
             /\ (exists px', files st' !! dest
                             = Some (Image 734 (croppedHeight artOnly) px')))
            \/ (r = Ok false /\ files st' !! dest = files st !! dest))) st.
Proof.
  intros dest Hstep.
  destruct (cropDestination_neq artOnly cardNum lang) as (Htmp & Htop & Hbot & _).
  fold dest in Htmp, Htop, Hbot.
  assert (wp (do _ <- cropImage (originalWebp (getFilePaths cardNum lang)) dest artOnly
                       (getCardNumber cardNum); ret tt)
            (fun r st' =>
               files st' !! tempDestinationOf dest = None
               /\ files st' !! topFileOf dest = None
               /\ files st' !! bottomFileOf dest = None
               /\ match r with
                  | Ok _ =>
                      (exists px, files st !! originalWebp (getFilePaths cardNum lang)
                                  = Some (Image 734 1024 px))
                      /\ (exists px', files st' !! dest
                                      = Some (Image 734 (croppedHeight artOnly) px'))
                  | Throw e => files st' !! dest = files st !! dest
                  end) st) as Hcrop.
  { wp_step. eapply wp_mono; [now apply cropImage_spec|].
    intros [b|e] st1 (H1 & H2 & H3 & H4); [|auto].
    run_prim. destruct H4 as (_ & H4 & H5). auto. }
  unfold fixIssue. apply wp_try_catch. wp_step.
  eapply wp_mono.
  { unfold cropStep, cropDestination in *. rewrite Hstep.
    destruct artOnly; exact Hcrop. }
  intros [[]|e] st1 (H1 & H2 & H3 & H4).
  - wp_step. run_prim. wp_step.
    match goal with |- wp (byLanguage_incr_guarded ?f ?l) _ ?s =>
      destruct (byLanguage_incr_guarded_spec f l s) as (st2 & E & Hf2 & _) end.
    eapply wp_eq; [exact E|]. wp_step. run_prim. run_prim.
    rewrite !Hf2. cbn [files set_stats]. split_and!; auto.
  - wp_step. run_prim. wp_step.
    match goal with |- wp (byLanguage_incr_guarded ?f ?l) _ ?s =>
      destruct (byLanguage_incr_guarded_spec f l s) as (st2 & E & Hf2 & _) end.
    eapply wp_eq; [exact E|]. wp_step. run_prim. run_prim.
    rewrite !Hf2. cbn [files set_stats]. split_and!; auto.
Qed.

(** ** Claims about cropping *)

(** C10.  Crop source precondition: when the Original on disk is a
    decodable image whose dimensions are not exactly 734x1024, a
    CROP_ART_ONLY or CROP_ART_AND_NAME fix returns false, is counted
    as one failure and no recovery, creates no file (every file
    present afterwards was there before with the same content) and
    leaves the destination as it was.  The dimensions may be as close
    to 734x1024 as one pixel. *)
Theorem C10_crop_refuses_inexact_source artOnly cardNum lang path_ lang_ st w h px :
  let dest := cropDestination artOnly cardNum lang in
  files st !! originalWebp (getFilePaths cardNum lang) = Some (Image w h px) ->
  w <> 734 \/ h <> 1024 ->
  exists st',
    fixIssue (mkIssue (cropStep artOnly) path_ lang_) cardNum lang st = (Ok false, st')
    /\ failed (stats st') = S (failed (stats st))
    /\ recovered (stats st') = recovered (stats st)
    /\ files st' !! dest = files st !! dest
    /\ (forall p f, files st' !! p = Some f -> files st !! p = Some f).
Proof.
  intros dest Hsrc Hdim.
  pose proof (fixIssue_crop_spec artOnly (mkIssue (cropStep artOnly) path_ lang_)
                cardNum lang st eq_refl) as H.
  pose proof (fixIssue_spec (mkIssue (cropStep artOnly) path_ lang_)
                cardNum lang st) as Hc.
  unfold wp in H, Hc.
  destruct (fixIssue _ cardNum lang st) as [r st']. cbn [fst snd] in *.
  fold dest in H. destruct H as (H1 & H2 & H3 & H4).
  destruct Hc as (b & -> & Hagree & _ & _ & _ & Hre & Hfa).
  destruct H4 as [(_ & [px0 Hpx] & _)|([= ->] & H4)].
  { rewrite Hsrc in Hpx. injection Hpx as -> -> _. lia. }
  exists st'. split_and!; auto.
  intros p f Hp.
  destruct (decide (p ∈ cropFiles dest)) as [Hin|Hout].
  - unfold cropFiles in Hin. apply list_elem_of_In in Hin. simpl in Hin.
    destruct Hin as [<-|[<-|[<-|[<-|[]]]]]; congruence.
  - rewrite <- Hp. symmetry. apply Hagree.
    cbn [step]. unfold writeSet, cropStep, dest, cropDestination in *.
    destruct artOnly; exact Hout.
Qed.

(** ** The fixes when nothing fails *)

Ltac norm := cbn beta iota delta [files stats journal clock].

Lemma floorMul_top artOnly :
  floorMul 1024 (topFraction artOnly) = if artOnly then 532 else 690.
Proof. destruct artOnly; vm_compute; reflexivity. Qed.

Lemma floorMul_bottom artOnly :
  floorMul 1024 (bottomStartFraction artOnly) = if artOnly then 953 else 947.
Proof. destruct artOnly; vm_compute; reflexivity. Qed.

Lemma croppedHeight_value artOnly : croppedHeight artOnly = if artOnly then 603 else 767.
Proof. destruct artOnly; vm_compute; reflexivity. Qed.

Lemma sharp_eq file st w h px :
  files st !! file = Some (Image w h px) -> sharp file st = (Ok (w, h, px), st).
Proof. intros H. unfold sharp. now rewrite H. Qed.

Lemma toFile_ideal out ideal st :
  faultless ->
  toFile out ideal st
  = (Ok tt, mkState (<[out := ideal]> (files st)) (stats st) (journal st) (S (clock st))).
Proof.
  intros Hw. unfold toFile, bind, tick. cbn [clock]. rewrite Hw. reflexivity.
Qed.

Lemma extract_toFile_ideal input out left top width height st w h px :
  faultless ->
  files st !! input = Some (Image w h px) ->
  0 <= left -> 0 <= top -> 0 < width -> 0 < height ->
  left + width <= w -> top + height <= h ->
  extract_toFile input out left top width height st
  = (Ok tt, mkState (<[out := Image width height (Extracted top height px)]> (files st))
                    (stats st) (journal st) (S (clock st))).
Proof.
  intros Hw Hin H1 H2 H3 H4 H5 H6. unfold extract_toFile, bind.
  rewrite (sharp_eq _ _ _ _ _ Hin). cbn beta iota.
  assert ((0 <=? left) && (0 <=? top) && (0 <? width) && (0 <? height)
          && (left + width <=? w) && (top + height <=? h) = true) as ->
    by (rewrite !andb_true_iff, !Z.leb_le, !Z.ltb_lt; repeat split; assumption).
  now apply toFile_ideal.
Qed.

Lemma avif_toFile_ideal input out st w h px :
  faultless ->
  files st !! input = Some (Image w h px) ->
  avif_toFile input out st
  = (Ok tt, mkState (<[out := Image w h (Avif px)]> (files st))
                    (stats st) (journal st) (S (clock st))).
Proof.
  intros Hw Hin. unfold avif_toFile, bind. rewrite (sharp_eq _ _ _ _ _ Hin).
  now apply toFile_ideal.
Qed.

(** With a faultless codec, cropping a 734x1024 source succeeds and
    the destination holds the two bands joined. *)
Lemma cropImage_ideal src artOnly cardNum lang card st px :
  let dest := cropDestination artOnly cardNum lang in
  faultless ->
  files st !! src = Some (Image 734 1024 px) ->
  src <> topFileOf dest ->
  wp (cropImage src dest artOnly card)
     (fun r st' =>
        r = Ok true
        /\ files st' !! dest
           = Some (Image 734 (croppedHeight artOnly) (croppedPixels artOnly px))) st.
Proof.
  intros dest Hw Hsrc Hne.
  destruct (cropDestination_neq artOnly cardNum lang) as (Htmp & Htop & Hbot & Htb).
  fold dest in Htmp, Htop, Hbot, Htb.
  pose proof (floorMul_top artOnly) as Ht. pose proof (floorMul_bottom artOnly) as Hb.
  unfold cropImage. wp_step. run_prim. apply wp_try_catch.
  wp_step. eapply wp_eq; [eapply metadata_eq; exact Hsrc|]. norm.
  wp_step. cbn [Z.eqb Pos.eqb negb orb]. run_prim.
  wp_step. eapply wp_eq.
  { eapply extract_toFile_ideal; [exact Hw | exact Hsrc | ..];
      rewrite ?Ht; destruct artOnly; lia. }
  norm.
  wp_step. eapply wp_eq.
  { eapply extract_toFile_ideal; [exact Hw | | ..].
    - cbn [files]. rewrite lookup_insert_ne by auto. exact Hsrc.
    - lia.
    - rewrite Hb; destruct artOnly; lia.
    - lia.
    - rewrite Hb; destruct artOnly; lia.
    - lia.
    - lia. }
  norm.
  wp_step. eapply wp_eq.
  { unfold joinImages, bind.
    erewrite sharp_eq
      by (cbn [files]; rewrite lookup_insert_ne by auto; apply lookup_insert_eq).
    erewrite sharp_eq by (cbn [files]; apply lookup_insert_eq).
    reflexivity. }
  norm.
  wp_step. eapply wp_eq; [now apply toFile_ideal|]. norm.
  wp_step. eapply wp_eq; [eapply metadata_eq; cbn [files]; apply lookup_insert_eq|].
  norm.
  wp_step. change (Z.max 734 734) with 734. cbn [Z.eqb Pos.eqb negb orb].
  rewrite Z.eqb_refl. cbn [negb]. run_prim.
  wp_step. unfold wp at 1, renameSync. cbn [files]. rewrite lookup_insert_eq.
  rewrite decide_False by exact Htmp. cbn [fst snd].
  wp_step. run_prim. wp_step.
  match goal with |- wp (cleanUp ?l) _ ?s =>
    destruct (cleanUp_spec l s) as (st7 & E7 & _ & _ & _ & Hf7) end.
  eapply wp_eq; [exact E7|]. run_prim.
  split; [reflexivity|]. rewrite Hf7. cbn [files set_files].
  rewrite decide_False.
  2: { intros H. apply list_elem_of_In in H. simpl in H. intuition congruence. }
  rewrite lookup_insert_eq. unfold croppedHeight, croppedPixels. reflexivity.
Qed.

(** ** The crop, step by step *)

Lemma toFile_eq out ideal st :
  toFile out ideal st
  = match codec world (clock st) with
    | NoFault =>
        (Ok tt, mkState (<[out := ideal]> (files st)) (stats st) (journal st)
                        (S (clock st)))
    | Garbled f =>
        (Ok tt, mkState (<[out := f]> (files st)) (stats st) (journal st) (S (clock st)))
    | Crash None =>
        (Throw (SharpError out),
         mkState (files st) (stats st) (journal st) (S (clock st)))
    | Crash (Some f) =>
        (Throw (SharpError out),
         mkState (<[out := f]> (files st)) (stats st) (journal st) (S (clock st)))
    end.
Proof.
  unfold toFile, bind, tick. cbn [clock].
  destruct (codec world (clock st)) as [|f|[f|]]; reflexivity.
Qed.

Lemma extract_toFile_at input out left top width height st w h px :
  codec world (clock st) = NoFault ->
  files st !! input = Some (Image w h px) ->
  0 <= left -> 0 <= top -> 0 < width -> 0 < height ->
  left + width <= w -> top + height <= h ->
  extract_toFile input out left top width height st
  = (Ok tt, mkState (<[out := Image width height (Extracted top height px)]> (files st))
                    (stats st) (journal st) (S (clock st))).
Proof.
  intros Hw Hin H1 H2 H3 H4 H5 H6. unfold extract_toFile, bind.
  rewrite (sharp_eq _ _ _ _ _ Hin). cbn beta iota.
  assert ((0 <=? left) && (0 <=? top) && (0 <? width) && (0 <? height)
          && (left + width <=? w) && (top + height <=? h) = true) as ->
    by (rewrite !andb_true_iff, !Z.leb_le, !Z.ltb_lt; repeat split; assumption).
  rewrite toFile_eq, Hw. reflexivity.
Qed.

(** When the two bands are extracted without fault, the outcome of
    [cropImage] is decided by the file the codec leaves at the
    temporary destination: it is moved to the destination exactly
    when it decodes with the expected dimensions. *)
Lemma cropImage_written src artOnly cardNum lang card st px :
  let dest := cropDestination artOnly cardNum lang in
  let ideal := Image 734 (croppedHeight artOnly) (croppedPixels artOnly px) in
  files st !! src = Some (Image 734 1024 px) ->
  src <> topFileOf dest ->
  codec world (clock st) = NoFault ->
  codec world (S (clock st)) = NoFault ->
  wp (cropImage src dest artOnly card)
     (fun r st' =>
        match writtenBy (codec world (S (S (clock st)))) ideal with
        | Some written =>
            if verified artOnly written
            then r = Ok true /\ files st' !! dest = Some written
            else (exists e, r = Throw e) /\ files st' !! dest = files st !! dest
        | None => (exists e, r = Throw e) /\ files st' !! dest = files st !! dest
        end) st.
Proof.
  intros dest ideal Hsrc Hne Hc0 Hc1.
  destruct (cropDestination_neq artOnly cardNum lang) as (Htmp & Htop & Hbot & Htb).
  fold dest in Htmp, Htop, Hbot, Htb.
  pose proof (floorMul_top artOnly) as Ht. pose proof (floorMul_bottom artOnly) as Hb.
  set (temps := [tempDestinationOf dest; topFileOf dest; bottomFileOf dest]).
  assert (dest ∉ temps) as Hdest.
  { subst temps. intros H. apply list_elem_of_In in H. simpl in H.
    intuition congruence. }
  (* the handler, from any state whose destination is untouched *)
  assert (forall e s1, files s1 !! dest = files st !! dest ->
            wp (do _ <- cleanUp temps; throw e)
               (fun (r : Result bool) st' => (exists e', r = Throw e')
                             /\ files st' !! dest = files st !! dest) s1) as Hhandler.
  { intros e s1 Hs1. wp_step.
    destruct (cleanUp_spec temps s1) as (s2 & E & _ & _ & _ & Hf).
    eapply wp_eq; [exact E|]. run_prim. split; [eauto|].
    rewrite Hf, decide_False by exact Hdest. exact Hs1. }
  unfold cropImage. wp_step. run_prim. apply wp_try_catch.
  wp_step. eapply wp_eq; [eapply metadata_eq; exact Hsrc|]. norm.
  wp_step. cbn [Z.eqb Pos.eqb negb orb]. run_prim.
  wp_step. eapply wp_eq.
  { eapply extract_toFile_at; [exact Hc0 | exact Hsrc | ..];
      rewrite ?Ht; destruct artOnly; lia. }
  norm.
  wp_step. eapply wp_eq.
  { eapply extract_toFile_at; [exact Hc1 | | ..].
    - cbn [files]. rewrite lookup_insert_ne by auto. exact Hsrc.
    - lia.
    - rewrite Hb; destruct artOnly; lia.
    - lia.
    - rewrite Hb; destruct artOnly; lia.
    - lia.
    - lia. }
  norm.
  wp_step. eapply wp_eq.
  { unfold joinImages, bind.
    erewrite sharp_eq
      by (cbn [files]; rewrite lookup_insert_ne by auto; apply lookup_insert_eq).
    erewrite sharp_eq by (cbn [files]; apply lookup_insert_eq).
    reflexivity. }
  norm. change (Z.max 734 734) with 734.
  wp_step. unfold wp at 1. rewrite toFile_eq. cbn [clock].
  (* the checks that follow a completed write of [written] *)
  assert (forall written s3,
             files s3 !! tempDestinationOf dest = Some written ->
             files s3 !! dest = files st !! dest ->
             wp (do '(resultW, resultH) <- metadata (tempDestinationOf dest);
                 let expectedHeight :=
                   floorMul 1024 (topFraction artOnly) - 0
                   + (1024 - floorMul 1024 (bottomStartFraction artOnly)) in
                 do _ <- (if negb (resultW =? 734) || negb (resultH =? expectedHeight)
                          then throw (CroppedWrongDimensions resultW resultH)
                          else ret tt);
                 do _ <- renameSync (tempDestinationOf dest) dest;
                 do _ <- log (Cropped dest resultW resultH) FIX;
                 do _ <- cleanUp [topFileOf dest; bottomFileOf dest];
                 ret true)
               (fun r st' =>
                  match r with
                  | Ok a =>
                      if verified artOnly written
                      then Ok a = Ok true /\ files st' !! dest = Some written
                      else (exists e, Ok a = Throw e)
                           /\ files st' !! dest = files st !! dest
                  | Throw e =>
                      wp (do _ <- cleanUp temps; throw e)
                         (fun (r : Result bool) st' =>
                            if verified artOnly written
                            then r = Ok true /\ files st' !! dest = Some written
                            else (exists e, r = Throw e)
                                 /\ files st' !! dest = files st !! dest) st'
                  end) s3) as Hcheck.
  { intros written s3 Hw3 Hd3. destruct written as [w h wpx|].
    - wp_step. eapply wp_eq; [eapply metadata_eq; exact Hw3|]. norm.
      change (floorMul 1024 (topFraction artOnly) - 0
              + (1024 - floorMul 1024 (bottomStartFraction artOnly)))
        with (croppedHeight artOnly).
      cbn [verified].
      destruct ((w =? 734) && (h =? croppedHeight artOnly)) eqn:Ev.
      + apply andb_true_iff in Ev. destruct Ev as [-> ->]. cbn [negb orb].
        wp_step. run_prim.
        wp_step. unfold wp at 1, renameSync. rewrite Hw3.
        rewrite decide_False by exact Htmp. cbn [fst snd].
        wp_step. run_prim. wp_step.
        match goal with |- wp (cleanUp ?l) _ ?s =>
          destruct (cleanUp_spec l s) as (st7 & E7 & _ & _ & _ & Hf7) end.
        eapply wp_eq; [exact E7|]. run_prim.
        split; [reflexivity|]. rewrite Hf7. cbn [files set_files].
        rewrite decide_False.
        2: { intros H. apply list_elem_of_In in H. simpl in H. intuition congruence. }
        apply lookup_insert_eq.
      + assert (negb (w =? 734) || negb (h =? croppedHeight artOnly) = true) as ->.
        { apply andb_false_iff in Ev. destruct Ev as [-> | ->]; cbn;
            [reflexivity | apply orb_true_r]. }
        wp_step. run_prim. now apply Hhandler.
    - wp_step. eapply wp_eq.
      { apply metadata_throws. intros w h wpx. rewrite Hw3. discriminate. }
      cbn [verified]. now apply Hhandler. }
  assert (forall f, files (mkState
                             (<[tempDestinationOf dest := f]>
                                (<[bottomFileOf dest :=
                                     Image 734 (1024 - floorMul 1024
                                                         (bottomStartFraction artOnly))
                                       (Extracted
                                          (floorMul 1024 (bottomStartFraction artOnly))
                                          (1024 - floorMul 1024
                                                    (bottomStartFraction artOnly)) px)]>
                                   (<[topFileOf dest :=
                                        Image 734 (floorMul 1024 (topFraction artOnly) - 0)
                                          (Extracted 0
                                             (floorMul 1024 (topFraction artOnly) - 0)
                                             px)]> (files st))))
                             (stats st)
                             (journal st ++ [(FIX, Cropping card artOnly src dest)])
                             (S (S (S (clock st))))) !! dest
                    = files st !! dest) as Hkeep.
  { intros f. cbn [files]. now rewrite !lookup_insert_ne by congruence. }
  destruct (codec world (S (S (clock st)))) as [|f|[f|]] eqn:Ef;
    cbn [writtenBy fst snd].
  - apply (Hcheck ideal); [cbn [files]; apply lookup_insert_eq | apply Hkeep].
  - apply (Hcheck f); [cbn [files]; apply lookup_insert_eq | apply Hkeep].
  - apply Hhandler. apply Hkeep.
  - apply Hhandler. cbn [files]. now rewrite !lookup_insert_ne by congruence.
Qed.

(** C3.  Crop atomicity.  The joined image is written to the
    temporary destination, checked there, and moved to the
    destination only when the check passes: when the two bands of a
    734x1024 source (a file other than the temporary band files) are
    extracted without fault, [cropImage] returns
    true with the destination holding exactly the file the codec left
    at the temporary destination if that file decodes as 734 wide and
    of the computed height, and otherwise throws with the destination
    as it was.  Whatever the codec does, after [cropImage] none of its
    three temporary files exists; if it returned, the destination
    holds an image of the verified dimensions; if it threw, the
    destination is exactly what it was before (absent or the previous
    file).  Seen through [fixIssue], a failed crop fix leaves the
    destination as it was and is counted as one failure. *)
Theorem C3_crop_atomic :
  (forall artOnly cardNum lang src card st px,
      let dest := cropDestination artOnly cardNum lang in
      let ideal := Image 734 (croppedHeight artOnly) (croppedPixels artOnly px) in
      files st !! src = Some (Image 734 1024 px) ->
      src <> topFileOf dest ->
      src <> bottomFileOf dest ->
      codec world (clock st) = NoFault ->
      codec world (S (clock st)) = NoFault ->
      let '(r, st') := cropImage src dest artOnly card st in
      match writtenBy (codec world (S (S (clock st)))) ideal with
      | Some written =>
          if verified artOnly written
          then r = Ok true /\ files st' !! dest = Some written
          else (exists e, r = Throw e) /\ files st' !! dest = files st !! dest
      | None => (exists e, r = Throw e) /\ files st' !! dest = files st !! dest
      end)
  /\ (forall artOnly cardNum lang src card st,
      let dest := cropDestination artOnly cardNum lang in
      let '(r, st') := cropImage src dest artOnly card st in
      files st' !! tempDestinationOf dest = None
      /\ files st' !! topFileOf dest = None
      /\ files st' !! bottomFileOf dest = None
      /\ match r with
         | Ok _ => exists px, files st' !! dest
                              = Some (Image 734 (croppedHeight artOnly) px)
         | Throw _ => files st' !! dest = files st !! dest
         end)
  /\ (forall artOnly cardNum lang path_ lang_ st,
         let dest := cropDestination artOnly cardNum lang in
         let '(r, st') :=
           fixIssue (mkIssue (cropStep artOnly) path_ lang_) cardNum lang st in
         files st' !! tempDestinationOf dest = None
         /\ files st' !! topFileOf dest = None
         /\ files st' !! bottomFileOf dest = None
         /\ ((r = Ok true
              /\ exists px, files st' !! dest
                            = Some (Image 734 (croppedHeight artOnly) px))
             \/ (r = Ok false
                 /\ files st' !! dest = files st !! dest
                 /\ failed (stats st') = S (failed (stats st))
                 /\ recovered (stats st') = recovered (stats st)))).
Proof.
  split_and!.
  - intros artOnly cardNum lang src card st px dest ideal Hsrc Hne _ Hc0 Hc1.
    pose proof (cropImage_written src artOnly cardNum lang card st px
                  Hsrc Hne Hc0 Hc1) as H.
    unfold wp in H. fold dest ideal in H.
    destruct (cropImage src dest artOnly card st) as [r st']. exact H.
  - intros artOnly cardNum lang src card st dest.
    destruct (cropDestination_neq artOnly cardNum lang) as (Htmp & Htop & Hbot & _).
    pose proof (cropImage_spec src dest artOnly card st Htmp Htop Hbot) as H.
    unfold wp in H. destruct (cropImage src dest artOnly card st) as [r st'].
    cbn [fst snd] in H. destruct H as (H1 & H2 & H3 & H4).
    split_and!; auto. destruct r; [|exact H4]. tauto.
  - intros artOnly cardNum lang path_ lang_ st dest.
    pose proof (fixIssue_crop_spec artOnly (mkIssue (cropStep artOnly) path_ lang_)
                  cardNum lang st eq_refl) as H.
    pose proof (fixIssue_spec (mkIssue (cropStep artOnly) path_ lang_)
                  cardNum lang st) as Hc.
    unfold wp in H, Hc.
    destruct (fixIssue _ cardNum lang st) as [r st']. cbn [fst snd] in *.
    destruct H as (H1 & H2 & H3 & H4).
    destruct Hc as (b & -> & _ & _ & _ & _ & Hre & Hfa).
    split_and!; auto.
    destruct H4 as [([= ->] & _ & H4)|([= ->] & H4)]; [left|right]; auto.
Qed.

(** C5.  Crop pixel math: for the 1024-pixel height that the guard of
    [cropImage] enforces, topEnd = floor(1024 x topFraction) and
    bottomStart = floor(1024 x bottomStartFraction) are the same for
    the binary64 constants as for the decimal fractions 0.52, 0.931,
    0.674 and 0.925; the crop has height
    topEnd + (1024 - bottomStart), which is 603 for ArtOnly and 767
    for ArtAndName, the heights of the expected-dimensions table; and
    with a faultless codec, cropping a 734x1024 Original writes a
    734-wide image of that height to the destination. *)
Theorem C5_crop_pixel_math :
  (floorMul 1024 (topFraction true) = Qfloor (Qmult (inject_Z 1024) (52 # 100))
   /\ floorMul 1024 (bottomStartFraction true)
      = Qfloor (Qmult (inject_Z 1024) (931 # 1000))
   /\ floorMul 1024 (topFraction false) = Qfloor (Qmult (inject_Z 1024) (674 # 1000))
   /\ floorMul 1024 (bottomStartFraction false)
      = Qfloor (Qmult (inject_Z 1024) (925 # 1000)))
  /\ (forall artOnly,
         croppedHeight artOnly
         = floorMul 1024 (topFraction artOnly)
           + (1024 - floorMul 1024 (bottomStartFraction artOnly)))
  /\ (734, croppedHeight true) = getExpectedDimensions "art_only"
  /\ (734, croppedHeight false) = getExpectedDimensions "art_and_name"
  /\ croppedHeight true = 603 /\ croppedHeight false = 767
  /\ (forall artOnly cardNum lang src card st px,
         let dest := cropDestination artOnly cardNum lang in
         faultless ->
         files st !! src = Some (Image 734 1024 px) ->
         src <> topFileOf dest ->
         exists st',
           cropImage src dest artOnly card st = (Ok true, st')
           /\ files st' !! dest
              = Some (Image 734 (croppedHeight artOnly) (croppedPixels artOnly px))).
Proof.
  split; [vm_compute; auto|].
  split; [intros artOnly; unfold croppedHeight; lia|].
  split; [vm_compute; reflexivity|].
  split; [vm_compute; reflexivity|].
  split; [vm_compute; reflexivity|].
  split; [vm_compute; reflexivity|].
  intros artOnly cardNum lang src card st px dest Hw Hsrc Hne.
  pose proof (cropImage_ideal src artOnly cardNum lang card st px Hw Hsrc Hne) as H.
  unfold wp in H. fold dest in H.
  destruct (cropImage src dest artOnly card st) as [r st']. cbn [fst snd] in H.
  destruct H as [-> H]. eauto.
Qed.

(** ** Sorting *)

Lemma insertSorted_perm x l : Permutation (insertSorted x l) (x :: l).
Proof.
  induction l as [|y l IH]; simpl; [reflexivity|].
  destruct (compareIssues x y <=? 0); [reflexivity|].
  rewrite IH. apply perm_swap.
Qed.

Lemma sortIssues_perm issues : Permutation (sortIssuesByPipelineOrder issues) issues.
Proof.
  induction issues as [|x l IH]; simpl; [reflexivity|].
  rewrite insertSorted_perm. now constructor.
Qed.

Lemma insertSorted_sorted x l :
  StronglySorted stepLe l -> StronglySorted stepLe (insertSorted x l).
Proof.
  induction 1 as [|y l Hs IH Hall]; simpl.
  - repeat constructor.
  - destruct (compareIssues x y <=? 0) eqn:E.
    + apply Z.leb_le in E. unfold compareIssues in E.
      constructor; [now constructor|].
      constructor; [unfold stepLe; lia|].
      eapply List.Forall_impl; [|exact Hall]. unfold stepLe. intros; lia.
    + apply Z.leb_gt in E. unfold compareIssues in E.
      constructor; [exact IH|].
      eapply Permutation_Forall; [symmetry; apply insertSorted_perm|].
      constructor; [unfold stepLe; lia | exact Hall].
Qed.

Lemma sortIssues_sorted issues :
  StronglySorted stepLe (sortIssuesByPipelineOrder issues).
Proof.
  induction issues as [|x l IH]; simpl; [constructor|].
  now apply insertSorted_sorted.
Qed.

(** A list already in pipeline order is left as it is. *)
Lemma sortIssues_id issues :
  StronglySorted stepLe issues -> sortIssuesByPipelineOrder issues = issues.
Proof.
  induction 1 as [|x l Hs IH Hall]; simpl; [reflexivity|].
  rewrite IH. destruct l as [|y l]; [reflexivity|]. simpl.
  inversion Hall as [|? ? Hxy _]; subst. unfold stepLe in Hxy.
  unfold compareIssues. destruct (Z.leb_spec (orderIndex (step x) - orderIndex (step y)) 0);
    [reflexivity | lia].
Qed.

(** ** The repair loop *)

Lemma writeSet_writeSets s steps cardNum lang :
  s ∈ steps -> writeSet s cardNum lang ⊆ writeSets steps cardNum lang.
Proof.
  intros Hs p Hp. unfold writeSets. apply list_elem_of_In, in_concat.
  exists (writeSet s cardNum lang). split.
  - apply in_map_iff. exists s. split; [reflexivity | apply list_elem_of_In, Hs].
  - apply list_elem_of_In, Hp.
Qed.

(** One pass of fixes over a list of issues whose steps are in [steps]. *)
Lemma fixAll_spec steps cardNum lang issues st :
  Forall (fun i => step i ∈ steps) issues ->
  wp (forEach (fun issue => do _ <- fixIssue issue cardNum lang; ret tt) issues)
     (fun r st' =>
        r = Ok tt
        /\ agreeOutside (writeSets steps cardNum lang) (files st) (files st')
        /\ (exists es, executed (journal st') = executed (journal st) ++ es
                       /\ map (fun e => snd (fst e)) es = map step issues
                       /\ recordsWithin lang steps es)
        /\ checked (stats st') = checked (stats st)
        /\ (forall x, is_Some (byLanguage (stats st') !! x)
                      <-> is_Some (byLanguage (stats st) !! x))) st.
Proof.
  intros Hall. revert st. induction Hall as [|i issues Hi Hall IH]; intros st; simpl.
  - unfold wp. simpl. split_and!; auto using agreeOutside_refl.
    exists []. rewrite app_nil_r. split_and!; auto. constructor.
  - wp_step. wp_step. eapply wp_mono; [apply fixIssue_spec|].
    intros r st1 (b & -> & Hf & Hj & Hc & Hdom & _).
    run_prim. eapply wp_mono; [apply IH|].
    intros r st2 (-> & Hf2 & (es & Hj2 & Hsteps & Hes) & Hc2 & Hdom2).
    split_and!; auto.
    + eapply agreeOutside_trans; [|exact Hf2].
      eapply agreeOutside_weaken; [|exact Hf]. now apply writeSet_writeSets.
    + exists ((lang, step i, b) :: es). split_and!.
      * rewrite Hj2, Hj, <- app_assoc. reflexivity.
      * simpl. now rewrite Hsteps.
      * constructor; [simpl; auto | exact Hes].
    + congruence.
    + intros x. now rewrite Hdom2, Hdom.
Qed.

(** The loop makes at most [budget] passes; every fix it calls is for
    this language and for a step validation can return here. *)
Lemma repairLoop_spec steps cardNum lang :
  (forall st issues st',
      validateCard cardNum lang st = (Ok issues, st') ->
      Forall (fun i => step i ∈ steps) issues) ->
  forall budget issues st,
    Forall (fun i => step i ∈ steps) issues ->
    wp (repairLoop budget cardNum lang issues)
       (fun r st' =>
          (checked (stats st') <= checked (stats st) + budget)%nat
          /\ agreeOutside (writeSets steps cardNum lang) (files st) (files st')
          /\ (exists es, executed (journal st') = executed (journal st) ++ es
                         /\ recordsWithin lang steps es)
          /\ match r with
             | Ok (_, attempt) =>
                 (maxAttempts - budget <= attempt)%nat
                 /\ (budget <= maxAttempts -> attempt <= maxAttempts)%nat
             | Throw _ => True
             end) st.
Proof.
  intros Hval. induction budget as [|budget IH]; intros issues st Hall.
  - unfold wp. simpl. split_and!; auto using agreeOutside_refl; try (unfold maxAttempts in *; lia).
    exists []. rewrite app_nil_r. split; [auto|constructor].
  - cbn [repairLoop]. destruct (0 <? length issues)%nat.
    2: { unfold wp. simpl. split_and!; auto using agreeOutside_refl; try (unfold maxAttempts in *; lia).
         exists []. rewrite app_nil_r. split; [auto|constructor]. }
    wp_step. eapply wp_mono; [apply (fixAll_spec steps)|].
    { eapply Permutation_Forall; [symmetry; apply sortIssues_perm | exact Hall]. }
    intros r st1 (-> & Hf & (es & Hj & _ & Hes) & Hc & Hdom).
    wp_step.
    pose proof (validateCard_findings cardNum lang st1) as Hv.
    pose proof (Hval st1) as Hval1.
    unfold wp in Hv |- *.
    destruct (validateCard cardNum lang st1) as [[issues'|e] st2]; cbn [fst snd] in *.
    + destruct Hv as (Hf2 & _ & Hj2 & _ & _ & Hdom2 & Hc2 & _).
      specialize (Hval1 _ _ eq_refl).
      destruct (length issues' =? 0)%nat.
      * cbn [ret fst snd]. split_and!; try (unfold maxAttempts in *; lia).
        -- rewrite Hf2. exact Hf.
        -- exists es. rewrite Hj2. auto.
      * specialize (IH issues' st2 Hval1). unfold wp in IH.
        destruct (repairLoop budget cardNum lang issues' st2) as [r st3];
          cbn [fst snd] in *.
        destruct IH as (Hc3 & Hf3 & (es' & Hj3 & Hes') & Hr).
        split_and!; try (unfold maxAttempts in *; lia).
        -- eapply agreeOutside_trans; [exact Hf|]. rewrite <- Hf2. exact Hf3.
        -- exists (es ++ es'). split.
           ++ rewrite Hj3, Hj2, Hj, <- app_assoc. reflexivity.
           ++ apply Forall_app. auto.
        -- destruct r as [[? attempt]|]; [|exact I]. unfold maxAttempts in *. lia.
    + destruct Hv as (Hf2 & _ & Hj2 & _ & _ & Hdom2 & Hc2 & _).
      split_and!; try (unfold maxAttempts in *; lia); auto.
      * rewrite Hf2. exact Hf.
      * exists es. rewrite Hj2. auto.
Qed.


(** ** The report at the end of a run *)

Lemma readCounters_forEach langs st :
  forEach readCounters langs st
  = (if forallb (resolves st) langs then Ok tt else Throw TypeError, st).
Proof.
  induction langs as [|lang langs IH]; cbn [forEach forallb]; [reflexivity|].
  unfold bind. unfold readCounters at 1, resolves at 1.
  destruct (byLanguage (stats st) !! lang); cbn [andb]; [exact IH|].
  destruct (inherited lang); cbn [andb]; [exact IH | reflexivity].
Qed.

(** [generateReport] writes the report file and changes nothing else;
    it throws only where a configured language has no counters. *)
Lemma generateReport_spec isoTime now st :
  wp (generateReport isoTime now)
     (fun r st' =>
        stats st' = stats st /\ journal st' = journal st /\ clock st' = clock st
        /\ match r with
           | Ok report =>
               forallb (resolves st) (languages config) = true
               /\ files st' = <[reportPath now := Corrupt]> (files st)
               /\ report_stats report = stats st
               /\ checkedCards (summary report) = checked (stats st)
               /\ cardsWithIssues (summary report) = missing (stats st)
               /\ recoveredCards (summary report) = recovered (stats st)
               /\ failedRecoveries (summary report) = failed (stats st)
           | Throw e =>
               e = TypeError
               /\ forallb (resolves st) (languages config) = false
               /\ files st' = files st
           end) st.
Proof.
  unfold wp, generateReport, bind. rewrite readCounters_forEach.
  destruct (forallb (resolves st) (languages config)); cbn; auto 10.
Qed.

(** A run of [validateAndFixAll] is a run of its two phases followed,
    when they return, by the report. *)
Lemma validateAndFixAll_inv isoTime now st :
  wp (validateAndFixAll isoTime now)
     (fun r st' =>
        exists r1 st1,
          runPhases st = (r1, st1)
          /\ stats st' = stats st1 /\ journal st' = journal st1 /\ clock st' = clock st1
          /\ match r with
             | Ok report =>
                 (exists outcomes, r1 = Ok outcomes)
                 /\ forallb (resolves st1) (languages config) = true
                 /\ files st' = <[reportPath now := Corrupt]> (files st1)
                 /\ report_stats report = stats st1
                 /\ checkedCards (summary report) = checked (stats st1)
                 /\ cardsWithIssues (summary report) = missing (stats st1)
                 /\ recoveredCards (summary report) = recovered (stats st1)
                 /\ failedRecoveries (summary report) = failed (stats st1)
             | Throw e =>
                 files st' = files st1
                 /\ (r1 = Throw e
                     \/ ((exists outcomes, r1 = Ok outcomes)
                         /\ e = TypeError
                         /\ forallb (resolves st1) (languages config) = false))
             end) st.
Proof.
  unfold validateAndFixAll. apply wp_bind. unfold wp at 1.
  destruct (runPhases st) as [[outcomes|e] st1] eqn:E; cbn [fst snd].
  - eapply wp_mono; [apply generateReport_spec|].
    intros r st' (Hs & Hj & Hc & H). exists (Ok outcomes), st1.
    split_and!; auto. destruct r as [report|e].
    + destruct H as (H1 & H2 & H3 & H4 & H5 & H6 & H7). split_and!; eauto.
    + destruct H as (-> & H1 & H2). split; [exact H2|]. right. eauto.
  - exists (Throw e), st1. split_and!; auto.
Qed.
Lemma fixIssue_download_fails issue cardNum lang st :
  neverFound ->
  step issue = DOWNLOAD ->
  exists st',
    fixIssue issue cardNum lang st = (Ok false, st')
    /\ files st' = files st
    /\ checked (stats st') = checked (stats st)
    /\ recovered (stats st') = recovered (stats st)
    /\ failed (stats st') = S (failed (stats st))
    /\ (forall x, is_Some (byLanguage (stats st') !! x)
                  <-> is_Some (byLanguage (stats st) !! x))
    /\ executed (journal st') = executed (journal st) ++ [(lang, DOWNLOAD, false)].
Proof.
  intros Hnf Hstep.
  pose proof (fixIssue_spec issue cardNum lang st) as Hspec.
  assert (wp (fixIssue issue cardNum lang)
            (fun r st' => r = Ok false /\ files st' = files st) st) as Hfail.
  { unfold fixIssue. rewrite Hstep. apply wp_try_catch. wp_step. wp_step.
    unfold downloadImage. wp_step. run_prim. wp_step. run_prim.
    match goal with |- context [http world ?t ?u] =>
      destruct (Hnf t u) as [code ->] end.
    wp_step. run_prim. run_prim. wp_step. run_prim. wp_step.
    match goal with |- wp (byLanguage_incr_guarded ?f ?l) _ ?s =>
      destruct (byLanguage_incr_guarded_spec f l s) as (st2 & E & Hf2 & _) end.
    eapply wp_eq; [exact E|]. wp_step. run_prim. run_prim.
    split; [reflexivity|]. rewrite Hf2. reflexivity. }
  unfold wp in Hspec, Hfail.
  destruct (fixIssue issue cardNum lang st) as [r st']; cbn [fst snd] in *.
  destruct Hfail as [-> Hf].
  destruct Hspec as (b & [= <-] & _ & Hj & Hc & Hdom & Hre & Hfa).
  exists st'. rewrite Hstep in Hj. split_and!; auto.
Qed.

(** A validation pass whose findings are known. *)
Lemma validateCard_known_resolves cardNum lang st fs :
  findings (files st) cardNum lang = Some fs ->
  resolves st lang = true ->
  exists st',
    validateCard cardNum lang st = (Ok (issuesOf fs), st')
    /\ files st' = files st /\ clock st' = clock st
    /\ executed (journal st') = executed (journal st)
    /\ recovered (stats st') = recovered (stats st)
    /\ failed (stats st') = failed (stats st)
    /\ checked (stats st') = S (checked (stats st))
    /\ (forall x, is_Some (byLanguage (stats st') !! x)
                  <-> is_Some (byLanguage (stats st) !! x)).
Proof.
  intros Hfs Hl.
  pose proof (validateCard_findings cardNum lang st) as H. unfold wp in H.
  destruct (validateCard cardNum lang st) as [[issues|e] st']; cbn [fst snd] in H.
  - destruct H as (Hf & Hc & Hj & Hre & Hfa & Hdom & _ & fs' & Hfs' & -> & _ & Hch & _).
    exists st'. replace fs' with fs by congruence. split_and!; auto.
  - destruct H as (_ & _ & _ & _ & _ & _ & _ & [H|H]).
    + congruence.
    + congruence.
Qed.

Lemma validateCard_known cardNum lang st fs :
  findings (files st) cardNum lang = Some fs ->
  is_Some (byLanguage (stats st) !! lang) ->
  exists st',
    validateCard cardNum lang st = (Ok (issuesOf fs), st')
    /\ files st' = files st /\ clock st' = clock st
    /\ executed (journal st') = executed (journal st)
    /\ recovered (stats st') = recovered (stats st)
    /\ failed (stats st') = failed (stats st)
    /\ checked (stats st') = S (checked (stats st))
    /\ (forall x, is_Some (byLanguage (stats st') !! x)
                  <-> is_Some (byLanguage (stats st) !! x)).
Proof.
  intros Hfs Hl. apply validateCard_known_resolves; [exact Hfs|].
  now apply resolves_counters.
Qed.

Lemma findings_missing_original disk cardNum lang :
  disk !! originalWebp (getFilePaths cardNum lang) = None ->
  findings disk cardNum lang
  = Some [(MissingOriginalWebp (getCardNumber cardNum) lang,
           Some (mkIssue DOWNLOAD (originalWebp (getFilePaths cardNum lang)) lang))].
Proof. intros H. unfold findings. now rewrite H. Qed.

(** With no provider, every pass is one failed download followed by
    the same finding. *)
Lemma repairLoop_never_found budget cardNum lang st :
  let issue := mkIssue DOWNLOAD (originalWebp (getFilePaths cardNum lang)) lang in
  neverFound ->
  files st !! originalWebp (getFilePaths cardNum lang) = None ->
  is_Some (byLanguage (stats st) !! lang) ->
  exists st',
    repairLoop budget cardNum lang [issue] st = (Ok ([issue], maxAttempts), st')
    /\ files st' = files st
    /\ checked (stats st') = (checked (stats st) + budget)%nat
    /\ failed (stats st') = (failed (stats st) + budget)%nat
    /\ recovered (stats st') = recovered (stats st)
    /\ executed (journal st')
       = executed (journal st) ++ repeat (lang, DOWNLOAD, false) budget.
Proof.
  intros issue Hnf. revert st. induction budget as [|budget IH]; intros st Ho Hl.
  - exists st. simpl. rewrite app_nil_r. split_and!; auto.
  - cbn [repairLoop]. cbn [length Nat.ltb Nat.leb sortIssuesByPipelineOrder fold_right
                           insertSorted forEach].
    destruct (fixIssue_download_fails issue cardNum lang st Hnf eq_refl)
      as (st1 & E1 & Hf1 & Hc1 & Hre1 & Hfa1 & Hdom1 & Hj1).
    assert (files st1 !! originalWebp (getFilePaths cardNum lang) = None) as Ho1
      by now rewrite Hf1.
    assert (is_Some (byLanguage (stats st1) !! lang)) as Hl1 by now apply Hdom1.
    destruct (validateCard_known cardNum lang st1 _
                (findings_missing_original _ _ _ Ho1) Hl1)
      as (st2 & E2 & Hf2 & _ & Hj2 & Hre2 & Hfa2 & Hc2 & Hdom2).
    assert (files st2 !! originalWebp (getFilePaths cardNum lang) = None) as Ho2
      by now rewrite Hf2.
    assert (is_Some (byLanguage (stats st2) !! lang)) as Hl2 by now apply Hdom2.
    destruct (IH st2 Ho2 Hl2) as (st3 & E3 & Hf3 & Hc3 & Hfa3 & Hre3 & Hj3).
    exists st3. split.
    + unfold bind at 1. unfold bind at 1. unfold bind at 1. rewrite E1.
      cbn [ret]. unfold bind at 1. rewrite E2. cbn [issuesOf omap snd length Nat.eqb].
      exact E3.
    + split_and!; try congruence; try lia.
      rewrite Hj3, Hj2, Hj1, <- app_assoc. reflexivity.
Qed.

Lemma in_allSteps s : s ∈ allSteps.
Proof. destruct s; unfold allSteps; step_in. Qed.

(** C2.  Bounded retry: the per-card loop makes at most
    [maxAttempts] = 3 passes (each pass ends with one re-validation,
    counted in [stats.checked]); and for a card whose original is
    missing and whose download fails on every attempt, it ends after
    exactly 3 passes with the same single DOWNLOAD issue it started
    from, three failed fixes recorded and the disk unchanged. *)
Theorem C2_bounded_retry :
  maxAttempts = 3%nat
  /\ (forall cardNum lang issues st,
         let '(r, st') := fixCard cardNum lang issues st in
         (checked (stats st') <= checked (stats st) + maxAttempts)%nat
         /\ match r with
            | Ok (_, attempt) => (attempt <= maxAttempts)%nat
            | Throw _ => True
            end)
  /\ (forall cardNum lang st,
         let issue := mkIssue DOWNLOAD (originalWebp (getFilePaths cardNum lang)) lang in
         neverFound ->
         files st !! originalWebp (getFilePaths cardNum lang) = None ->
         is_Some (byLanguage (stats st) !! lang) ->
         exists st0 st',
           validateCard cardNum lang st = (Ok [issue], st0)
           /\ fixCard cardNum lang [issue] st0 = (Ok ([issue], 3%nat), st')
           /\ files st' = files st
           /\ checked (stats st') = (checked (stats st0) + 3)%nat
           /\ failed (stats st') = (failed (stats st0) + 3)%nat
           /\ recovered (stats st') = recovered (stats st0)
           /\ executed (journal st')
              = executed (journal st0)
                ++ [(lang, DOWNLOAD, false); (lang, DOWNLOAD, false);
                    (lang, DOWNLOAD, false)]).
Proof.
  split; [reflexivity|]. split.
  - intros cardNum lang issues st.
    pose proof (repairLoop_spec allSteps cardNum lang) as H.
    specialize (H (fun _ issues' _ _ =>
                     proj2 (Forall_forall _ _) (fun i _ => in_allSteps (step i)))).
    specialize (H maxAttempts issues st
                  (proj2 (Forall_forall _ _) (fun i _ => in_allSteps (step i)))).
    unfold wp in H. unfold fixCard.
    destruct (repairLoop maxAttempts cardNum lang issues st) as [r st'].
    cbn [fst snd] in H. destruct H as (Hc & _ & _ & Hr).
    split; [exact Hc|]. destruct r as [[? attempt]|]; [|exact I].
    apply Hr. reflexivity.
  - intros cardNum lang st issue Hnf Ho Hl.
    destruct (validateCard_known cardNum lang st _
                (findings_missing_original _ _ _ Ho) Hl)
      as (st0 & E0 & Hf0 & _ & _ & _ & _ & _ & Hdom0).
    assert (files st0 !! originalWebp (getFilePaths cardNum lang) = None) as Ho0
      by now rewrite Hf0.
    assert (is_Some (byLanguage (stats st0) !! lang)) as Hl0 by now apply Hdom0.
    destruct (repairLoop_never_found maxAttempts cardNum lang st0 Hnf Ho0 Hl0)
      as (st' & E & Hf & Hc & Hfa & Hre & Hj).
    exists st0, st'. split_and!; auto. congruence.
Qed.

Lemma validateCard_stepsFor cardNum lang st issues st' :
  validateCard cardNum lang st = (Ok issues, st') ->
  Forall (fun i => step i ∈ stepsFor lang) issues.
Proof.
  intros Hv. unfold stepsFor. destruct (isFirstLanguage lang) eqn:Hfirst.
  - apply Forall_forall. intros i _. apply in_allSteps.
  - eapply List.Forall_impl; [|exact (validateCard_no_artOnly _ _ _ _ _ Hfirst Hv)].
    intros i Hi. simpl in Hi. unfold perLanguageSteps.
    destruct (step i); try discriminate; step_in.
Qed.

Lemma recordsWithin_artOnlyByFirst lang es :
  recordsWithin lang (stepsFor lang) es -> Forall artOnlyByFirst es.
Proof.
  unfold recordsWithin. apply List.Forall_impl.
  intros [[l s] b] [Hl Hs] Hart. simpl in *. subst l.
  unfold stepsFor in Hs. destruct (isFirstLanguage lang); [reflexivity|].
  unfold perLanguageSteps in Hs. destruct s; try discriminate; step_in.
Qed.

Lemma validateCards_spec lang cards acc st :
  Forall wellFormedEntry acc ->
  wp (validateCards lang cards acc)
     (fun r st' =>
        executed (journal st') = executed (journal st)
        /\ match r with
           | Ok allIssues => Forall wellFormedEntry allIssues
           | Throw _ => True
           end) st.
Proof.
  revert acc st. induction cards as [|cardNum cards IH]; intros acc st Hacc; simpl.
  - unfold wp. simpl. auto.
  - wp_step.
    pose proof (validateCard_findings cardNum lang st) as Hv.
    pose proof (validateCard_stepsFor cardNum lang st) as Hs.
    unfold wp in Hv |- *.
    destruct (validateCard cardNum lang st) as [[issues|e] st1]; cbn [fst snd] in *.
    + destruct Hv as (_ & _ & Hj & _).
      eapply wp_mono; [apply IH|].
      * destruct (0 <? length issues)%nat; [|exact Hacc].
        apply Forall_app. split; [exact Hacc|].
        constructor; [|constructor]. exact (Hs _ _ eq_refl).
      * intros r st' [Hj' Hr]. split; [congruence | exact Hr].
    + destruct Hv as (_ & _ & Hj & _). auto.
Qed.

Lemma validateLanguages_spec langs acc st :
  Forall wellFormedEntry acc ->
  wp (validateLanguages langs acc)
     (fun r st' =>
        executed (journal st') = executed (journal st)
        /\ match r with
           | Ok allIssues => Forall wellFormedEntry allIssues
           | Throw _ => True
           end) st.
Proof.
  revert acc st. induction langs as [|lang langs IH]; intros acc st Hacc; simpl.
  - unfold wp. simpl. auto.
  - wp_step. eapply wp_mono; [now apply validateCards_spec|].
    intros [allIssues|e] st1 [Hj Hr]; [|auto].
    eapply wp_mono; [apply IH, Hr|].
    intros r st' [Hj' Hr']. split; [congruence | exact Hr'].
Qed.

Lemma fixCard_records cardNum lang issues st :
  Forall (fun i => step i ∈ stepsFor lang) issues ->
  wp (fixCard cardNum lang issues)
     (fun _ st' =>
        agreeOutside (writeSets (stepsFor lang) cardNum lang) (files st) (files st')
        /\ exists es, executed (journal st') = executed (journal st) ++ es
                      /\ recordsWithin lang (stepsFor lang) es) st.
Proof.
  intros Hall. unfold fixCard.
  eapply wp_mono;
    [apply (repairLoop_spec (stepsFor lang) cardNum lang
              (validateCard_stepsFor cardNum lang) maxAttempts issues st Hall)|].
  intros r st' (_ & Hf & Hes & _). auto.
Qed.

Lemma fixCards_spec allIssues st :
  Forall wellFormedEntry allIssues ->
  wp (fixCards allIssues)
     (fun _ st' =>
        exists es, executed (journal st') = executed (journal st) ++ es
                   /\ Forall artOnlyByFirst es) st.
Proof.
  intros Hall. revert st.
  induction Hall as [|[[cardNum lang] issues] rest Hentry Hall IH]; intros st; simpl.
  - unfold wp. simpl. exists []. rewrite app_nil_r. auto.
  - wp_step. eapply wp_mono; [apply fixCard_records, Hentry|].
    intros r st1 (_ & es & Hj & Hes).
    apply recordsWithin_artOnlyByFirst in Hes.
    destruct r as [outcome|e]; [|eauto].
    wp_step. eapply wp_mono; [apply IH|].
    intros r st2 (es' & Hj' & Hes').
    assert (exists es'', executed (journal st2) = executed (journal st) ++ es''
                         /\ Forall artOnlyByFirst es'') as Hfinal.
    { exists (es ++ es'). split.
      - rewrite Hj', Hj, <- app_assoc. reflexivity.
      - apply Forall_app. auto. }
    destruct r; [unfold wp; simpl|]; exact Hfinal.
Qed.

Lemma runPhases_artOnly st :
  wp runPhases
     (fun _ st' =>
        exists es, executed (journal st') = executed (journal st) ++ es
                   /\ Forall artOnlyByFirst es) st.
Proof.
  unfold runPhases. wp_step.
  eapply wp_mono; [apply validateLanguages_spec; constructor|].
  intros [allIssues|e] st1 [Hj Hr].
  - destruct (length allIssues =? 0)%nat;
      [unfold wp; simpl; exists []; rewrite app_nil_r; auto|].
    destruct (negb (autoFix config));
      [unfold wp; simpl; exists []; rewrite app_nil_r; auto|].
    eapply wp_mono; [apply fixCards_spec, Hr|].
    intros r st2 (es & Hj' & Hes). exists es. split; [congruence | exact Hes].
  - exists []. rewrite app_nil_r; auto.
Qed.

(** C6.  ArtOnly exclusivity: validation of a language that is not
    the first configured one never returns CROP_ART_ONLY or
    CONVERT_ART_ONLY; the repair loop of such a language therefore
    calls no art_only fix and writes no file outside the write sets
    of the per-language steps; and in a whole run every executed
    art_only fix belongs to the first language. *)
Theorem C6_art_only_exclusive_to_first_language :
  (forall cardNum lang st issues st',
      isFirstLanguage lang = false ->
      validateCard cardNum lang st = (Ok issues, st') ->
      Forall (fun i => step i <> CROP_ART_ONLY /\ step i <> CONVERT_ART_ONLY) issues)
  /\ (forall cardNum lang issues st,
         isFirstLanguage lang = false ->
         Forall (fun i => step i <> CROP_ART_ONLY /\ step i <> CONVERT_ART_ONLY) issues ->
         let '(_, st') := fixCard cardNum lang issues st in
         (exists es, executed (journal st') = executed (journal st) ++ es
                     /\ Forall (fun e => fst (fst e) = lang
                                         /\ isArtOnlyStep (snd (fst e)) = false) es)
         /\ (forall p, p ∉ writeSets perLanguageSteps cardNum lang ->
                       files st' !! p = files st !! p))
  /\ (forall isoTime now st,
         let '(_, st') := validateAndFixAll isoTime now st in
         exists es, executed (journal st') = executed (journal st) ++ es
                    /\ Forall artOnlyByFirst es).
Proof.
  split; [|split].
  - intros cardNum lang st issues st' Hfirst Hv.
    eapply List.Forall_impl; [|exact (validateCard_no_artOnly _ _ _ _ _ Hfirst Hv)].
    intros i Hi. simpl in Hi. destruct (step i); try discriminate; split; discriminate.
  - intros cardNum lang issues st Hfirst Hall.
    pose proof (fixCard_records cardNum lang issues st) as H.
    unfold stepsFor in H. rewrite Hfirst in H.
    assert (Forall (fun i => step i ∈ perLanguageSteps) issues) as Hall'.
    { eapply List.Forall_impl; [|exact Hall]. intros i [H1 H2]. simpl in *.
      unfold perLanguageSteps. destruct (step i); try congruence; step_in. }
    specialize (H Hall'). unfold wp in H.
    destruct (fixCard cardNum lang issues st) as [r st']. cbn [fst snd] in H.
    destruct H as (Hf & es & Hj & Hes). split; [|exact Hf].
    exists es. split; [exact Hj|].
    eapply List.Forall_impl; [|exact Hes].
    intros [[l s] b] [Hl Hs]. simpl in *. split; [exact Hl|].
    unfold perLanguageSteps in Hs. destruct s; try reflexivity; step_in.
  - intros isoTime now st.
    pose proof (validateAndFixAll_inv isoTime now st) as H. unfold wp in H.
    destruct (validateAndFixAll isoTime now st) as [r st']. cbn [fst snd] in H.
    destruct H as (r1 & st1 & E & _ & Hj & _).
    rewrite Hj. exact (wp_run _ _ _ (runPhases_artOnly st) _ _ E).
Qed.

(** ** Pipeline order *)

Lemma sorted_steps issues :
  StronglySorted stepLe issues ->
  StronglySorted Z.le (map orderIndex (map step issues)).
Proof.
  induction 1 as [|x l Hs IH Hall]; simpl; constructor; [exact IH|].
  rewrite !List.Forall_map. exact Hall.
Qed.

(** The fixes a loop executes fall into at most [budget] passes, each
    of them in pipeline order. *)
Lemma repairLoop_passes budget cardNum lang issues st :
  wp (repairLoop budget cardNum lang issues)
     (fun _ st' =>
        exists passes,
          (length passes <= budget)%nat
          /\ executed (journal st') = executed (journal st) ++ concat passes
          /\ Forall passSorted passes) st.
Proof.
  revert issues st. induction budget as [|budget IH]; intros issues st.
  - unfold wp. simpl. exists []. simpl. rewrite app_nil_r. split_and!; auto.
  - cbn [repairLoop]. destruct (0 <? length issues)%nat.
    2: { unfold wp. simpl. exists []. simpl. rewrite app_nil_r.
         split_and!; auto. lia. }
    wp_step. eapply wp_mono; [apply (fixAll_spec allSteps)|].
    { apply Forall_forall. intros i _. apply in_allSteps. }
    intros r st1 (-> & _ & (es & Hj & Hsteps & _) & _).
    assert (passSorted es) as Hsorted.
    { unfold passSorted.
      replace (map (fun e => orderIndex (snd (fst e))) es)
        with (map orderIndex (map (fun e => snd (fst e)) es))
        by (rewrite List.map_map; reflexivity).
      rewrite Hsteps. apply sorted_steps, sortIssues_sorted. }
    wp_step.
    pose proof (validateCard_findings cardNum lang st1) as Hv.
    unfold wp in Hv |- *.
    destruct (validateCard cardNum lang st1) as [[issues'|e] st2]; cbn [fst snd] in *.
    + destruct Hv as (_ & _ & Hj2 & _).
      destruct (length issues' =? 0)%nat.
      * cbn [ret fst snd]. exists [es]. simpl. rewrite app_nil_r.
        split_and!; [lia | congruence | auto].
      * specialize (IH issues' st2). unfold wp in IH.
        destruct (repairLoop budget cardNum lang issues' st2) as [r st3];
          cbn [fst snd] in *.
        destruct IH as (passes & Hlen & Hj3 & Hall).
        exists (es :: passes). simpl. split_and!; [lia | | auto].
        rewrite Hj3, Hj2, Hj, <- app_assoc. reflexivity.
    + destruct Hv as (_ & _ & Hj2 & _).
      exists [es]. simpl. rewrite app_nil_r. split_and!; [lia | congruence | auto].
Qed.

(** ** The fixes of an ideal run *)

Lemma fixIssue_of_operation issue cardNum lang st (P : gmap string File -> Prop) :
  wp (fixOperation (step issue) cardNum lang)
     (fun r st' => r = Ok tt /\ P (files st')) st ->
  wp (fixIssue issue cardNum lang) (fun r st' => r = Ok true /\ P (files st')) st.
Proof.
  intros H. unfold fixIssue. apply wp_try_catch. wp_step.
  eapply wp_mono; [exact H|]. intros r st1 [-> HP].
  wp_step. run_prim. wp_step.
  match goal with |- wp (byLanguage_incr_guarded ?f ?l) _ ?s =>
    destruct (byLanguage_incr_guarded_spec f l s) as (st2 & E & Hf2 & _) end.
  eapply wp_eq; [exact E|]. wp_step. run_prim. run_prim.
  rewrite Hf2. auto.
Qed.

(** A fix that is known to succeed, with everything [fixIssue_spec]
    says about it. *)
Lemma fixIssue_succeeds issue cardNum lang st (P : gmap string File -> Prop) :
  wp (fixOperation (step issue) cardNum lang)
     (fun r st' => r = Ok tt /\ P (files st')) st ->
  exists st',
    fixIssue issue cardNum lang st = (Ok true, st')
    /\ P (files st')
    /\ agreeOutside (writeSet (step issue) cardNum lang) (files st) (files st')
    /\ executed (journal st') = executed (journal st) ++ [(lang, step issue, true)]
    /\ (forall x, is_Some (byLanguage (stats st') !! x)
                  <-> is_Some (byLanguage (stats st) !! x)).
Proof.
  intros H. apply fixIssue_of_operation in H.
  pose proof (fixIssue_spec issue cardNum lang st) as Hs.
  unfold wp in H, Hs.
  destruct (fixIssue issue cardNum lang st) as [r st']. cbn [fst snd] in *.
  destruct H as [-> HP]. destruct Hs as (b & [= <-] & Hf & Hj & _ & Hdom & _).
  exists st'. split_and!; auto.
Qed.

Lemma download_ideal cardNum lang st :
  servesFullSize ->
  wp (fixOperation DOWNLOAD cardNum lang)
     (fun r st' =>
        r = Ok tt
        /\ exists px, files st' !! downloadDestination cardNum lang
                      = Some (Image 734 1024 px)) st.
Proof.
  intros Hserve. unfold fixOperation, downloadImage.
  wp_step. wp_step. run_prim. wp_step. run_prim.
  match goal with |- context [http world ?t ?u] =>
    destruct (Hserve t u) as [px ->] end.
  wp_step. run_prim. wp_step. run_prim. run_prim. run_prim.
  split; [reflexivity|]. exists px. apply lookup_insert_eq.
Qed.

Lemma convertToAvif_ideal webpPath avifPath st w h px :
  faultless ->
  files st !! webpPath = Some (Image w h px) ->
  wp (convertToAvif webpPath avifPath)
     (fun r st' => r = Ok tt
                   /\ files st' !! avifPath = Some (Image w h (Avif px))) st.
Proof.
  intros Hw Hin. unfold convertToAvif. wp_step. run_prim.
  wp_step. eapply wp_eq; [eapply avif_toFile_ideal; [exact Hw | cbn [files]; exact Hin]|].
  run_prim. split; [reflexivity|]. apply lookup_insert_eq.
Qed.

Lemma bind_eq {A B} (m : M A) (k : A -> M B) st a st1 :
  m st = (Ok a, st1) -> bind m k st = k a st1.
Proof. intros E. unfold bind. now rewrite E. Qed.

Lemma forEach_cons_eq {A} (f : A -> M unit) x l st st1 :
  f x st = (Ok tt, st1) -> forEach f (x :: l) st = forEach f l st1.
Proof. intros E. cbn [forEach]. now rewrite (bind_eq _ _ _ _ _ E). Qed.

Lemma fix_unit_eq issue cardNum lang st b st1 :
  fixIssue issue cardNum lang st = (Ok b, st1) ->
  (do _ <- fixIssue issue cardNum lang; ret tt) st = (Ok tt, st1).
Proof. intros E. now rewrite (bind_eq _ _ _ _ _ E). Qed.

(** One pass of the loop: the fixes in sorted order, then a validation. *)
Lemma repairLoop_pass budget cardNum lang issues st st1 rest st2 :
  issues <> [] ->
  forEach (fun issue => do _ <- fixIssue issue cardNum lang; ret tt)
    (sortIssuesByPipelineOrder issues) st = (Ok tt, st1) ->
  validateCard cardNum lang st1 = (Ok rest, st2) ->
  repairLoop (S budget) cardNum lang issues st
  = if (length rest =? 0)%nat
    then (Ok (rest, S (maxAttempts - S budget)), st2)
    else repairLoop budget cardNum lang rest st2.
Proof.
  intros Hne E1 E2. cbn [repairLoop].
  destruct issues as [|i issues]; [congruence|].
  cbn [length Nat.ltb Nat.leb].
  rewrite (bind_eq _ _ _ _ _ E1), (bind_eq _ _ _ _ _ E2).
  destruct (length rest =? 0)%nat; reflexivity.
Qed.

Section Scenario.

Variables (cardNum : N) (lang : string).

Let paths := getFilePaths cardNum lang.
Let card := getCardNumber cardNum.
Let download := mkIssue DOWNLOAD (originalWebp paths) lang.
Let convertOriginal := mkIssue CONVERT_ORIGINAL (originalAvif paths) lang.
Let crop := mkIssue CROP_ART_AND_NAME (artAndNameWebp paths) lang.
Let convert := mkIssue CONVERT_ART_AND_NAME (artAndNameAvif paths) lang.

Hypothesis Hcodec : faultless.
Hypothesis Hcdn : servesFullSize.
Hypothesis Hskip : skipVariants config = false.
Hypothesis Hfirst : isFirstLanguage lang = false.
Hypothesis Hdest : downloadDestination cardNum lang = originalWebp paths.
Hypothesis Hlayout :
  NoDup (originalWebp paths :: originalAvif paths :: artAndNameAvif paths
         :: cropFiles (artAndNameWebp paths)).

Lemma findings_after_download (disk : gmap string File) px :
  disk !! originalWebp paths = Some (Image 734 1024 px) ->
  disk !! artAndNameWebp paths = None ->
  disk !! artAndNameAvif paths = None ->
  exists fs,
    findings disk cardNum lang = Some fs
    /\ issuesOf fs
       = match disk !! originalAvif paths with
         | None => [convertOriginal]
         | Some _ => []
         end ++ [crop; convert].
Proof.
  intros Ho Hw Ha. unfold findings. fold paths card. rewrite Ho, Hskip, Hfirst.
  cbn [negb andb]. unfold artAndNameFindings. rewrite Hw, Ha.
  eexists. split; [reflexivity|].
  destruct (disk !! originalAvif paths); reflexivity.
Qed.

Lemma findings_complete (disk : gmap string File) px px' f f' :
  disk !! originalWebp paths = Some (Image 734 1024 px) ->
  disk !! originalAvif paths = Some f ->
  disk !! artAndNameWebp paths = Some (Image 734 767 px') ->
  disk !! artAndNameAvif paths = Some f' ->
  exists fs, findings disk cardNum lang = Some fs /\ issuesOf fs = [].
Proof.
  intros Ho Hoa Hw Ha. unfold findings. fold paths card.
  rewrite Ho, Hoa, Hskip, Hfirst.
  cbn [negb andb]. unfold artAndNameFindings. rewrite Hw, Ha.
  cbn [Z.eqb Pos.eqb].
  destruct (Z.abs _ >? _); eexists; split; reflexivity.
Qed.

Lemma outside_crop p :
  p = originalWebp paths \/ p = originalAvif paths \/ p = artAndNameAvif paths ->
  p ∉ cropFiles (artAndNameWebp paths).
Proof.
  intros Hp Hin. apply NoDup_cons in Hlayout as [H0 H]. apply NoDup_cons in H as [H1 H].
  apply NoDup_cons in H as [H2 _].
  destruct Hp as [-> | [-> | ->]].
  - apply H0. now do 2 right.
  - apply H1. now right.
  - exact (H2 Hin).
Qed.

Lemma layout_neq :
  originalWebp paths <> originalAvif paths
  /\ originalWebp paths <> artAndNameAvif paths
  /\ originalAvif paths <> artAndNameAvif paths
  /\ artAndNameWebp paths <> artAndNameAvif paths
  /\ originalWebp paths <> artAndNameWebp paths
  /\ originalAvif paths <> artAndNameWebp paths
  /\ originalWebp paths <> topFileOf (artAndNameWebp paths).
Proof.
  pose proof Hlayout as H. unfold cropFiles in H.
  apply NoDup_cons in H as [H0 H]. apply NoDup_cons in H as [H1 H].
  apply NoDup_cons in H as [H2 _].
  rewrite !not_elem_of_cons in H0. rewrite !not_elem_of_cons in H1.
  rewrite !not_elem_of_cons in H2.
  destruct H0 as (A1 & A2 & A3 & _ & A5 & _), H1 as (B1 & B2 & _), H2 as (C1 & _).
  split_and!; auto.
Qed.

(** The second pass on a valid original: crop, convert, and a
    validation that finds nothing. *)
Lemma crop_convert_pass st px f :
  files st !! originalWebp paths = Some (Image 734 1024 px) ->
  files st !! originalAvif paths = Some f ->
  is_Some (byLanguage (stats st) !! lang) ->
  exists st2 st3,
    forEach (fun issue => do _ <- fixIssue issue cardNum lang; ret tt)
      [crop; convert] st = (Ok tt, st2)
    /\ validateCard cardNum lang st2 = (Ok [], st3)
    /\ executed (journal st3)
       = executed (journal st)
         ++ [(lang, CROP_ART_AND_NAME, true); (lang, CONVERT_ART_AND_NAME, true)]
    /\ files st3 !! artAndNameWebp paths
       = Some (Image 734 767 (croppedPixels false px)).
Proof.
  intros Ho Hoa Hl.
  destruct layout_neq as (N01 & N02 & N12 & N32 & N03 & N13 & N05).
  (* crop *)
  destruct (fixIssue_succeeds crop cardNum lang st
              (fun d => d !! artAndNameWebp paths
                        = Some (Image 734 767 (croppedPixels false px))))
    as (st1 & E1 & Hd1 & Ha1 & Hj1 & Hdom1).
  { cbn [step crop]. unfold fixOperation. fold paths. wp_step.
    eapply wp_mono;
      [apply (cropImage_ideal (originalWebp paths) false cardNum lang _ st px
                Hcodec Ho N05)|].
    intros r st' [-> Hf]. run_prim. split; [reflexivity | exact Hf]. }
  cbn [step crop writeSet] in Ha1, Hj1. fold paths in Ha1.
  assert (files st1 !! originalWebp paths = Some (Image 734 1024 px)) as Ho1
    by (rewrite (Ha1 _ (outside_crop _ (or_introl eq_refl))); exact Ho).
  assert (files st1 !! originalAvif paths = Some f) as Hoa1
    by (rewrite (Ha1 _ (outside_crop _ (or_intror (or_introl eq_refl)))); exact Hoa).
  (* convert *)
  destruct (fixIssue_succeeds convert cardNum lang st1
              (fun d => d !! artAndNameAvif paths
                        = Some (Image 734 767 (Avif (croppedPixels false px)))))
    as (st2 & E2 & Hd2 & Ha2 & Hj2 & Hdom2).
  { cbn [step convert]. unfold fixOperation. fold paths.
    now apply convertToAvif_ideal. }
  cbn [step convert writeSet] in Ha2, Hj2. fold paths in Ha2.
  assert (forall p, p <> artAndNameAvif paths -> files st2 !! p = files st1 !! p)
    as Ha2'.
  { intros p Hp. apply Ha2. now rewrite list_elem_of_singleton. }
  (* validate *)
  destruct (findings_complete (files st2) px (croppedPixels false px) f
              (Image 734 767 (Avif (croppedPixels false px))))
    as (fs & Hfs & Hnone); try (rewrite Ha2' by auto; assumption); [exact Hd2|].
  destruct (validateCard_known cardNum lang st2 fs Hfs)
    as (st3 & E3 & Hf3 & _ & Hj3 & _).
  { apply Hdom2, Hdom1, Hl. }
  rewrite Hnone in E3.
  exists st2, st3. split_and!.
  - set (fixOne := fun issue : Issue => do _ <- fixIssue issue cardNum lang; ret tt).
    rewrite (forEach_cons_eq fixOne crop [convert] st st1
               (fix_unit_eq crop cardNum lang st true st1 E1)).
    rewrite (forEach_cons_eq fixOne convert [] st1 st2
               (fix_unit_eq convert cardNum lang st1 true st2 E2)).
    reflexivity.
  - exact E3.
  - rewrite Hj3, Hj2, Hj1, <- app_assoc. reflexivity.
  - rewrite Hf3, Ha2' by auto. exact Hd1.
Qed.

(** A card whose original, ArtAndName WebP and ArtAndName AVIF are
    all missing: validation reports the download alone; the first
    pass downloads, the second converts the original if its AVIF is
    missing, crops and converts the crop; the card is then clean. *)
Lemma scenario_run st :
  files st !! originalWebp paths = None ->
  files st !! artAndNameWebp paths = None ->
  files st !! artAndNameAvif paths = None ->
  is_Some (byLanguage (stats st) !! lang) ->
  exists st0 st' px,
    validateCard cardNum lang st = (Ok [download], st0)
    /\ fixCard cardNum lang [download] st0 = (Ok ([], 2%nat), st')
    /\ executed (journal st')
       = executed (journal st)
         ++ (lang, DOWNLOAD, true)
            :: match files st !! originalAvif paths with
               | None => [(lang, CONVERT_ORIGINAL, true)]
               | Some _ => []
               end
            ++ [(lang, CROP_ART_AND_NAME, true); (lang, CONVERT_ART_AND_NAME, true)]
    /\ files st' !! artAndNameWebp paths
       = Some (Image 734 767 (croppedPixels false px)).
Proof.
  intros Ho Hw Ha Hl.
  destruct layout_neq as (N01 & N02 & N12 & N32 & N03 & N13 & N05).
  set (fixOne := fun issue : Issue => do _ <- fixIssue issue cardNum lang; ret tt).
  (* phase 1 *)
  destruct (validateCard_known cardNum lang st _
              (findings_missing_original _ _ _ Ho) Hl)
    as (st0 & E0 & Hf0 & _ & Hj0 & _ & _ & _ & Hdom0).
  change (validateCard cardNum lang st = (Ok [download], st0)) in E0.
  (* pass 1: the download *)
  destruct (fixIssue_succeeds download cardNum lang st0
              (fun d => exists px, d !! originalWebp paths = Some (Image 734 1024 px)))
    as (st1 & E1 & [px Hd1] & Ha1 & Hj1 & Hdom1).
  { cbn [step download]. eapply wp_mono; [apply download_ideal; exact Hcdn|].
    intros r s [-> [px Hpx]]. split; [reflexivity|]. exists px.
    rewrite <- Hdest. exact Hpx. }
  cbn [step download writeSet] in Ha1, Hj1. rewrite Hdest in Ha1.
  assert (forall p, p <> originalWebp paths -> files st1 !! p = files st !! p)
    as Hout.
  { intros p Hp. rewrite (Ha1 p), Hf0; [reflexivity|].
    now rewrite list_elem_of_singleton. }
  destruct (findings_after_download (files st1) px Hd1) as (fs1 & Hfs1 & Hi1);
    [rewrite Hout by auto; assumption ..|].
  rewrite (Hout (originalAvif paths)) in Hi1 by auto.
  destruct (validateCard_known cardNum lang st1 fs1 Hfs1)
    as (st2 & E2 & Hf2 & _ & Hj2 & _ & _ & _ & Hdom2).
  { apply Hdom1, Hdom0, Hl. }
  rewrite Hi1 in E2.
  assert (forEach fixOne (sortIssuesByPipelineOrder [download]) st0 = (Ok tt, st1))
    as P1.
  { change (sortIssuesByPipelineOrder [download]) with [download].
    rewrite (forEach_cons_eq fixOne download [] st0 st1
               (fix_unit_eq download cardNum lang st0 true st1 E1)).
    reflexivity. }
  assert (files st2 !! originalWebp paths = Some (Image 734 1024 px)) as Ho2
    by (rewrite Hf2; exact Hd1).
  assert (is_Some (byLanguage (stats st2) !! lang)) as Hl2
    by (apply Hdom2, Hdom1, Hdom0, Hl).
  destruct (files st !! originalAvif paths) as [f|] eqn:Hoa; cbn [app] in E2.
  - (* the original's AVIF is there *)
    destruct (crop_convert_pass st2 px f Ho2) as (st3 & st4 & E3 & E4 & Hj4 & Hd4);
      [rewrite Hf2, Hout by auto; exact Hoa | exact Hl2 |].
    exists st0, st4, px. split_and!; [exact E0 | | | exact Hd4].
    + unfold fixCard, maxAttempts.
      rewrite (repairLoop_pass 2 cardNum lang [download] st0 st1 [crop; convert] st2);
        [| discriminate | exact P1 | exact E2].
      cbn [length Nat.eqb].
      rewrite (repairLoop_pass 1 cardNum lang [crop; convert] st2 st3 [] st4);
        [| discriminate | exact E3 | exact E4].
      reflexivity.
    + rewrite Hj4, Hj2, Hj1, Hj0, <- app_assoc. reflexivity.
  - (* the original's AVIF is missing too *)
    destruct (fixIssue_succeeds convertOriginal cardNum lang st2
                (fun d => d !! originalAvif paths
                          = Some (Image 734 1024 (Avif px))))
      as (st3 & E3 & Hd3 & Ha3 & Hj3 & Hdom3).
    { cbn [step convertOriginal]. unfold fixOperation. fold paths.
      now apply convertToAvif_ideal. }
    cbn [step convertOriginal writeSet] in Ha3, Hj3. fold paths in Ha3.
    destruct (crop_convert_pass st3 px (Image 734 1024 (Avif px)))
      as (st4 & st5 & E4 & E5 & Hj5 & Hd5);
      [ rewrite (Ha3 (originalWebp paths)); [exact Ho2|];
        now rewrite list_elem_of_singleton
      | exact Hd3 | apply Hdom3, Hl2 |].
    exists st0, st5, px. split_and!; [exact E0 | | | exact Hd5].
    + unfold fixCard, maxAttempts.
      rewrite (repairLoop_pass 2 cardNum lang [download] st0 st1
                 [convertOriginal; crop; convert] st2);
        [| discriminate | exact P1 | exact E2].
      cbn [length Nat.eqb].
      rewrite (repairLoop_pass 1 cardNum lang [convertOriginal; crop; convert]
                 st2 st4 [] st5); [reflexivity | discriminate | | exact E5].
      change (forEach fixOne [convertOriginal; crop; convert] st2 = (Ok tt, st4)).
      rewrite (forEach_cons_eq fixOne convertOriginal [crop; convert] st2 st3
                 (fix_unit_eq convertOriginal cardNum lang st2 true st3 E3)).
      exact E4.
    + rewrite Hj5, Hj3, Hj2, Hj1, Hj0, <- !app_assoc. reflexivity.
Qed.

End Scenario.


(** C4. Pipeline ordering.  The steps are ranked Download <
    ResizeOriginal < ConvertOriginal < CropArtOnly < ConvertArtOnly <
    CropArtAndName < ConvertArtAndName, and [sortIssuesByPipelineOrder]
    returns the issues rearranged by that rank; every run of the repair
    loop of a card executes its fixes in at most [maxAttempts] passes,
    each in pipeline order.  For a card whose Original, ArtAndName WebP
    and ArtAndName AVIF are all missing (an uppercase language that is
    not the first, a full-size image served, a codec without faults)
    validation reports the Download alone, and the loop executes, over
    two passes, exactly Download, then ConvertOriginal if the
    Original's AVIF is missing, then CropArtAndName, then
    ConvertArtAndName, all successfully, leaving no issue.  A crop fix
    succeeds only on an Original that is on disk at 734x1024. *)
Theorem C4_pipeline_order :
  map orderIndex allSteps = [0; 1; 2; 3; 4; 5; 6]
  /\ (forall issues,
        Permutation (sortIssuesByPipelineOrder issues) issues
        /\ StronglySorted stepLe (sortIssuesByPipelineOrder issues))
  /\ (forall cardNum lang issues st,
        wp (fixCard cardNum lang issues)
           (fun _ st' =>
              exists passes,
                (length passes <= maxAttempts)%nat
                /\ executed (journal st') = executed (journal st) ++ concat passes
                /\ Forall passSorted passes) st)
  /\ (forall cardNum lang st,
        let paths := getFilePaths cardNum lang in
        faultless ->
        servesFullSize ->
        skipVariants config = false ->
        isFirstLanguage lang = false ->
        downloadDestination cardNum lang = originalWebp paths ->
        NoDup (originalWebp paths :: originalAvif paths :: artAndNameAvif paths
               :: cropFiles (artAndNameWebp paths)) ->
        files st !! originalWebp paths = None ->
        files st !! artAndNameWebp paths = None ->
        files st !! artAndNameAvif paths = None ->
        is_Some (byLanguage (stats st) !! lang) ->
        exists st0 st' px,
          validateCard cardNum lang st
          = (Ok [mkIssue DOWNLOAD (originalWebp paths) lang], st0)
          /\ fixCard cardNum lang [mkIssue DOWNLOAD (originalWebp paths) lang] st0
             = (Ok ([], 2%nat), st')
          /\ executed (journal st')
             = executed (journal st)
               ++ (lang, DOWNLOAD, true)
                  :: match files st !! originalAvif paths with
                     | None => [(lang, CONVERT_ORIGINAL, true)]
                     | Some _ => []
                     end
                  ++ [(lang, CROP_ART_AND_NAME, true);
                      (lang, CONVERT_ART_AND_NAME, true)]
          /\ files st' !! artAndNameWebp paths
             = Some (Image 734 767 (croppedPixels false px)))
  /\ (forall artOnly issue cardNum lang st,
        step issue = cropStep artOnly ->
        wp (fixIssue issue cardNum lang)
           (fun r _ =>
              r = Ok true ->
              exists px, files st !! originalWebp (getFilePaths cardNum lang)
                         = Some (Image 734 1024 px)) st).
Proof.
  split_and!.
  - reflexivity.
  - intros issues. split; [apply sortIssues_perm | apply sortIssues_sorted].
  - intros cardNum lang issues st. unfold fixCard. apply repairLoop_passes.
  - intros cardNum lang st paths Hcodec Hcdn Hskip Hfirst Hdest Hlayout Ho Hw Ha Hl.
    exact (scenario_run cardNum lang Hcodec Hcdn Hskip Hfirst Hdest Hlayout st
             Ho Hw Ha Hl).
  - intros artOnly issue cardNum lang st Hstep.
    eapply wp_mono; [apply (fixIssue_crop_spec artOnly issue cardNum lang st Hstep)|].
    intros r st' (_ & _ & _ & [(_ & Hpx & _) | [-> _]]) Hr; [exact Hpx | discriminate].
Qed.

(** ** More on one validation pass *)

(** X1.  [validateCard] only reads the disk: whether it returns or
    throws, no file is written, no request is made to the CDN, the
    codec writes no image (its metadata is all that is asked of it),
    no fix is recorded and the recovered and failed counters stay as
    they were. *)
Theorem validateCard_only_reads cardNum lang st :
  wp (validateCard cardNum lang)
     (fun _ st' =>
        files st' = files st
        /\ clock st' = clock st
        /\ executed (journal st') = executed (journal st)
        /\ recovered (stats st') = recovered (stats st)
        /\ failed (stats st') = failed (stats st)) st.
Proof.
  eapply wp_mono; [apply validateCard_findings|].
  intros r st' (Hf & Hc & Hj & Hr & Hfa & _). auto.
Qed.

(** What [validateCard] does to the counters, by what it finds on disk
    and by the lookup of the language. *)
Lemma validateCard_stats cardNum lang st :
  wp (validateCard cardNum lang)
     (fun r st' =>
        match findings (files st) cardNum lang with
        | None => (exists e, r = Throw e) /\ stats st' = stats st
        | Some fs =>
            let found := (0 <? length (issuesOf fs))%nat in
            if resolves st lang
            then r = Ok (issuesOf fs)
                 /\ stats st'
                    = mkStats (S (checked (stats st)))
                        (if found then S (missing (stats st)) else missing (stats st))
                        (recovered (stats st)) (failed (stats st)) (skipped (stats st))
                        (match byLanguage (stats st) !! lang with
                         | Some ls =>
                             <[lang := countValidation found ls]> (byLanguage (stats st))
                         | None => byLanguage (stats st)
                         end)
            else r = Throw TypeError /\ stats st' = incr_checked (stats st)
        end) st.
Proof.
  unfold validateCard.
  wp_step.
  apply wp_eq with (r := Ok tt)
    (st' := if verbose config
            then mkState (files st) (stats st)
                   (journal st ++ [(INFO, ValidatingCard (getCardNumber cardNum) lang)])
                   (clock st)
            else st).
  { now destruct (verbose config). }
  set (st0 := if verbose config then _ else st).
  assert (files st0 = files st /\ stats st0 = stats st) as [F0 S0]
    by (subst st0; now destruct (verbose config)).
  wp_step. run_prim. wp_step.
  eapply wp_mono; [apply originalCheck_findings|].
  intros r st1. cbv beta. rewrite F0.
  destruct (findings (files st) cardNum lang) as [fs|].
  - intros [-> ->].
    eapply wp_mono; [apply counters_tail_spec|].
    intros r st' (_ & _ & _ & _ & H). cbv zeta.
    unfold resolves in H |- *. cbn [stats warned] in H. rewrite S0 in H. exact H.
  - intros [[e ->] (_ & Hs & _)]. split; [eauto|]. now rewrite Hs.
Qed.

(** X2.  What a validation that returns does to the counters: the card
    is counted as checked and, exactly when issues are returned, as
    missing (a card with issues); the two counters of the language's
    own entry move the same way.  A language without an entry of its
    own is then a name inherited from [Object.prototype], and no entry
    of [byLanguage] changes.  Every other counter, and the entries of
    the other languages, stay as they were. *)
Theorem validateCard_counts cardNum lang st issues st' :
  validateCard cardNum lang st = (Ok issues, st') ->
  let found := (0 <? length issues)%nat in
  stats st'
  = mkStats (S (checked (stats st)))
      (if found then S (missing (stats st)) else missing (stats st))
      (recovered (stats st)) (failed (stats st)) (skipped (stats st))
      (match byLanguage (stats st) !! lang with
       | Some ls => <[lang := countValidation found ls]> (byLanguage (stats st))
       | None => byLanguage (stats st)
       end)
  /\ (byLanguage (stats st) !! lang = None -> inherited lang = true).
Proof.
  intros E found. subst found.
  pose proof (wp_run _ _ _ (validateCard_stats cardNum lang st) _ _ E) as H.
  cbv beta zeta in H.
  destruct (findings (files st) cardNum lang) as [fs|]; [|now destruct H as [[e [=]] _]].
  unfold resolves in H.
  destruct (byLanguage (stats st) !! lang) as [ls|].
  - destruct H as [[= ->] Hs]. split; [exact Hs | discriminate].
  - destruct (inherited lang); destruct H as [[= <-] Hs]. split; [exact Hs | reflexivity].
Qed.

Lemma artOnlyFindings_issues disk card paths fs :
  artOnlyFindings disk card paths = Some fs ->
  let crop := mkIssue CROP_ART_ONLY (artOnlyWebp paths) "shared" in
  let convert := mkIssue CONVERT_ART_ONLY (artOnlyAvif paths) "shared" in
  issuesOf fs = [] \/ issuesOf fs = [crop] \/ issuesOf fs = [convert]
  \/ issuesOf fs = [crop; convert].
Proof.
  unfold artOnlyFindings.
  destruct (disk !! artOnlyWebp paths) as [[w h px|]|];
    [destruct (h =? 1024);
     [|destruct (Z.abs (h - snd (getExpectedDimensions "art_only")) >? tolerancePx config)]
    | |]; try discriminate;
    destruct (disk !! artOnlyAvif paths); intros [= <-]; cbn; tauto.
Qed.

Lemma artAndNameFindings_issues disk card lang paths fs :
  artAndNameFindings disk card lang paths = Some fs ->
  let crop := mkIssue CROP_ART_AND_NAME (artAndNameWebp paths) lang in
  let convert := mkIssue CONVERT_ART_AND_NAME (artAndNameAvif paths) lang in
  issuesOf fs = [] \/ issuesOf fs = [crop] \/ issuesOf fs = [convert]
  \/ issuesOf fs = [crop; convert].
Proof.
  unfold artAndNameFindings.
  destruct (disk !! artAndNameWebp paths) as [[w h px|]|];
    [destruct (h =? 1024);
     [|destruct (Z.abs (h - snd (getExpectedDimensions "art_and_name"))
                 >? tolerancePx config)]
    | |]; try discriminate;
    destruct (disk !! artAndNameAvif paths); intros [= <-]; cbn; tauto.
Qed.

(** The issues of a validation, read off its findings: a lone download,
    or a selection, in this order, of the six other issues. *)
Lemma findings_issues_shape disk cardNum lang fs :
  findings disk cardNum lang = Some fs ->
  let paths := getFilePaths cardNum lang in
  issuesOf fs = [mkIssue DOWNLOAD (originalWebp paths) lang]
  \/ exists r c ao an,
       issuesOf fs = r ++ c ++ ao ++ an
       /\ (r = [] \/ r = [mkIssue RESIZE_ORIGINAL (originalWebp paths) lang])
       /\ (c = [] \/ c = [mkIssue CONVERT_ORIGINAL (originalAvif paths) lang])
       /\ (ao = [] \/ ao = [mkIssue CROP_ART_ONLY (artOnlyWebp paths) "shared"]
           \/ ao = [mkIssue CONVERT_ART_ONLY (artOnlyAvif paths) "shared"]
           \/ ao = [mkIssue CROP_ART_ONLY (artOnlyWebp paths) "shared";
                    mkIssue CONVERT_ART_ONLY (artOnlyAvif paths) "shared"])
       /\ (an = [] \/ an = [mkIssue CROP_ART_AND_NAME (artAndNameWebp paths) lang]
           \/ an = [mkIssue CONVERT_ART_AND_NAME (artAndNameAvif paths) lang]
           \/ an = [mkIssue CROP_ART_AND_NAME (artAndNameWebp paths) lang;
                    mkIssue CONVERT_ART_AND_NAME (artAndNameAvif paths) lang]).
Proof.
  intros Hfs paths.
  destruct (disk !! originalWebp paths) as [[w h px|]|] eqn:Ho.
  - right.
    destruct (findings_existing _ _ _ _ _ _ _ Ho Hfs) as (ao & an & -> & Hao & Han).
    fold paths in Hao, Han |- *.
    eexists _, _, (issuesOf ao), (issuesOf an).
    rewrite !issuesOf_app. split; [reflexivity|]. split_and!.
    + destruct (negb (w =? 734) || negb (h =? 1024)); cbn; tauto.
    + destruct (disk !! originalAvif paths); cbn; tauto.
    + destruct (negb (skipVariants config) && isFirstLanguage lang).
      * exact (artOnlyFindings_issues _ _ _ _ Hao).
      * injection Hao as <-. now left.
    + destruct (negb (skipVariants config)).
      * exact (artAndNameFindings_issues _ _ _ _ _ Han).
      * injection Han as <-. now left.
  - unfold findings in Hfs. fold paths in Hfs. rewrite Ho in Hfs. discriminate.
  - left. unfold findings in Hfs. fold paths in Hfs. rewrite Ho in Hfs.
    now injection Hfs as <-.
Qed.

Lemma findings_issues_sorted disk cardNum lang fs :
  findings disk cardNum lang = Some fs ->
  sortIssuesByPipelineOrder (issuesOf fs) = issuesOf fs
  /\ NoDup (map step (issuesOf fs)).
Proof.
  intros Hfs.
  destruct (findings_issues_shape _ _ _ _ Hfs)
    as [-> | (r & c & ao & an & -> & Hr & Hc & Hao & Han)].
  - split; [reflexivity | repeat constructor; apply not_elem_of_nil].
  - destruct Hr as [-> | ->], Hc as [-> | ->], Hao as [-> | [-> | [-> | ->]]],
        Han as [-> | [-> | [-> | ->]]]; cbn [app map step];
      (split;
       [ apply sortIssues_id; repeat constructor; unfold stepLe; cbn; lia
       | apply NoDup_ListNoDup; repeat constructor; cbn; intuition discriminate ]).
Qed.

(** X3.  The issues [validateCard] returns come out in pipeline order
    already, so the sort of the first repair pass leaves them as they
    are; no step occurs twice; and a DOWNLOAD issue is never
    accompanied by another issue. *)
Theorem validateCard_issues_in_pipeline_order cardNum lang st issues st' :
  validateCard cardNum lang st = (Ok issues, st') ->
  sortIssuesByPipelineOrder issues = issues
  /\ NoDup (map step issues)
  /\ (In DOWNLOAD (map step issues) ->
      issues = [mkIssue DOWNLOAD (originalWebp (getFilePaths cardNum lang)) lang]).
Proof.
  intros E. destruct (validateCard_inv _ _ _ _ _ E) as (fs & Hfs & -> & _).
  destruct (findings_issues_sorted _ _ _ _ Hfs) as [Hsort Hnodup].
  split_and!; [exact Hsort | exact Hnodup |].
  destruct (findings_issues_shape _ _ _ _ Hfs)
    as [-> | (r & c & ao & an & -> & Hr & Hc & Hao & Han)]; [auto|].
  destruct Hr as [-> | ->], Hc as [-> | ->], Hao as [-> | [-> | [-> | ->]]],
      Han as [-> | [-> | [-> | ->]]]; cbn; intuition discriminate.
Qed.

(** ** The constructor's counters *)

Lemma initByLanguage_fold langs (m : gmap string LangStats) lang :
  fold_left (fun byLang l => <[l := zeroCounters]> byLang) langs m !! lang
  = if bool_decide (lang ∈ langs) then Some zeroCounters else m !! lang.
Proof.
  revert m. induction langs as [|l langs IH]; intros m; cbn [fold_left].
  - rewrite bool_decide_false; [reflexivity | apply not_elem_of_nil].
  - rewrite IH. destruct (decide (lang ∈ langs)) as [Hin|Hout].
    + rewrite !bool_decide_true; [reflexivity | now right | exact Hin].
    + rewrite (bool_decide_false _ Hout). destruct (decide (lang = l)) as [->|Hne].
      * rewrite lookup_insert_eq, bool_decide_true; [reflexivity | now left].
      * rewrite lookup_insert_ne by congruence.
        rewrite bool_decide_false; [reflexivity|].
        rewrite elem_of_cons. tauto.
Qed.

Lemma constructor_counters disk lang :
  byLanguage (stats (constructor disk)) !! lang
  = if bool_decide (lang ∈ languages config) then Some zeroCounters else None.
Proof.
  unfold constructor, initByLanguage. cbn [stats byLanguage].
  now rewrite initByLanguage_fold, lookup_empty.
Qed.

(** X4.  On a validator fresh from the constructor and a disk of
    decodable files, [validateCard] returns for every configured
    language.  For a language that is not in [config.languages] it
    throws a TypeError, having already counted the card as checked,
    unless the language is a name every object inherits from
    [Object.prototype] (such as [constructor] or [toString]): then it
    returns as well, and no entry of [byLanguage] is changed. *)
Theorem validateCard_after_constructor cardNum lang disk :
  decodable disk ->
  (lang ∈ languages config ->
   exists issues st',
     validateCard cardNum lang (constructor disk) = (Ok issues, st'))
  /\ (lang ∉ languages config -> inherited lang = false ->
      exists st',
        validateCard cardNum lang (constructor disk) = (Throw TypeError, st')
        /\ files st' = disk
        /\ checked (stats st') = 1%nat)
  /\ (lang ∉ languages config -> inherited lang = true ->
      exists issues st',
        validateCard cardNum lang (constructor disk) = (Ok issues, st')
        /\ files st' = disk
        /\ checked (stats st') = 1%nat
        /\ byLanguage (stats st') = byLanguage (stats (constructor disk))).
Proof.
  intros Hd.
  destruct (findings_decodable disk cardNum lang Hd) as [fs Hfs].
  pose proof (validateCard_stats cardNum lang (constructor disk)) as Hs.
  pose proof (validateCard_findings cardNum lang (constructor disk)) as Hv.
  unfold wp in Hs, Hv.
  destruct (validateCard cardNum lang (constructor disk)) as [r st'].
  cbn [fst snd] in Hs, Hv. destruct Hv as (Hf & _).
  change (files (constructor disk)) with disk in Hs, Hf.
  rewrite Hfs in Hs. cbv zeta in Hs. unfold resolves in Hs.
  rewrite constructor_counters in Hs.
  split_and!; intros Hl.
  - rewrite bool_decide_true in Hs by exact Hl. destruct Hs as [-> _]. eauto.
  - intros Hinh. rewrite bool_decide_false, Hinh in Hs by exact Hl.
    destruct Hs as [-> Hs]. exists st'. rewrite Hs. auto.
  - intros Hinh. rewrite bool_decide_false, Hinh in Hs by exact Hl.
    destruct Hs as [-> Hs]. exists (issuesOf fs), st'. rewrite Hs. auto.
Qed.

(** ** Phase 1 and the dry run *)

Lemma untouched_refl st : untouched st st.
Proof. unfold untouched. split_and!; auto. Qed.

Lemma untouched_trans st st' st'' :
  untouched st st' -> untouched st' st'' -> untouched st st''.
Proof.
  unfold untouched. intros (F & C & J & R & Fa & D) (F' & C' & J' & R' & Fa' & D').
  split_and!; try congruence. intros x. now rewrite D'.
Qed.

Lemma validateCard_untouched cardNum lang st :
  wp (validateCard cardNum lang)
     (fun r st' =>
        untouched st st'
        /\ match r with
           | Ok _ => checked (stats st') = S (checked (stats st))
                     /\ is_Some (findings (files st) cardNum lang)
           | Throw _ => True
           end) st.
Proof.
  eapply wp_mono; [apply validateCard_findings|].
  intros r st' (Hf & Hc & Hj & Hr & Hfa & Hd & _ & Hres).
  split; [unfold untouched; split_and!; assumption|].
  destruct r as [issues|e]; [|exact I].
  destruct Hres as (fs & -> & _ & _ & Hchk & _). eauto.
Qed.

Lemma validateCards_phase1 lang cards acc st :
  wp (validateCards lang cards acc)
     (fun r st' =>
        untouched st st'
        /\ match r with
           | Ok _ =>
               checked (stats st') = (checked (stats st) + length cards)%nat
               /\ Forall (fun c => is_Some (findings (files st) c lang)) cards
           | Throw _ => True
           end) st.
Proof.
  revert acc st. induction cards as [|cardNum cards IH]; intros acc st; cbn [validateCards].
  - unfold wp. cbn. split; [apply untouched_refl|]. split; [lia | constructor].
  - wp_step. eapply wp_mono; [apply validateCard_untouched|].
    intros [issues|e] st1 [Hu Hr]; [|auto].
    destruct Hr as [Hchk Hfs].
    eapply wp_mono; [apply IH|].
    intros r st' [Hu' Hr']. split; [eapply untouched_trans; eauto|].
    destruct r as [all|e]; [|exact I].
    destruct Hr' as [Hchk' Hall]. destruct Hu as (Hf & _).
    rewrite Hf in Hall. split; [cbn [length]; lia | now constructor].
Qed.

Lemma validateLanguages_phase1 langs acc st :
  wp (validateLanguages langs acc)
     (fun r st' =>
        untouched st st'
        /\ match r with
           | Ok _ =>
               checked (stats st')
               = (checked (stats st) + length langs * length cardNumbers)%nat
               /\ Forall (fun lang =>
                            Forall (fun c => is_Some (findings (files st) c lang))
                                   cardNumbers) langs
           | Throw _ => True
           end) st.
Proof.
  revert acc st. induction langs as [|lang langs IH]; intros acc st;
    cbn [validateLanguages].
  - unfold wp. cbn. split; [apply untouched_refl|]. split; [lia | constructor].
  - wp_step. eapply wp_mono; [apply validateCards_phase1|].
    intros [all|e] st1 [Hu Hr]; [|auto].
    destruct Hr as [Hchk Hfs].
    eapply wp_mono; [apply IH|].
    intros r st' [Hu' Hr']. split; [eapply untouched_trans; eauto|].
    destruct r as [all'|e]; [|exact I].
    destruct Hr' as [Hchk' Hall]. destruct Hu as (Hf & _).
    rewrite Hf in Hall. split; [cbn [length]; lia | now constructor].
Qed.

Lemma cardNumbers_length :
  length cardNumbers
  = N.to_nat (snd (cardRange config) + 1 - fst (cardRange config)).
Proof.
  unfold cardNumbers. destruct (cardRange config) as [first last]. cbn [fst snd].
  destruct (N.ltb_spec last first) as [Hlt|Hle].
  - cbn. lia.
  - rewrite length_map, length_seq. lia.
Qed.

Lemma cardNumbers_range cardNum :
  cardNum ∈ cardNumbers
  <-> (fst (cardRange config) <= cardNum <= snd (cardRange config))%N.
Proof.
  unfold cardNumbers. destruct (cardRange config) as [first last]. cbn [fst snd].
  destruct (N.ltb_spec last first) as [Hlt|Hle].
  - rewrite elem_of_nil. lia.
  - rewrite list_elem_of_In, in_map_iff. split.
    + intros (i & <- & Hi). apply in_seq in Hi. lia.
    + intros H. exists (N.to_nat (cardNum - first)). split; [lia|].
      apply in_seq. lia.
Qed.

(** With [autoFix] off the run ends after phase 1. *)
Lemma dry_run_untouched st :
  autoFix config = false ->
  wp runPhases (fun _ st' => untouched st st') st.
Proof.
  intros Hdry. unfold runPhases. wp_step.
  eapply wp_mono; [apply validateLanguages_phase1|].
  intros [all|e] st1 [Hun _]; [|exact Hun].
  rewrite Hdry. destruct (length all =? 0)%nat; run_prim; exact Hun.
Qed.

Lemma runPhases_dry_run st :
  autoFix config = false ->
  wp runPhases
     (fun r st' =>
        untouched st st'
        /\ forall outcomes,
             r = Ok outcomes ->
             checked (stats st')
             = (checked (stats st)
                + length (languages config)
                  * N.to_nat (snd (cardRange config) + 1 - fst (cardRange config)))%nat)
     st.
Proof.
  intros Hdry. unfold runPhases. wp_step.
  eapply wp_mono; [apply validateLanguages_phase1|].
  intros [all|e] st1 [Hun Hres].
  - destruct Hres as [Hchk _]. rewrite cardNumbers_length in Hchk.
    rewrite Hdry. destruct (length all =? 0)%nat; run_prim; (split; [exact Hun | auto]).
  - split; [exact Hun|]. intros outcomes [=].
Qed.

(** X5.  A dry run ([autoFix] off) changes nothing but the report: no
    request is made to the CDN, the codec writes no image, no fix is
    attempted and the recovered and failed counters stay as they were.
    If the run returns, the report is the only file written and every
    card of the range was checked once per language; if it throws, no
    file is written at all. *)
Theorem dry_run_changes_nothing isoTime now st :
  autoFix config = false ->
  wp (validateAndFixAll isoTime now)
     (fun r st' =>
        clock st' = clock st
        /\ executed (journal st') = executed (journal st)
        /\ recovered (stats st') = recovered (stats st)
        /\ failed (stats st') = failed (stats st)
        /\ match r with
           | Ok report =>
               files st' = <[reportPath now := Corrupt]> (files st)
               /\ checked (stats st')
                  = (checked (stats st)
                     + length (languages config)
                       * N.to_nat (snd (cardRange config) + 1
                                   - fst (cardRange config)))%nat
               /\ checkedCards (summary report) = checked (stats st')
           | Throw _ => files st' = files st
           end) st.
Proof.
  intros Hdry. eapply wp_mono; [apply validateAndFixAll_inv|].
  intros r st' (r1 & st1 & E & Hs & Hj & Hc & H).
  destruct (wp_run _ _ _ (runPhases_dry_run st Hdry) _ _ E)
    as [(Hf1 & Hc1 & Hj1 & Hr1 & Hfa1 & _) Hchk].
  rewrite Hs, Hj, Hc. split_and!; auto.
  destruct r as [report|e].
  - destruct H as ([outcomes ->] & _ & Hf & _ & Hck & _).
    rewrite Hf, Hf1, Hck. split_and!; eauto.
  - destruct H as [Hf _]. congruence.
Qed.

Lemma runPhases_undecodable cardNum lang st :
  lang ∈ languages config ->
  (fst (cardRange config) <= cardNum <= snd (cardRange config))%N ->
  files st !! originalWebp (getFilePaths cardNum lang) = Some Corrupt ->
  exists e st',
    runPhases st = (Throw e, st')
    /\ files st' = files st
    /\ executed (journal st') = executed (journal st).
Proof.
  intros Hl Hc Ho. apply cardNumbers_range in Hc.
  assert (findings (files st) cardNum lang = None) as Hnone
    by (unfold findings; now rewrite Ho).
  pose proof (validateLanguages_phase1 (languages config) [] st) as H.
  unfold runPhases, bind. unfold wp in H.
  destruct (validateLanguages (languages config) [] st) as [[all|e] st1];
    cbn [fst snd] in H.
  - destruct H as [_ [_ Hall]]. exfalso.
    rewrite Forall_forall in Hall. specialize (Hall _ Hl).
    rewrite Forall_forall in Hall. specialize (Hall _ Hc).
    rewrite Hnone in Hall. now destruct Hall.
  - destruct H as [(Hf & _ & Hj & _) _]. eauto.
Qed.

(** X6.  An Original WebP that sharp cannot decode, for any card of the
    range and any configured language, aborts the whole run in phase 1:
    [validateAndFixAll] throws, no fix has been attempted and no file
    has been changed or written, the report included. *)
Theorem undecodable_original_aborts_run isoTime now cardNum lang st :
  lang ∈ languages config ->
  (fst (cardRange config) <= cardNum <= snd (cardRange config))%N ->
  files st !! originalWebp (getFilePaths cardNum lang) = Some Corrupt ->
  exists e st',
    validateAndFixAll isoTime now st = (Throw e, st')
    /\ files st' = files st
    /\ executed (journal st') = executed (journal st).
Proof.
  intros Hl Hc Ho.
  destruct (runPhases_undecodable cardNum lang st Hl Hc Ho) as (e & st1 & E & Hf & Hj).
  exists e, st1. split_and!; [|exact Hf | exact Hj].
  unfold validateAndFixAll, bind. now rewrite E.
Qed.

(** ** The counters of the configured languages during a run *)

Lemma repairLoop_dom budget cardNum lang issues st :
  wp (repairLoop budget cardNum lang issues)
     (fun _ st' => forall x, is_Some (byLanguage (stats st') !! x)
                             <-> is_Some (byLanguage (stats st) !! x)) st.
Proof.
  revert issues st. induction budget as [|budget IH]; intros issues st;
    cbn [repairLoop].
  - unfold wp. cbn. tauto.
  - destruct (0 <? length issues)%nat; [|unfold wp; cbn; tauto].
    wp_step. eapply wp_mono; [apply (fixAll_spec allSteps)|].
    { apply List.Forall_forall. intros i _. apply in_allSteps. }
    intros r st1 (-> & _ & _ & _ & Hdom1).
    wp_step. eapply wp_mono; [apply validateCard_findings|].
    intros [rest|e] st2 (_ & _ & _ & _ & _ & Hdom2 & _).
    + destruct (length rest =? 0)%nat.
      * run_prim. intros x. etransitivity; [apply Hdom2 | apply Hdom1].
      * eapply wp_mono; [apply IH|]. intros r st' Hdom' x.
        etransitivity; [apply Hdom'|]. etransitivity; [apply Hdom2 | apply Hdom1].
    + intros x. etransitivity; [apply Hdom2 | apply Hdom1].
Qed.

Lemma fixCards_dom allIssues st :
  wp (fixCards allIssues)
     (fun _ st' => forall x, is_Some (byLanguage (stats st') !! x)
                             <-> is_Some (byLanguage (stats st) !! x)) st.
Proof.
  revert st. induction allIssues as [|[[cardNum lang] issues] rest IH]; intros st;
    cbn [fixCards].
  - unfold wp. cbn. tauto.
  - wp_step. unfold fixCard. eapply wp_mono; [apply repairLoop_dom|].
    intros [outcome|e] st1 Hdom1; [|exact Hdom1].
    wp_step. eapply wp_mono; [apply IH|].
    intros [outcomes|e] st' Hdom'.
    + run_prim. intros x. etransitivity; [apply Hdom' | apply Hdom1].
    + intros x. etransitivity; [apply Hdom' | apply Hdom1].
Qed.

Lemma runPhases_dom st :
  wp runPhases
     (fun _ st' => forall x, is_Some (byLanguage (stats st') !! x)
                             <-> is_Some (byLanguage (stats st) !! x)) st.
Proof.
  unfold runPhases. wp_step.
  eapply wp_mono; [apply validateLanguages_phase1|].
  intros [all|e] st1 [(_ & _ & _ & _ & _ & Hdom1) _]; [|exact Hdom1].
  destruct (length all =? 0)%nat; [|destruct (negb (autoFix config))];
    try (run_prim; exact Hdom1).
  eapply wp_mono; [apply fixCards_dom|]. intros r st' Hdom' x.
  etransitivity; [apply Hdom' | apply Hdom1].
Qed.

(** From the constructor on, every configured language keeps its
    counters, so the report at the end of the phases is always
    written. *)
Lemma runPhases_constructor_resolves disk r st1 :
  runPhases (constructor disk) = (r, st1) ->
  forallb (resolves st1) (languages config) = true.
Proof.
  intros E. apply forallb_forall. intros lang Hl. apply list_elem_of_In in Hl.
  apply resolves_counters.
  apply (wp_run _ _ _ (runPhases_dom (constructor disk)) _ _ E).
  rewrite constructor_counters, bool_decide_true by exact Hl. eauto.
Qed.

Lemma validateAndFixAll_constructor isoTime now disk r1 st1 :
  runPhases (constructor disk) = (r1, st1) ->
  match r1 with
  | Ok _ =>
      exists report,
        validateAndFixAll isoTime now (constructor disk)
        = (Ok report, set_files (insert (reportPath now) Corrupt) st1)
        /\ failedRecoveries (summary report) = failed (stats st1)
        /\ cardsWithIssues (summary report) = missing (stats st1)
  | Throw e => validateAndFixAll isoTime now (constructor disk) = (Throw e, st1)
  end.
Proof.
  intros E. pose proof (runPhases_constructor_resolves disk r1 st1 E) as Hres.
  unfold validateAndFixAll, bind. rewrite E. destruct r1 as [outcomes|e]; [|reflexivity].
  unfold generateReport, bind. rewrite readCounters_forEach, Hres.
  eexists. split; [reflexivity|]. cbn. auto.
Qed.

(** ** The counters of the fixes *)

Lemma byLanguage_incr_guarded_exact f lang st :
  byLanguage_incr_guarded f lang st
  = (Ok tt,
     set_stats (fun s => match lang, byLanguage s !! lang with
                         | String _ _, Some l => set_byLanguage lang (f l) s
                         | _, _ => s
                         end) st).
Proof.
  unfold byLanguage_incr_guarded.
  destruct lang as [|c lang]; [now destruct st|].
  unfold set_stats.
  destruct (byLanguage (stats st) !! String c lang); [reflexivity | now destruct st].
Qed.

(** X7.  [fixIssue] never throws.  Every call is recorded once, as
    fixed or as failed, and moves exactly one global counter by one:
    [recovered] when it returns true, [failed] when it returns false.
    The counters of the language move the same way when the language is
    a non-empty string that has counters, and not at all otherwise;
    [checked], [missing] and [skipped] are never touched. *)
Theorem fixIssue_counts_once issue cardNum lang st :
  wp (fixIssue issue cardNum lang)
     (fun r st' =>
        exists fixed,
          r = Ok fixed
          /\ executed (journal st') = executed (journal st) ++ [(lang, step issue, fixed)]
          /\ stats st'
             = mkStats (checked (stats st)) (missing (stats st))
                 (if fixed then S (recovered (stats st)) else recovered (stats st))
                 (if fixed then failed (stats st) else S (failed (stats st)))
                 (skipped (stats st))
                 (match lang, byLanguage (stats st) !! lang with
                  | String _ _, Some l =>
                      <[lang := countFix fixed l]> (byLanguage (stats st))
                  | _, _ => byLanguage (stats st)
                  end)) st.
Proof.
  unfold fixIssue. apply wp_try_catch. apply wp_bind.
  eapply wp_mono; [apply confined_fix_operation|].
  intros [[]|e] st1 (Hs & Hj & Hf).
  - wp_step. run_prim. wp_step.
    eapply wp_eq; [apply byLanguage_incr_guarded_exact|].
    wp_step. run_prim. run_prim. exists true.
    split; [reflexivity|]. split; [rewrite executed_app, Hj; reflexivity|].
    cbn [stats set_stats incr_recovered byLanguage]. rewrite Hs.
    destruct lang as [|c lang];
      [|destruct (byLanguage (stats st) !! String c lang) as [l|]];
      destruct (stats st); reflexivity.
  - wp_step. run_prim. wp_step.
    eapply wp_eq; [apply byLanguage_incr_guarded_exact|].
    wp_step. run_prim. run_prim. exists false.
    split; [reflexivity|]. split; [rewrite executed_app, Hj; reflexivity|].
    cbn [stats set_stats incr_failed byLanguage]. rewrite Hs.
    destruct lang as [|c lang];
      [|destruct (byLanguage (stats st) !! String c lang) as [l|]];
      destruct (stats st); reflexivity.
Qed.

Lemma successes_app es es' : successes (es ++ es') = (successes es + successes es')%nat.
Proof. unfold successes. now rewrite List.filter_app, length_app. Qed.

Lemma failures_app es es' : failures (es ++ es') = (failures es + failures es')%nat.
Proof. unfold failures. now rewrite List.filter_app, length_app. Qed.

Lemma successes_failures es : (successes es + failures es)%nat = length es.
Proof.
  unfold successes, failures. induction es as [|[[l s] []] es IH]; cbn in *; lia.
Qed.

Lemma tallied_refl st : tallied st st [].
Proof. unfold tallied. cbn. rewrite app_nil_r. split_and!; auto. Qed.

Lemma tallied_trans st st' st'' es es' :
  tallied st st' es -> tallied st' st'' es' -> tallied st st'' (es ++ es').
Proof.
  unfold tallied. intros (J & R & F) (J' & R' & F').
  rewrite successes_app, failures_app, J', J, R', R, F', F, app_assoc.
  split_and!; auto; lia.
Qed.

Lemma tallied_untouched st st' : untouched st st' -> tallied st st' [].
Proof.
  unfold tallied. intros (_ & _ & J & R & F & _). cbn. rewrite app_nil_r.
  split_and!; auto; lia.
Qed.

Lemma fixIssue_tallied issue cardNum lang st :
  wp (fixIssue issue cardNum lang)
     (fun r st' =>
        exists b, r = Ok b
                  /\ tallied st st' [(lang, step issue, b)]
                  /\ checked (stats st') = checked (stats st)) st.
Proof.
  eapply wp_mono; [apply fixIssue_spec|].
  intros r st' (b & -> & _ & Hj & Hc & _ & Hr & Hf).
  exists b. split; [reflexivity|]. split; [|exact Hc].
  unfold tallied, successes, failures. destruct b; cbn; split_and!; auto; lia.
Qed.

Lemma fixAll_tallied cardNum lang issues st :
  wp (forEach (fun issue => do _ <- fixIssue issue cardNum lang; ret tt) issues)
     (fun r st' =>
        r = Ok tt
        /\ checked (stats st') = checked (stats st)
        /\ exists es, tallied st st' es /\ length es = length issues) st.
Proof.
  revert st. induction issues as [|i issues IH]; intros st; cbn [forEach].
  - unfold wp. cbn. split_and!; auto. exists []. split; [apply tallied_refl | reflexivity].
  - wp_step. wp_step. eapply wp_mono; [apply fixIssue_tallied|].
    intros r st1 (b & -> & Ht & Hc). run_prim.
    eapply wp_mono; [apply IH|].
    intros r st' (-> & Hc' & es & Ht' & Hlen).
    split_and!; [reflexivity | congruence |].
    eexists. split; [eapply tallied_trans; eauto|]. cbn. now rewrite Hlen.
Qed.

Lemma validateCard_tallied cardNum lang st :
  wp (validateCard cardNum lang)
     (fun r st' =>
        tallied st st' []
        /\ match r with
           | Ok issues =>
               checked (stats st') = S (checked (stats st))
               /\ exists fs, findings (files st') cardNum lang = Some fs
                             /\ issues = issuesOf fs
           | Throw _ => True
           end) st.
Proof.
  eapply wp_mono; [apply validateCard_findings|].
  intros r st' (Hf & Hc & Hj & Hr & Hfa & Hd & _ & Hres).
  split.
  { apply tallied_untouched. unfold untouched. split_and!; assumption. }
  destruct r as [issues|e]; [|exact I].
  destruct Hres as (fs & Hfs & -> & _ & Hchk & _).
  split; [exact Hchk|]. exists fs. rewrite Hf. auto.
Qed.

(** The loop, pass by pass: what it records, how often it validates,
    and when it stops. *)
Lemma repairLoop_exit budget cardNum lang issues st :
  (budget <= maxAttempts)%nat ->
  wp (repairLoop budget cardNum lang issues)
     (fun r st' =>
        (exists es, tallied st st' es)
        /\ forall rest attempt,
             r = Ok (rest, attempt) ->
             (maxAttempts - budget <= attempt <= maxAttempts)%nat
             /\ checked (stats st')
                = (checked (stats st) + (attempt - (maxAttempts - budget)))%nat
             /\ (rest = [] \/ attempt = maxAttempts)
             /\ (attempt = (maxAttempts - budget)%nat -> rest = issues /\ st' = st)
             /\ ((maxAttempts - budget < attempt)%nat ->
                 issues <> []
                 /\ exists fs, findings (files st') cardNum lang = Some fs
                               /\ rest = issuesOf fs)) st.
Proof.
  revert issues st. induction budget as [|budget IH]; intros issues st Hb.
  - unfold wp. cbn [repairLoop ret fst snd]. split; [eexists; apply tallied_refl|].
    intros rest attempt [= <- <-].
    split_and!; unfold maxAttempts in *; try lia; auto; intros; lia.
  - cbn [repairLoop]. destruct issues as [|i issues].
    + unfold wp. cbn [length Nat.ltb Nat.leb ret fst snd].
      split; [eexists; apply tallied_refl|].
      intros rest attempt [= <- <-].
      split_and!; unfold maxAttempts in *; try lia; auto; intros; lia.
    + cbn [length Nat.ltb Nat.leb]. wp_step.
      eapply wp_mono; [apply fixAll_tallied|].
      intros r st1 (-> & Hc1 & es1 & Ht1 & _).
      wp_step. eapply wp_mono; [apply validateCard_tallied|].
      intros [rest|e] st2 [Ht2 Hr2].
      2: { split; [|intros ? ? [=]]. eexists. eapply tallied_trans; eauto. }
      destruct Hr2 as (Hc2 & fs & Hfs & ->).
      pose proof (tallied_trans _ _ _ _ _ Ht1 Ht2) as Ht12.
      destruct (length (issuesOf fs) =? 0)%nat eqn:Elen.
      * run_prim. split; [eauto|].
        intros rest attempt [= <- <-].
        apply Nat.eqb_eq in Elen. apply length_zero_iff_nil in Elen.
        unfold maxAttempts in *.
        split_and!; [lia | lia | lia | now left | intros; lia |].
        intros _. split; [discriminate | eauto].
      * eapply wp_mono; [apply IH; lia|].
        intros r st' [[es' Ht'] Hr'].
        split; [eexists; eapply tallied_trans; eauto|].
        intros rest attempt ->.
        destruct (Hr' _ _ eq_refl) as (Hat & Hchk & Hstop & Hsame & Hlater).
        apply Nat.eqb_neq in Elen. unfold maxAttempts in *.
        split_and!; [lia | lia | lia | exact Hstop | intros; lia |].
        intros _. split; [discriminate|].
        destruct (decide (attempt = (3 - budget)%nat)) as [Heq|Hne].
        -- destruct (Hsame Heq) as [-> ->]. eauto.
        -- apply Hlater. lia.
Qed.

(** X8.  When the repair loop of a card stops.  If [fixCard] returns,
    it made at most [maxAttempts] passes and validated the card once
    per pass; either it returns no issue or all [maxAttempts] passes
    were made; and it makes no pass at all exactly when it is given no
    issue, in which case nothing changes. *)
Theorem fixCard_stops cardNum lang issues st :
  wp (fixCard cardNum lang issues)
     (fun r st' =>
        forall rest attempt,
          r = Ok (rest, attempt) ->
          (attempt <= maxAttempts)%nat
          /\ checked (stats st') = (checked (stats st) + attempt)%nat
          /\ (rest = [] \/ attempt = maxAttempts)
          /\ (attempt = 0%nat <-> issues = [])
          /\ (issues = [] -> rest = [] /\ st' = st)) st.
Proof.
  unfold fixCard.
  eapply wp_mono; [apply repairLoop_exit; lia|].
  intros r st' [_ H] rest attempt ->.
  destruct (H _ _ eq_refl) as (Hat & Hchk & Hstop & Hsame & Hlater).
  rewrite Nat.sub_diag in *. rewrite Nat.sub_0_r in Hchk.
  split_and!; [lia | exact Hchk | exact Hstop | |].
  - split.
    + intros ->. destruct (Hsame eq_refl) as [-> _].
      destruct Hstop as [H0 | H0]; [exact H0 | discriminate H0].
    + intros ->. destruct (Nat.eq_dec attempt 0%nat) as [H0|H0]; [exact H0|].
      destruct Hlater as [Hne _]; [lia | now destruct Hne].
  - intros ->. destruct (Nat.eq_dec attempt 0%nat) as [->|H0]; [now apply Hsame|].
    destruct Hlater as [Hne _]; [lia | now destruct Hne].
Qed.

Lemma fixCards_tallied allIssues st :
  wp (fixCards allIssues)
     (fun r st' =>
        (exists es, tallied st st' es)
        /\ forall outcomes,
             r = Ok outcomes ->
             length outcomes = length allIssues
             /\ checked (stats st')
                = (checked (stats st) + list_sum (map snd outcomes))%nat) st.
Proof.
  revert st. induction allIssues as [|[[cardNum lang] issues] rest IH]; intros st;
    cbn [fixCards].
  - unfold wp. cbn. split; [eexists; apply tallied_refl|].
    intros outcomes [= <-]. cbn. split; [reflexivity | lia].
  - wp_step. unfold fixCard.
    eapply wp_mono; [apply repairLoop_exit; lia|].
    intros [[left attempt]|e] st1 [[es1 Ht1] H1].
    2: { split; [eauto | intros ? [=]]. }
    destruct (H1 _ _ eq_refl) as (_ & Hchk & _). rewrite Nat.sub_diag, Nat.sub_0_r in Hchk.
    wp_step. eapply wp_mono; [apply IH|].
    intros [outcomes|e] st' [[es' Ht'] H'].
    2: { split; [eexists; eapply tallied_trans; eauto | intros ? [=]]. }
    run_prim. split; [eexists; eapply tallied_trans; eauto|].
    intros ? [= <-]. destruct (H' _ eq_refl) as [Hlen Hchk'].
    unfold list_sum in *. cbn [length map fold_right snd].
    split; [now rewrite Hlen | lia].
Qed.

(** The fixes of a whole run and the two counters of fixes. *)
Lemma run_tallied st :
  wp runPhases (fun _ st' => exists es, tallied st st' es) st.
Proof.
  unfold runPhases. wp_step.
  eapply wp_mono; [apply validateLanguages_phase1|].
  intros [all|e] st1 [Hu _]; pose proof (tallied_untouched _ _ Hu) as Ht.
  2: { exists []. exact Ht. }
  destruct (length all =? 0)%nat; [|destruct (negb (autoFix config))];
    try (run_prim; exists []; exact Ht).
  eapply wp_mono; [apply fixCards_tallied|].
  intros r st' [[es Ht'] _]. exists ([] ++ es). eapply tallied_trans; eauto.
Qed.

Lemma validateAndFixAll_tallied isoTime now st :
  wp (validateAndFixAll isoTime now) (fun _ st' => exists es, tallied st st' es) st.
Proof.
  eapply wp_mono; [apply validateAndFixAll_inv|].
  intros r st' (r1 & st1 & E & Hs & Hj & _).
  destruct (wp_run _ _ _ (run_tallied st) _ _ E) as [es Ht].
  exists es. unfold tallied in *. now rewrite Hs, Hj.
Qed.

Lemma runPhases_counters st :
  wp runPhases
     (fun r st' =>
        (exists es,
            executed (journal st') = executed (journal st) ++ es
            /\ recovered (stats st') = (recovered (stats st) + successes es)%nat
            /\ failed (stats st') = (failed (stats st) + failures es)%nat)
        /\ forall outcomes,
             r = Ok outcomes ->
             checked (stats st')
             = (checked (stats st)
                + length (languages config)
                  * N.to_nat (snd (cardRange config) + 1 - fst (cardRange config))
                + list_sum (map snd outcomes))%nat) st.
Proof.
  unfold runPhases. wp_step.
  eapply wp_mono; [apply validateLanguages_phase1|].
  intros [all|e] st1 [Hu Hres].
  2: { split; [exists []; now apply tallied_untouched | intros ? [=]]. }
  destruct Hres as [Hchk _]. rewrite cardNumbers_length in Hchk.
  pose proof (tallied_untouched _ _ Hu) as Ht.
  destruct (length all =? 0)%nat; [|destruct (negb (autoFix config))].
  - run_prim. split; [exists []; exact Ht|]. intros ? [= <-]. cbn. lia.
  - run_prim. split; [exists []; exact Ht|]. intros ? [= <-]. cbn. lia.
  - eapply wp_mono; [apply fixCards_tallied|].
    intros r st' [[es Ht'] H'].
    split; [exists ([] ++ es); eapply tallied_trans; eauto|].
    intros outcomes ->. destruct (H' _ eq_refl) as [_ Hc]. lia.
Qed.

(** X9.  The counters of a whole run.  Between the start and the end of
    [validateAndFixAll], whether it returns or throws, [recovered] grows
    by the number of fix attempts that succeeded and [failed] by the
    number that failed (they count attempts, not cards).  If the run
    returns, [checked] has grown by one per language and card of the
    range, plus one per repair pass, and the report shows that
    count. *)
Theorem run_counters isoTime now st :
  wp (validateAndFixAll isoTime now)
     (fun r st' =>
        (exists es,
            executed (journal st') = executed (journal st) ++ es
            /\ recovered (stats st') = (recovered (stats st) + successes es)%nat
            /\ failed (stats st') = (failed (stats st) + failures es)%nat)
        /\ forall report,
             r = Ok report ->
             exists outcomes st1,
               runPhases st = (Ok outcomes, st1)
               /\ checked (stats st')
                  = (checked (stats st)
                     + length (languages config)
                       * N.to_nat (snd (cardRange config) + 1 - fst (cardRange config))
                     + list_sum (map snd outcomes))%nat
               /\ checkedCards (summary report) = checked (stats st')) st.
Proof.
  eapply wp_mono; [apply validateAndFixAll_inv|].
  intros r st' (r1 & st1 & E & Hs & Hj & _ & H).
  destruct (wp_run _ _ _ (runPhases_counters st) _ _ E) as [Hes Hchk].
  rewrite Hs, Hj. split; [exact Hes|].
  intros report ->. destruct H as ([outcomes ->] & _ & _ & _ & Hck & _).
  exists outcomes, st1. split_and!; [exact E | now apply Hchk | exact Hck].
Qed.

(** X10.  Each fix writes only the files of its step, whatever the CDN
    and the codec do and whether it succeeds or fails: a download only
    its destination; a resize only the Original, its AVIF and their
    [_temp] copies; a conversion only its AVIF; a crop only its variant
    and the three temporary files beside it.  Every other path holds
    after the fix what it held before. *)
Theorem fixIssue_writes_only_its_files issue cardNum lang st :
  let paths := getFilePaths cardNum lang in
  let written :=
    match step issue with
    | DOWNLOAD => [downloadDestination cardNum lang]
    | RESIZE_ORIGINAL =>
        [originalWebp paths; JS.replaceExt (originalWebp paths);
         originalAvif paths; JS.replaceExt (originalAvif paths)]
    | CONVERT_ORIGINAL => [originalAvif paths]
    | CROP_ART_ONLY =>
        [artOnlyWebp paths; tempDestinationOf (artOnlyWebp paths);
         topFileOf (artOnlyWebp paths); bottomFileOf (artOnlyWebp paths)]
    | CONVERT_ART_ONLY => [artOnlyAvif paths]
    | CROP_ART_AND_NAME =>
        [artAndNameWebp paths; tempDestinationOf (artAndNameWebp paths);
         topFileOf (artAndNameWebp paths); bottomFileOf (artAndNameWebp paths)]
    | CONVERT_ART_AND_NAME => [artAndNameAvif paths]
    end in
  wp (fixIssue issue cardNum lang)
     (fun _ st' => forall p, p ∉ written -> files st' !! p = files st !! p) st.
Proof.
  intros paths written.
  eapply wp_mono; [apply fixIssue_spec|].
  intros r st' (b & _ & Ha & _) p Hp. apply Ha.
  subst written. destruct (step issue); exact Hp.
Qed.

(** ** Card numbers and paths *)

Lemma append_inj_l (p a b : string) : p +:+ a = p +:+ b -> a = b.
Proof.
  induction p as [|c p IH]; [now rewrite !append_nil_l|].
  rewrite !append_cons. intros [= H]. now apply IH.
Qed.

Lemma append_inj_len (a b x y : string) :
  String.length a = String.length b -> a +:+ x = b +:+ y -> a = b /\ x = y.
Proof.
  revert b. induction a as [|c a IH]; intros [|d b]; try discriminate.
  - rewrite !append_nil_l. auto.
  - rewrite !append_cons. intros [= Hlen] [= -> H].
    destruct (IH _ Hlen H) as [-> ->]. auto.
Qed.

Lemma append_inj_r (a b s : string) : a +:+ s = b +:+ s -> a = b.
Proof.
  intros H. apply (append_inj_len a b s s); [|exact H].
  apply (f_equal String.length) in H. rewrite !length_append in H. lia.
Qed.

Lemma length_map_string f s : String.length (JS.map_string f s) = String.length s.
Proof. induction s as [|c s IH]; simpl; congruence. Qed.

Lemma length_zeros n : String.length (JS.zeros n) = n.
Proof. induction n as [|n IH]; simpl; congruence. Qed.

Lemma length_padStart0 n s :
  String.length (JS.padStart0 n s) = Nat.max n (String.length s).
Proof. unfold JS.padStart0. rewrite length_append, length_zeros. lia. Qed.

Lemma padStart0_fixed n s : JS.padStart0 n s = s <-> (n <= String.length s)%nat.
Proof.
  split.
  - intros H. apply (f_equal String.length) in H. rewrite length_padStart0 in H. lia.
  - intros H. unfold JS.padStart0.
    replace (n - String.length s)%nat with 0%nat by lia. apply append_nil_l.
Qed.

(** Reading a card number back: the digits of [toString], whatever the
    padding in front of them, denote the number. *)
Lemma read_toString (n : N) :
  exists d, NilEmpty.uint_of_string (JS.toString n) = Some d /\ N.of_uint d = n.
Proof.
  unfold JS.toString, NilZero.string_of_uint.
  destruct (N.to_uint n) eqn:E;
    try (eexists; split; [apply NilEmpty.usu | rewrite <- E; apply DecimalN.Unsigned.of_to]).
  exists (Decimal.D0 Decimal.Nil). split; [reflexivity|].
  rewrite <- (DecimalN.Unsigned.of_to n), E. reflexivity.
Qed.

Lemma read_zeros k s d :
  NilEmpty.uint_of_string s = Some d ->
  exists d', NilEmpty.uint_of_string (JS.zeros k +:+ s) = Some d'
             /\ N.of_uint d' = N.of_uint d.
Proof.
  intros H. induction k as [|k (d' & E & Hd)]; cbn [JS.zeros].
  - rewrite append_nil_l. eauto.
  - rewrite append_cons. cbn [NilEmpty.uint_of_string]. rewrite E.
    exists (Decimal.D0 d'). split; [reflexivity | exact Hd].
Qed.

Lemma read_getCardNumber (n : N) :
  exists d, NilEmpty.uint_of_string (getCardNumber n) = Some d /\ N.of_uint d = n.
Proof.
  destruct (read_toString n) as (d & E & Hd).
  destruct (read_zeros (3 - String.length (JS.toString n)) _ _ E) as (d' & E' & Hd').
  exists d'. split; [exact E' | congruence].
Qed.

Lemma getCardNumber_inj a b : getCardNumber a = getCardNumber b -> a = b.
Proof.
  intros H. destruct (read_getCardNumber a) as (da & Ea & <-).
  destruct (read_getCardNumber b) as (db & Eb & <-).
  rewrite H in Ea. congruence.
Qed.

(** X11.  Card numbers and paths.  [getCardNumber] has at least three
    characters and is injective, so within one language two different
    cards never share any of their six paths; within one card, two
    different languages never share an Original or art_and_name path,
    while the art_only paths do not depend on the language. *)
Theorem paths_separate_cards_and_languages :
  (forall n, (3 <= String.length (getCardNumber n))%nat)
  /\ (forall a b, getCardNumber a = getCardNumber b -> a = b)
  /\ (forall a b lang,
         let pa := getFilePaths a lang in
         let pb := getFilePaths b lang in
         originalWebp pa = originalWebp pb \/ originalAvif pa = originalAvif pb
         \/ artOnlyWebp pa = artOnlyWebp pb \/ artOnlyAvif pa = artOnlyAvif pb
         \/ artAndNameWebp pa = artAndNameWebp pb
         \/ artAndNameAvif pa = artAndNameAvif pb ->
         a = b)
  /\ (forall n lang lang',
         let p := getFilePaths n lang in
         let p' := getFilePaths n lang' in
         originalWebp p = originalWebp p' \/ originalAvif p = originalAvif p'
         \/ artAndNameWebp p = artAndNameWebp p'
         \/ artAndNameAvif p = artAndNameAvif p' ->
         lang = lang')
  /\ (forall n lang lang',
         artOnlyWebp (getFilePaths n lang) = artOnlyWebp (getFilePaths n lang')
         /\ artOnlyAvif (getFilePaths n lang) = artOnlyAvif (getFilePaths n lang')).
Proof.
  split_and!.
  - intros n. unfold getCardNumber. rewrite length_padStart0. lia.
  - exact getCardNumber_inj.
  - intros a b lang pa pb H. apply getCardNumber_inj.
    subst pa pb. unfold getFilePaths in H. cbn [originalWebp originalAvif artOnlyWebp
      artOnlyAvif artAndNameWebp artAndNameAvif] in H.
    repeat match type of H with _ \/ _ => destruct H as [H|H] end;
      repeat (apply append_inj_l in H); exact (append_inj_r _ _ _ H).
  - intros n lang lang' p p' H.
    subst p p'. unfold getFilePaths in H. cbn [originalWebp originalAvif artOnlyWebp
      artOnlyAvif artAndNameWebp artAndNameAvif] in H.
    repeat match type of H with _ \/ _ => destruct H as [H|H] end;
      do 2 apply append_inj_l in H; rewrite <- ?append_assoc in H;
      repeat (apply append_inj_r in H); exact H.
  - intros n lang lang'. split; reflexivity.
Qed.

(** ** Where a download lands *)

Lemma downloadDestination_original cardNum lang :
  downloadDestination cardNum lang = originalWebp (getFilePaths cardNum lang)
  <-> JS.toUpperCase lang = lang /\ (3 <= String.length (edition config))%nat.
Proof.
  unfold downloadDestination, getFilePaths, getCardNumber. cbn [originalWebp].
  rewrite <- padStart0_fixed. split.
  - intros H. do 2 apply append_inj_l in H.
    apply append_inj_len in H as [Hl H];
      [|unfold JS.toUpperCase; apply length_map_string].
    split; [exact Hl|]. apply append_inj_l in H. exact (append_inj_r _ _ _ H).
  - intros [-> ->]. reflexivity.
Qed.

(** X12.  What [downloadImage] does with the answer of the CDN.  On a
    200 the body is written to [rootFolder/LANGUAGE/eee/nnn.webp], with
    the language in upper case and the edition padded to three
    characters, and nothing else changes on disk; that file is the
    Original WebP that validation looks for exactly when the language
    is already in upper case and the edition has at least three
    characters.  On any other status it throws, having written nothing
    and logged the failure as an error. *)
Theorem downloadImage_destination cardNum lang st :
  let destination := downloadDestination cardNum lang in
  (forall body,
      http world (clock st) (downloadUrl cardNum lang) = Status200 body ->
      exists st',
        downloadImage cardNum lang (edition config) st = (Ok destination, st')
        /\ files st' = <[destination := body]> (files st))
  /\ (forall code,
         http world (clock st) (downloadUrl cardNum lang) = StatusOther code ->
         exists st',
           downloadImage cardNum lang (edition config) st
           = (Throw (RequestFailed code), st')
           /\ files st' = files st
           /\ errors st' = errors st ++ [DownloadFailed (downloadUrl cardNum lang) code])
  /\ (destination = originalWebp (getFilePaths cardNum lang)
      <-> JS.toUpperCase lang = lang /\ (3 <= String.length (edition config))%nat).
Proof.
  intros destination. split_and!.
  - intros body H. unfold downloadImage, bind, log, tick, modify_files, ret.
    cbn [clock files stats journal set_files]. fold (downloadUrl cardNum lang).
    rewrite H. eexists. split; reflexivity.
  - intros code H. unfold downloadImage, bind, log, tick, throw.
    cbn [clock files stats journal]. fold (downloadUrl cardNum lang).
    rewrite H. eexists. split; [reflexivity|]. split; [reflexivity|].
    unfold errors, messagesOf. cbn [journal].
    rewrite !List.filter_app, !map_app. cbn. now rewrite app_nil_r.
  - apply downloadDestination_original.
Qed.

(** A download that succeeds, seen through [fixIssue]. *)
Lemma fixIssue_download_succeeds issue cardNum lang st :
  servesFullSize ->
  step issue = DOWNLOAD ->
  exists st',
    fixIssue issue cardNum lang st = (Ok true, st')
    /\ agreeOutside [downloadDestination cardNum lang] (files st) (files st')
    /\ is_Some (files st' !! downloadDestination cardNum lang)
    /\ checked (stats st') = checked (stats st)
    /\ recovered (stats st') = S (recovered (stats st))
    /\ failed (stats st') = failed (stats st)
    /\ (forall x, is_Some (byLanguage (stats st') !! x)
                  <-> is_Some (byLanguage (stats st) !! x))
    /\ executed (journal st') = executed (journal st) ++ [(lang, DOWNLOAD, true)].
Proof.
  intros Hserve Hstep.
  destruct (fixIssue_succeeds issue cardNum lang st
              (fun d => is_Some (d !! downloadDestination cardNum lang)))
    as (st' & E & Hd & Ha & Hj & Hdom).
  { rewrite Hstep. eapply wp_mono; [apply download_ideal; exact Hserve|].
    intros r s [-> [px Hpx]]. split; [reflexivity | eauto]. }
  pose proof (wp_run _ _ _ (fixIssue_spec issue cardNum lang st) _ _ E)
    as (b & [= <-] & _ & _ & Hc & _ & Hre & Hfa).
  rewrite Hstep in Ha, Hj. cbn [writeSet] in Ha.
  exists st'. split_and!; auto.
Qed.

Lemma repairLoop_download_elsewhere budget cardNum lang st :
  let paths := getFilePaths cardNum lang in
  let issue := mkIssue DOWNLOAD (originalWebp paths) lang in
  servesFullSize ->
  downloadDestination cardNum lang <> originalWebp paths ->
  files st !! originalWebp paths = None ->
  is_Some (byLanguage (stats st) !! lang) ->
  exists st',
    repairLoop budget cardNum lang [issue] st = (Ok ([issue], maxAttempts), st')
    /\ files st' !! originalWebp paths = None
    /\ (budget <> 0%nat -> is_Some (files st' !! downloadDestination cardNum lang))
    /\ recovered (stats st') = (recovered (stats st) + budget)%nat
    /\ failed (stats st') = failed (stats st)
    /\ executed (journal st')
       = executed (journal st) ++ repeat (lang, DOWNLOAD, true) budget.
Proof.
  intros paths issue Hserve Hne. revert st.
  induction budget as [|budget IH]; intros st Ho Hl.
  - exists st. cbn. rewrite app_nil_r. split_and!; auto. congruence.
  - destruct (fixIssue_download_succeeds issue cardNum lang st Hserve eq_refl)
      as (st1 & E1 & Ha1 & Hd1 & Hc1 & Hre1 & Hfa1 & Hdom1 & Hj1).
    assert (forall p, p <> downloadDestination cardNum lang ->
                      files st1 !! p = files st !! p) as Hout.
    { intros p Hp. apply Ha1. now rewrite list_elem_of_singleton. }
    assert (files st1 !! originalWebp paths = None) as Ho1
      by (rewrite Hout by congruence; exact Ho).
    destruct (validateCard_known cardNum lang st1 _
                (findings_missing_original _ _ _ Ho1))
      as (st2 & E2 & Hf2 & _ & Hj2 & Hre2 & Hfa2 & Hc2 & Hdom2);
      [now apply Hdom1|].
    change (validateCard cardNum lang st1 = (Ok [issue], st2)) in E2.
    destruct (IH st2) as (st3 & E3 & Ho3 & Hd3 & Hre3 & Hfa3 & Hj3);
      [rewrite Hf2; exact Ho1 | now apply Hdom2, Hdom1 |].
    exists st3. split_and!.
    + rewrite (repairLoop_pass budget cardNum lang [issue] st st1 [issue] st2);
        [exact E3 | discriminate | | exact E2].
      change (sortIssuesByPipelineOrder [issue]) with [issue].
      rewrite (forEach_cons_eq _ issue [] st st1
                 (fix_unit_eq issue cardNum lang st true st1 E1)).
      reflexivity.
    + exact Ho3.
    + intros _. destruct budget as [|b].
      * cbn in E3. injection E3 as <-. rewrite Hf2. exact Hd1.
      * now apply Hd3.
    + lia.
    + congruence.
    + rewrite Hj3, Hj2, Hj1, <- app_assoc. reflexivity.
Qed.

(** X13.  A download that lands elsewhere never repairs the card.  When
    the language is not in upper case or the edition is shorter than
    three characters, and the Original is missing, every pass of the
    repair loop downloads the image to the other path and counts a
    recovery, the next validation still misses the Original, and after
    [maxAttempts] passes [fixCard] returns the same DOWNLOAD issue:
    three recoveries, no failure, the issue unresolved. *)
Theorem download_elsewhere_never_repairs cardNum lang st :
  let paths := getFilePaths cardNum lang in
  let issue := mkIssue DOWNLOAD (originalWebp paths) lang in
  servesFullSize ->
  JS.toUpperCase lang <> lang \/ (String.length (edition config) < 3)%nat ->
  files st !! originalWebp paths = None ->
  is_Some (byLanguage (stats st) !! lang) ->
  exists st',
    fixCard cardNum lang [issue] st = (Ok ([issue], maxAttempts), st')
    /\ files st' !! originalWebp paths = None
    /\ is_Some (files st' !! downloadDestination cardNum lang)
    /\ recovered (stats st') = (recovered (stats st) + maxAttempts)%nat
    /\ failed (stats st') = failed (stats st)
    /\ executed (journal st')
       = executed (journal st) ++ repeat (lang, DOWNLOAD, true) maxAttempts.
Proof.
  intros paths issue Hserve Hcase Ho Hl.
  assert (downloadDestination cardNum lang <> originalWebp paths) as Hne.
  { intros H. apply downloadDestination_original in H as [Hu He].
    destruct Hcase; [congruence | lia]. }
  destruct (repairLoop_download_elsewhere maxAttempts cardNum lang st Hserve Hne Ho Hl)
    as (st' & E & Ho' & Hd' & Hre & Hfa & Hj).
  exists st'. split_and!; auto.
Qed.

(** ** resizeImage and convertToAvif *)

Lemma wp_returns {A} (m : M A) (r : Result A) (P : State -> Prop) st :
  wp m (fun r' st' => r' = r /\ P st') st -> exists st', m st = (r, st') /\ P st'.
Proof.
  unfold wp. destruct (m st) as [r' st']. cbn. intros [-> H]. eauto.
Qed.

(** X14.  [resizeImage] works on a copy, [<name>_temp.<ext>], and has no
    error handling of its own.  On a missing file it throws before
    writing anything.  When the codec writes the resized image, the
    file ends with exactly the requested dimensions, whatever its
    aspect ratio was, and the copy is removed.  When the codec throws,
    the copy is left on disk, still holding the image as it was, and
    the file itself holds whatever the codec left there. *)
Theorem resizeImage_behaviour filePath (dimensions : Z * Z) st :
  let temp := JS.replaceExt filePath in
  (files st !! filePath = None ->
   exists st',
     resizeImage filePath dimensions st = (Throw (FsError filePath), st')
     /\ files st' = files st)
  /\ (forall w h px,
         files st !! filePath = Some (Image w h px) ->
         temp <> filePath ->
         codec world (clock st) = NoFault ->
         exists st',
           resizeImage filePath dimensions st = (Ok tt, st')
           /\ files st' !! filePath
              = Some (Image (fst dimensions) (snd dimensions)
                        (Resized (fst dimensions) (snd dimensions) px))
           /\ files st' !! temp = None
           /\ agreeOutside [filePath; temp] (files st) (files st'))
  /\ (forall w h px left,
         files st !! filePath = Some (Image w h px) ->
         temp <> filePath ->
         codec world (clock st) = Crash left ->
         exists st',
           resizeImage filePath dimensions st = (Throw (SharpError filePath), st')
           /\ files st' !! temp = Some (Image w h px)
           /\ files st' !! filePath
              = Some (match left with Some partial => partial | None => Image w h px end)
           /\ agreeOutside [filePath; temp] (files st) (files st')).
Proof.
  intros temp. split_and!.
  - intros Hnone. apply wp_returns. unfold resizeImage.
    wp_step. run_prim. wp_step.
    unfold wp at 1, copyFileSync. cbn [files]. rewrite Hnone. cbn [fst snd files].
    auto.
  - intros w h px Hf Hne Hc. apply wp_returns. unfold resizeImage. fold temp.
    wp_step. run_prim. wp_step.
    unfold wp at 1, copyFileSync. cbn [files]. rewrite Hf. cbn [fst snd].
    wp_step. unfold resize_toFile. wp_step.
    eapply wp_eq; [apply sharp_eq; cbn [files set_files]; apply lookup_insert_eq|].
    unfold toFile. wp_step. run_prim. rewrite Hc. run_prim.
    wp_step. unfold wp at 1, unlinkSync. cbn [files set_files].
    rewrite lookup_insert_ne by congruence. rewrite lookup_insert_eq. cbn [fst snd].
    run_prim. split; [reflexivity|]. cbn [files set_files]. split_and!.
    + rewrite lookup_delete_ne by congruence. apply lookup_insert_eq.
    + apply lookup_delete_eq.
    + intros p Hp. rewrite !not_elem_of_cons in Hp. destruct Hp as (Hp1 & Hp2 & _).
      rewrite lookup_delete_ne, !lookup_insert_ne by congruence. reflexivity.
  - intros w h px left Hf Hne Hc. apply wp_returns. unfold resizeImage. fold temp.
    wp_step. run_prim. wp_step.
    unfold wp at 1, copyFileSync. cbn [files]. rewrite Hf. cbn [fst snd].
    wp_step. unfold resize_toFile. wp_step.
    eapply wp_eq; [apply sharp_eq; cbn [files set_files]; apply lookup_insert_eq|].
    unfold toFile. wp_step. run_prim. rewrite Hc.
    destruct left as [partial|].
    + wp_step. run_prim. run_prim. split; [reflexivity|]. cbn [files set_files].
      split_and!.
      * rewrite lookup_insert_ne by congruence. apply lookup_insert_eq.
      * apply lookup_insert_eq.
      * intros p Hp. rewrite !not_elem_of_cons in Hp. destruct Hp as (Hp1 & Hp2 & _).
        rewrite !lookup_insert_ne by congruence. reflexivity.
    + run_prim. split; [reflexivity|]. cbn [files set_files]. split_and!.
      * apply lookup_insert_eq.
      * rewrite lookup_insert_ne by congruence. exact Hf.
      * intros p Hp. rewrite !not_elem_of_cons in Hp. destruct Hp as (Hp1 & Hp2 & _).
        rewrite !lookup_insert_ne by congruence. reflexivity.
Qed.

(** ** Validation and the AVIF files *)

Lemma avif_neq_webp (a b : string) : a +:+ ".avif" <> b +:+ ".webp".
Proof.
  intros H. apply append_inj_len in H as [_ H]; [discriminate H|].
  apply (f_equal String.length) in H. rewrite !length_append in H. simpl in H. lia.
Qed.

Lemma webp_paths_end cardNum lang :
  let paths := getFilePaths cardNum lang in
  (exists pre, originalWebp paths = pre +:+ ".webp")
  /\ (exists pre, artOnlyWebp paths = pre +:+ ".webp")
  /\ (exists pre, artAndNameWebp paths = pre +:+ ".webp").
Proof.
  cbn. split_and!; eexists; rewrite <- !append_assoc; reflexivity.
Qed.

Lemma avif_paths_end cardNum lang :
  let paths := getFilePaths cardNum lang in
  (exists pre, originalAvif paths = pre +:+ ".avif")
  /\ (exists pre, artOnlyAvif paths = pre +:+ ".avif")
  /\ (exists pre, artAndNameAvif paths = pre +:+ ".avif").
Proof.
  cbn. split_and!; eexists; rewrite <- !append_assoc; reflexivity.
Qed.

(** The findings do not depend on what an AVIF file holds. *)
Lemma findings_avif_content disk cardNum lang p f :
  let paths := getFilePaths cardNum lang in
  p = originalAvif paths \/ p = artOnlyAvif paths \/ p = artAndNameAvif paths ->
  is_Some (disk !! p) ->
  findings (<[p := f]> disk) cardNum lang = findings disk cardNum lang.
Proof.
  intros paths Hp Hsome.
  destruct (webp_paths_end cardNum lang) as ((w1 & E1) & (w2 & E2) & (w3 & E3)).
  destruct (avif_paths_end cardNum lang) as ((a1 & F1) & (a2 & F2) & (a3 & F3)).
  fold paths in E1, E2, E3, F1, F2, F3.
  assert (exists a, p = a +:+ ".avif") as [a Ea]
    by (destruct Hp as [-> | [-> | ->]]; eauto).
  assert (forall q, q <> p -> <[p := f]> disk !! q = disk !! q) as Hne
    by (intros q Hq; now rewrite lookup_insert_ne).
  assert (forall q (X : Type) (x y : X),
             match <[p := f]> disk !! q with Some _ => x | None => y end
             = match disk !! q with Some _ => x | None => y end) as Hex.
  { intros q X x y. destruct (decide (q = p)) as [->|Hq].
    - rewrite lookup_insert_eq. now destruct Hsome as [g ->].
    - now rewrite Hne. }
  unfold findings, artOnlyFindings, artAndNameFindings. fold paths.
  rewrite !Hex.
  rewrite !(Hne (originalWebp paths)), !(Hne (artOnlyWebp paths)),
    !(Hne (artAndNameWebp paths));
    try (rewrite Ea, ?E1, ?E2, ?E3; intros H; symmetry in H;
         exact (avif_neq_webp _ _ H)).
  reflexivity.
Qed.

(** X15.  Validation never decodes an AVIF: it only asks whether the
    file exists.  If a validation returns, then with any other content
    at one of the card's AVIF paths that already holds a file, even
    bytes that sharp cannot decode, it returns the same issues. *)
Theorem validateCard_never_decodes_avif cardNum lang st issues st' p f :
  let paths := getFilePaths cardNum lang in
  validateCard cardNum lang st = (Ok issues, st') ->
  p = originalAvif paths \/ p = artOnlyAvif paths \/ p = artAndNameAvif paths ->
  is_Some (files st !! p) ->
  exists st'',
    validateCard cardNum lang (set_files (insert p f) st) = (Ok issues, st'').
Proof.
  intros paths E Hp Hsome.
  pose proof (wp_run _ _ _ (validateCard_findings cardNum lang st) _ _ E)
    as (_ & _ & _ & _ & _ & _ & _ & fs & Hfs & -> & _ & _ & Hl).
  destruct (validateCard_known_resolves cardNum lang (set_files (insert p f) st) fs)
    as (st'' & E'' & _); [| exact Hl | eauto].
  cbn [files set_files]. rewrite <- Hfs. now apply findings_avif_content.
Qed.

(** ** A run that cannot throw *)

Lemma decodable_insert disk p f :
  decodable disk -> f <> Corrupt -> decodable (<[p := f]> disk).
Proof.
  intros Hd Hf q. destruct (decide (q = p)) as [->|Hq].
  - rewrite lookup_insert_eq. congruence.
  - rewrite lookup_insert_ne by congruence. apply Hd.
Qed.

Lemma decodable_delete disk p : decodable disk -> decodable (delete p disk).
Proof.
  intros Hd q. destruct (decide (q = p)) as [->|Hq].
  - rewrite lookup_delete_eq. discriminate.
  - rewrite lookup_delete_ne by congruence. apply Hd.
Qed.

Lemma resizeImage_decodable filePath dims st :
  faultless -> decodable (files st) ->
  wp (resizeImage filePath dims) (fun _ st' => decodable (files st')) st.
Proof.
  intros Hw Hd. unfold resizeImage.
  wp_step. run_prim. wp_step.
  unfold wp at 1, copyFileSync. cbn [files].
  destruct (files st !! filePath) as [[w h px|]|] eqn:Ef; cbn [fst snd files];
    [| now destruct (Hd _ Ef) | exact Hd].
  wp_step. unfold resize_toFile. wp_step.
  eapply wp_eq; [apply sharp_eq; cbn [files set_files]; apply lookup_insert_eq|].
  eapply wp_eq; [now apply toFile_ideal|]. norm.
  wp_step. unfold wp at 1, unlinkSync. cbn [files set_files].
  assert (decodable (<[filePath := Image (fst dims) (snd dims)
                                     (Resized (fst dims) (snd dims) px)]>
                       (<[JS.replaceExt filePath := Image w h px]> (files st)))) as Hd'
    by (repeat apply decodable_insert; auto; discriminate).
  match goal with |- context [match ?m !! ?k with _ => _ end] =>
    destruct (m !! k) end; cbn [fst snd files set_files].
  - run_prim. now apply decodable_delete.
  - exact Hd'.
Qed.

Lemma convertToAvif_decodable webpPath avifPath st :
  faultless -> decodable (files st) ->
  wp (convertToAvif webpPath avifPath) (fun _ st' => decodable (files st')) st.
Proof.
  intros Hw Hd. unfold convertToAvif.
  wp_step. run_prim. wp_step. unfold avif_toFile. wp_step.
  unfold wp at 1, sharp. cbn [files].
  destruct (files st !! webpPath) as [[w h px|]|]; cbn [fst snd files]; try exact Hd.
  eapply wp_eq; [now apply toFile_ideal|]. run_prim.
  apply decodable_insert; [exact Hd | discriminate].
Qed.

Lemma downloadImage_decodable cardNum lang ed st :
  servesImages -> decodable (files st) ->
  wp (downloadImage cardNum lang ed) (fun _ st' => decodable (files st')) st.
Proof.
  intros Hs Hd. unfold downloadImage.
  wp_step. run_prim. wp_step. run_prim.
  match goal with |- context [http world ?t ?u] =>
    destruct (http world t u) as [body|code] eqn:E end.
  - wp_step. run_prim. wp_step. run_prim. run_prim.
    apply decodable_insert; [exact Hd | exact (Hs _ _ _ E)].
  - wp_step. run_prim. run_prim. exact Hd.
Qed.

Lemma cropImage_decodable artOnly cardNum lang src card st :
  decodable (files st) ->
  wp (cropImage src (cropDestination artOnly cardNum lang) artOnly card)
     (fun _ st' => decodable (files st')) st.
Proof.
  intros Hd. set (dest := cropDestination artOnly cardNum lang).
  destruct (cropDestination_neq artOnly cardNum lang) as (Htmp & Htop & Hbot & _).
  fold dest in Htmp, Htop, Hbot.
  apply (wp_confined (cropFiles dest)); [now apply confined_cropImage|].
  intros r st' E _ _ Ha.
  pose proof (wp_run _ _ _ (cropImage_spec src dest artOnly card st Htmp Htop Hbot)
                _ _ E) as (H1 & H2 & H3 & Hr).
  intros q. destruct (decide (q ∈ cropFiles dest)) as [Hin|Hout].
  - unfold cropFiles in Hin. rewrite !elem_of_cons, elem_of_nil in Hin.
    destruct Hin as [-> | [-> | [-> | [-> | []]]]]; rewrite ?H1, ?H2, ?H3;
      try discriminate.
    destruct r as [b|e].
    + destruct Hr as (_ & _ & px' & ->). discriminate.
    + rewrite Hr. apply Hd.
  - rewrite (Ha _ Hout). apply Hd.
Qed.

Lemma fixOperation_decodable s cardNum lang st :
  faultless -> servesImages -> decodable (files st) ->
  wp (fixOperation s cardNum lang) (fun _ st' => decodable (files st')) st.
Proof.
  intros Hw Hs Hd. unfold fixOperation. destruct s.
  - wp_step. eapply wp_mono; [now apply downloadImage_decodable|].
    intros [d|e] st' H; [run_prim|]; exact H.
  - wp_step. eapply wp_mono; [now apply resizeImage_decodable|].
    intros [[]|e] st1 H1; [|exact H1].
    wp_step. run_prim.
    match goal with |- context [match ?m !! ?k with _ => _ end] =>
      destruct (m !! k) end.
    + now apply resizeImage_decodable.
    + run_prim. exact H1.
  - now apply convertToAvif_decodable.
  - wp_step.
    eapply wp_mono; [apply (cropImage_decodable true cardNum lang); exact Hd|].
    intros [b|e] st' H; [run_prim|]; exact H.
  - now apply convertToAvif_decodable.
  - wp_step.
    eapply wp_mono; [apply (cropImage_decodable false cardNum lang); exact Hd|].
    intros [b|e] st' H; [run_prim|]; exact H.
  - now apply convertToAvif_decodable.
Qed.

Lemma fixIssue_decodable issue cardNum lang st :
  faultless -> servesImages -> decodable (files st) ->
  wp (fixIssue issue cardNum lang)
     (fun r st' =>
        (exists b, r = Ok b) /\ decodable (files st')
        /\ (forall x, is_Some (byLanguage (stats st') !! x)
                      <-> is_Some (byLanguage (stats st) !! x))) st.
Proof.
  intros Hw Hs Hd.
  assert (wp (fixIssue issue cardNum lang) (fun _ st' => decodable (files st')) st) as H.
  { unfold fixIssue. apply wp_try_catch. wp_step.
    eapply wp_mono; [now apply fixOperation_decodable|].
    intros [[]|e] st1 H1.
    - wp_step. run_prim. wp_step.
      match goal with |- wp (byLanguage_incr_guarded ?f ?l) _ ?s =>
        destruct (byLanguage_incr_guarded_spec f l s) as (st2 & E & Hf2 & _) end.
      eapply wp_eq; [exact E|]. wp_step. run_prim. run_prim. now rewrite Hf2.
    - wp_step. run_prim. wp_step.
      match goal with |- wp (byLanguage_incr_guarded ?f ?l) _ ?s =>
        destruct (byLanguage_incr_guarded_spec f l s) as (st2 & E & Hf2 & _) end.
      eapply wp_eq; [exact E|]. wp_step. run_prim. run_prim. now rewrite Hf2. }
  pose proof (fixIssue_spec issue cardNum lang st) as Hspec.
  unfold wp in *. destruct (fixIssue issue cardNum lang st) as [r st'].
  cbn [fst snd] in *. destruct Hspec as (b & -> & _ & _ & _ & Hdom & _).
  split_and!; eauto.
Qed.

Lemma fixAll_decodable cardNum lang issues st :
  faultless -> servesImages -> decodable (files st) ->
  wp (forEach (fun issue => do _ <- fixIssue issue cardNum lang; ret tt) issues)
     (fun r st' =>
        r = Ok tt /\ decodable (files st')
        /\ (forall x, is_Some (byLanguage (stats st') !! x)
                      <-> is_Some (byLanguage (stats st) !! x))) st.
Proof.
  intros Hw Hs. revert st. induction issues as [|i issues IH]; intros st Hd;
    cbn [forEach].
  - unfold wp. cbn. split_and!; auto.
  - wp_step. wp_step. eapply wp_mono; [now apply fixIssue_decodable|].
    intros r st1 ([b ->] & Hd1 & Hdom1). run_prim.
    eapply wp_mono; [now apply IH|].
    intros r st' (-> & Hd' & Hdom'). split_and!; auto.
    intros x. now rewrite Hdom'.
Qed.

Lemma repairLoop_decodable budget cardNum lang issues st :
  faultless -> servesImages ->
  decodable (files st) ->
  is_Some (byLanguage (stats st) !! lang) ->
  wp (repairLoop budget cardNum lang issues)
     (fun r st' =>
        (exists outcome, r = Ok outcome) /\ decodable (files st')
        /\ (forall x, is_Some (byLanguage (stats st') !! x)
                      <-> is_Some (byLanguage (stats st) !! x))) st.
Proof.
  intros Hw Hs. revert issues st.
  induction budget as [|budget IH]; intros issues st Hd Hl; cbn [repairLoop].
  - unfold wp. cbn. split_and!; eauto.
  - destruct (0 <? length issues)%nat.
    2: { unfold wp. cbn. split_and!; eauto. }
    wp_step. eapply wp_mono; [now apply fixAll_decodable|].
    intros r st1 (-> & Hd1 & Hdom1).
    wp_step.
    destruct (validateCard_returns cardNum lang st1 Hd1) as (fs & st2 & _ & E & Hf2 & _);
      [now apply Hdom1|].
    pose proof (wp_run _ _ _ (validateCard_findings cardNum lang st1) _ _ E)
      as (_ & _ & _ & _ & _ & Hdom2 & _).
    eapply wp_eq; [exact E|]. cbn beta iota.
    assert (forall x, is_Some (byLanguage (stats st2) !! x)
                      <-> is_Some (byLanguage (stats st) !! x)) as Hdom
      by (intros x; now rewrite Hdom2).
    destruct (length (issuesOf fs) =? 0)%nat.
    + run_prim. rewrite Hf2. split_and!; eauto.
    + eapply wp_mono; [apply IH; [now rewrite Hf2 | now apply Hdom]|].
      intros r st' (Hr & Hd' & Hdom'). split_and!; auto.
      intros x. now rewrite Hdom'.
Qed.

Lemma validateCards_returns lang cards acc st :
  decodable (files st) ->
  is_Some (byLanguage (stats st) !! lang) ->
  wp (validateCards lang cards acc)
     (fun r st' =>
        files st' = files st
        /\ (forall x, is_Some (byLanguage (stats st') !! x)
                      <-> is_Some (byLanguage (stats st) !! x))
        /\ exists new, r = Ok (acc ++ new)
                       /\ Forall (fun e => snd (fst e) = lang) new) st.
Proof.
  revert acc st. induction cards as [|cardNum cards IH]; intros acc st Hd Hl;
    cbn [validateCards].
  - unfold wp. cbn. split_and!; auto. exists []. now rewrite app_nil_r.
  - wp_step.
    destruct (validateCard_returns cardNum lang st Hd Hl) as (fs & st1 & _ & E & Hf1 & _).
    pose proof (wp_run _ _ _ (validateCard_findings cardNum lang st) _ _ E)
      as (_ & _ & _ & _ & _ & Hdom1 & _).
    eapply wp_eq; [exact E|]. cbn beta iota.
    eapply wp_mono; [apply IH; [now rewrite Hf1 | now apply Hdom1]|].
    intros r st' (Hf & Hdom & new & -> & Hnew).
    split_and!; [congruence | intros x; now rewrite Hdom |].
    destruct (0 <? length (issuesOf fs))%nat.
    + exists ((cardNum, lang, issuesOf fs) :: new). rewrite <- app_assoc.
      split; [reflexivity|]. now constructor.
    + exists new. auto.
Qed.

Lemma validateLanguages_returns langs acc st :
  decodable (files st) ->
  (forall lang, lang ∈ langs -> is_Some (byLanguage (stats st) !! lang)) ->
  wp (validateLanguages langs acc)
     (fun r st' =>
        files st' = files st
        /\ (forall x, is_Some (byLanguage (stats st') !! x)
                      <-> is_Some (byLanguage (stats st) !! x))
        /\ exists new, r = Ok (acc ++ new)
                       /\ Forall (fun e => snd (fst e) ∈ langs) new) st.
Proof.
  revert acc st. induction langs as [|lang langs IH]; intros acc st Hd Hl;
    cbn [validateLanguages].
  - unfold wp. cbn. split_and!; auto. exists []. now rewrite app_nil_r.
  - wp_step. eapply wp_mono; [apply validateCards_returns; [exact Hd|]|].
    { apply Hl. now left. }
    intros r st1 (Hf1 & Hdom1 & new1 & -> & Hnew1).
    eapply wp_mono; [apply IH; [now rewrite Hf1|]|].
    { intros l Hin. apply Hdom1, Hl. now right. }
    intros r st' (Hf & Hdom & new & -> & Hnew).
    split_and!; [congruence | intros x; now rewrite Hdom |].
    exists (new1 ++ new). rewrite app_assoc. split; [reflexivity|].
    apply Forall_app. split.
    + eapply List.Forall_impl; [|exact Hnew1]. intros e ->. now left.
    + eapply List.Forall_impl; [|exact Hnew]. intros e He. now right.
Qed.

Lemma fixCards_returns allIssues st :
  faultless -> servesImages ->
  decodable (files st) ->
  Forall (fun e => is_Some (byLanguage (stats st) !! snd (fst e))) allIssues ->
  wp (fixCards allIssues)
     (fun r st' =>
        decodable (files st')
        /\ exists outcomes, r = Ok outcomes /\ length outcomes = length allIssues) st.
Proof.
  intros Hw Hs. revert st.
  induction allIssues as [|[[cardNum lang] issues] rest IH]; intros st Hd Hall;
    cbn [fixCards].
  - unfold wp. cbn. eauto.
  - apply Forall_cons in Hall as [Hl Hrest]. cbn [fst snd] in Hl.
    wp_step. unfold fixCard.
    eapply wp_mono; [now apply repairLoop_decodable|].
    intros r st1 ([outcome ->] & Hd1 & Hdom1).
    wp_step. eapply wp_mono; [apply IH; [exact Hd1|]|].
    { eapply List.Forall_impl; [|exact Hrest]. intros e He. now apply Hdom1. }
    intros r st' (Hd' & outcomes & -> & Hlen). run_prim.
    split; [exact Hd'|]. eexists. split; [reflexivity|]. cbn. now rewrite Hlen.
Qed.

Lemma runPhases_returns disk :
  faultless -> servesImages ->
  decodable disk ->
  exists outcomes st',
    runPhases (constructor disk) = (Ok outcomes, st')
    /\ decodable (files st').
Proof.
  intros Hw Hs Hd.
  assert (wp runPhases
            (fun r st' => decodable (files st') /\ exists outcomes, r = Ok outcomes)
            (constructor disk)) as H.
  { unfold runPhases. wp_step.
    eapply wp_mono; [apply validateLanguages_returns; [exact Hd|]|].
    { intros lang Hin. rewrite constructor_counters, bool_decide_true by exact Hin.
      eauto. }
    intros r st1 (Hf1 & Hdom1 & new & -> & Hnew). cbn [app].
    assert (decodable (files st1)) as Hd1 by now rewrite Hf1.
    destruct (length new =? 0)%nat; [|destruct (negb (autoFix config))].
    - run_prim. eauto.
    - run_prim. eauto.
    - eapply wp_mono; [apply fixCards_returns; auto|].
      + eapply List.Forall_impl; [|exact Hnew]. intros e He. apply Hdom1.
        rewrite constructor_counters, bool_decide_true by exact He. eauto.
      + intros r st' (Hd' & outcomes & -> & _). eauto. }
  unfold wp in H. destruct (runPhases (constructor disk)) as [r st'].
  cbn [fst snd] in H. destruct H as (Hd' & outcomes & ->). eauto.
Qed.

(** X16.  A run that cannot throw.  On a validator fresh from the
    constructor, a disk on which every file decodes, a codec that never
    fails and a CDN whose 200 answers are decodable images,
    [validateAndFixAll] returns its report, whatever is missing or
    mis-sized and whatever the CDN refuses; afterwards every file on
    disk other than the report still decodes. *)
Theorem run_returns isoTime now disk :
  faultless -> servesImages ->
  decodable disk ->
  exists report st',
    validateAndFixAll isoTime now (constructor disk) = (Ok report, st')
    /\ forall p, p <> reportPath now -> files st' !! p <> Some Corrupt.
Proof.
  intros Hw Hs Hd.
  destruct (runPhases_returns disk Hw Hs Hd) as (outcomes & st1 & E & Hd1).
  destruct (validateAndFixAll_constructor isoTime now disk _ _ E)
    as (report & Er & _).
  exists report, (set_files (insert (reportPath now) Corrupt) st1).
  split; [exact Er|]. intros p Hp. cbn [files set_files].
  rewrite lookup_insert_ne by congruence. apply Hd1.
Qed.

(** ** One pass repairs a card whose Original is on disk *)

Lemma forEach_app_eq {A} (f : A -> M unit) l1 l2 st st1 :
  forEach f l1 st = (Ok tt, st1) ->
  forEach f (l1 ++ l2) st = forEach f l2 st1.
Proof.
  revert st. induction l1 as [|x l1 IH]; intros st; cbn [forEach app].
  - unfold ret. now intros [= ->].
  - intros H. unfold bind in H |- *.
    destruct (f x st) as [[[]|e] s]; [now apply IH | discriminate].
Qed.

Lemma fixedAll_nil cardNum lang st : fixedAll cardNum lang [] st st.
Proof. unfold fixedAll. cbn. rewrite app_nil_r. split_and!; auto. Qed.

Lemma fixedAll_app cardNum lang l1 l2 st st1 st2 :
  fixedAll cardNum lang l1 st st1 -> fixedAll cardNum lang l2 st1 st2 ->
  fixedAll cardNum lang (l1 ++ l2) st st2.
Proof.
  unfold fixedAll. intros (E1 & J1 & F1 & D1) (E2 & J2 & F2 & D2). split_and!.
  - now rewrite (forEach_app_eq _ _ _ _ _ E1).
  - now rewrite J2, J1, map_app, app_assoc.
  - congruence.
  - intros x. now rewrite D2.
Qed.

(** A fix whose operation is known to succeed. *)
Lemma fixIssue_fixed issue cardNum lang st (P : gmap string File -> Prop) :
  wp (fixOperation (step issue) cardNum lang)
     (fun r st' => r = Ok tt /\ P (files st')) st ->
  exists st',
    fixedAll cardNum lang [issue] st st'
    /\ P (files st')
    /\ agreeOutside (writeSet (step issue) cardNum lang) (files st) (files st').
Proof.
  intros H.
  destruct (fixIssue_succeeds issue cardNum lang st P H) as (st' & E & HP & Ha & Hj & Hd).
  pose proof (wp_run _ _ _ (fixIssue_spec issue cardNum lang st) _ _ E)
    as (b & [= <-] & _ & _ & _ & _ & _ & Hfa).
  exists st'. split; [|auto]. unfold fixedAll. split_and!; auto.
  rewrite (forEach_cons_eq _ issue [] st st'
             (fix_unit_eq issue cardNum lang st true st' E)).
  reflexivity.
Qed.

Lemma layout_outside (l : list string) (W : list nat) i q :
  NoDup l -> l !! i = Some q ->
  forallb (fun j => negb (i =? j)%nat) W = true ->
  q ∉ omap (fun j => l !! j) W.
Proof.
  intros Hl Hi HW Hin. apply list_elem_of_omap in Hin as (j & Hj & Hq).
  pose proof (proj1 (NoDup_alt l) Hl i j q Hi Hq) as ->.
  rewrite forallb_forall in HW. apply list_elem_of_In in Hj.
  specialize (HW _ Hj). now rewrite Nat.eqb_refl in HW.
Qed.

Lemma resizeImage_ideal filePath (dims : Z * Z) st w h px :
  faultless ->
  files st !! filePath = Some (Image w h px) ->
  JS.replaceExt filePath <> filePath ->
  wp (resizeImage filePath dims)
     (fun r st' =>
        r = Ok tt
        /\ files st' !! filePath
           = Some (Image (fst dims) (snd dims) (Resized (fst dims) (snd dims) px))
        /\ agreeOutside [filePath; JS.replaceExt filePath] (files st) (files st')) st.
Proof.
  intros Hw Hf Hne. unfold resizeImage.
  wp_step. run_prim. wp_step.
  unfold wp at 1, copyFileSync. cbn [files]. rewrite Hf. cbn [fst snd].
  wp_step. unfold resize_toFile. wp_step.
  eapply wp_eq; [apply sharp_eq; cbn [files set_files]; apply lookup_insert_eq|].
  eapply wp_eq; [now apply toFile_ideal|]. norm.
  wp_step. unfold wp at 1, unlinkSync. cbn [files set_files].
  rewrite lookup_insert_ne by congruence. rewrite lookup_insert_eq. cbn [fst snd].
  run_prim. split; [reflexivity|]. cbn [files set_files]. split.
  - rewrite lookup_delete_ne by congruence. apply lookup_insert_eq.
  - intros p Hp. rewrite !not_elem_of_cons in Hp. destruct Hp as (Hp1 & Hp2 & _).
    rewrite lookup_delete_ne, !lookup_insert_ne by congruence. reflexivity.
Qed.

Lemma artOnlyFindings_exact disk card paths fs :
  artOnlyFindings disk card paths = Some fs ->
  disk !! artOnlyWebp paths <> Some Corrupt
  /\ issuesOf fs
     = (if needsCrop (disk !! artOnlyWebp paths)
        then [mkIssue CROP_ART_ONLY (artOnlyWebp paths) "shared"] else [])
       ++ match disk !! artOnlyAvif paths with
          | None => [mkIssue CONVERT_ART_ONLY (artOnlyAvif paths) "shared"]
          | Some _ => []
          end.
Proof.
  unfold artOnlyFindings, needsCrop.
  destruct (disk !! artOnlyWebp paths) as [[w h px|]|];
    [destruct (h =? 1024);
     [|destruct (Z.abs (h - snd (getExpectedDimensions "art_only")) >? tolerancePx config)]
    | |]; try discriminate;
    destruct (disk !! artOnlyAvif paths); intros [= <-]; split; (discriminate || reflexivity).
Qed.

Lemma artAndNameFindings_exact disk card lang paths fs :
  artAndNameFindings disk card lang paths = Some fs ->
  disk !! artAndNameWebp paths <> Some Corrupt
  /\ issuesOf fs
     = (if needsCrop (disk !! artAndNameWebp paths)
        then [mkIssue CROP_ART_AND_NAME (artAndNameWebp paths) lang] else [])
       ++ match disk !! artAndNameAvif paths with
          | None => [mkIssue CONVERT_ART_AND_NAME (artAndNameAvif paths) lang]
          | Some _ => []
          end.
Proof.
  unfold artAndNameFindings, needsCrop.
  destruct (disk !! artAndNameWebp paths) as [[w h px|]|];
    [destruct (h =? 1024);
     [|destruct (Z.abs (h - snd (getExpectedDimensions "art_and_name"))
                 >? tolerancePx config)]
    | |]; try discriminate;
    destruct (disk !! artAndNameAvif paths); intros [= <-]; split;
    (discriminate || reflexivity).
Qed.

Section OnePass.

Variables (cardNum : N) (lang : string).

Let paths := getFilePaths cardNum lang.

Hypothesis Hcodec : faultless.
Hypothesis Hlayout : NoDup (repairFiles cardNum lang).

Ltac outside i W := exact (layout_outside _ W i _ Hlayout eq_refl eq_refl).

Lemma resize_fix_ideal st w h px :
  files st !! originalWebp paths = Some (Image w h px) ->
  files st !! originalAvif paths <> Some Corrupt ->
  wp (fixOperation RESIZE_ORIGINAL cardNum lang)
     (fun r st' =>
        r = Ok tt
        /\ ((exists px', files st' !! originalWebp paths = Some (Image 734 1024 px'))
            /\ (is_Some (files st' !! originalAvif paths)
                <-> is_Some (files st !! originalAvif paths)))) st.
Proof.
  intros Ho Hoa.
  assert (originalWebp paths ∉ [JS.replaceExt (originalWebp paths)]) as N01
    by outside 0%nat [1%nat].
  assert (originalAvif paths ∉ [JS.replaceExt (originalAvif paths)]) as N23
    by outside 2%nat [3%nat].
  assert (originalAvif paths
            ∉ [originalWebp paths; JS.replaceExt (originalWebp paths)]) as N2
    by outside 2%nat [0%nat; 1%nat].
  assert (originalWebp paths
            ∉ [originalAvif paths; JS.replaceExt (originalAvif paths)]) as N0
    by outside 0%nat [2%nat; 3%nat].
  rewrite list_elem_of_singleton in N01, N23.
  unfold fixOperation. fold paths. wp_step.
  eapply wp_mono; [apply (resizeImage_ideal _ _ _ w h px Hcodec Ho); congruence|].
  intros r s1 (-> & Ho1 & Ha1). wp_step. run_prim.
  rewrite (Ha1 _ N2).
  destruct (files st !! originalAvif paths) as [[wa ha pa|]|] eqn:Eoa;
    [| now destruct Hoa |].
  - eapply wp_mono.
    { apply (resizeImage_ideal _ _ _ wa ha pa Hcodec); [|congruence].
      rewrite (Ha1 _ N2). exact Eoa. }
    intros r s2 (-> & Hoa2 & Ha2). split; [reflexivity|]. split.
    + rewrite (Ha2 _ N0), Ho1. eauto.
    + rewrite Hoa2. split; eauto.
  - run_prim. split; [reflexivity|]. split; [rewrite Ho1; eauto|].
    rewrite (Ha1 _ N2), Eoa. reflexivity.
Qed.

Lemma phase_resize st w h px :
  files st !! originalWebp paths = Some (Image w h px) ->
  files st !! originalAvif paths <> Some Corrupt ->
  exists st',
    fixedAll cardNum lang
      (if negb (w =? 734) || negb (h =? 1024)
       then [mkIssue RESIZE_ORIGINAL (originalWebp paths) lang] else []) st st'
    /\ (exists px', files st' !! originalWebp paths = Some (Image 734 1024 px'))
    /\ (is_Some (files st' !! originalAvif paths)
        <-> is_Some (files st !! originalAvif paths))
    /\ agreeOutside
         [originalWebp paths; JS.replaceExt (originalWebp paths);
          originalAvif paths; JS.replaceExt (originalAvif paths)]
         (files st) (files st').
Proof.
  intros Ho Hoa.
  destruct (negb (w =? 734) || negb (h =? 1024)) eqn:E.
  - destruct (fixIssue_fixed (mkIssue RESIZE_ORIGINAL (originalWebp paths) lang)
                cardNum lang st
                (fun d => (exists px', d !! originalWebp paths = Some (Image 734 1024 px'))
                          /\ (is_Some (d !! originalAvif paths)
                              <-> is_Some (files st !! originalAvif paths))))
      as (st' & Hfix & [Ho' Hoa'] & Ha).
    { cbn [step]. now apply (resize_fix_ideal st w h px). }
    exists st'. split_and!; auto.
  - apply orb_false_iff in E as [Ew Eh]. apply negb_false_iff in Ew, Eh.
    apply Z.eqb_eq in Ew, Eh. subst w h.
    exists st. split_and!; eauto using fixedAll_nil, agreeOutside_refl.
Qed.

Lemma phase_convert s webp avif lang' st w h px :
  fixOperation s cardNum lang = convertToAvif webp avif ->
  writeSet s cardNum lang = [avif] ->
  files st !! webp = Some (Image w h px) ->
  exists st',
    fixedAll cardNum lang
      (match files st !! avif with
       | None => [mkIssue s avif lang']
       | Some _ => []
       end) st st'
    /\ is_Some (files st' !! avif)
    /\ agreeOutside [avif] (files st) (files st').
Proof.
  intros Hop Hws Hw.
  destruct (files st !! avif) as [f|] eqn:E.
  - exists st. rewrite E. split_and!; eauto using fixedAll_nil, agreeOutside_refl.
  - destruct (fixIssue_fixed (mkIssue s avif lang') cardNum lang st
                (fun d => is_Some (d !! avif))) as (st' & Hfix & Hp & Ha).
    { cbn [step]. rewrite Hop.
      eapply wp_mono; [apply (convertToAvif_ideal _ _ _ w h px Hcodec Hw)|].
      intros r s' [-> Hs']. split; [reflexivity|]. rewrite Hs'. eauto. }
    cbn [step] in Ha. rewrite Hws in Ha. exists st'. auto.
Qed.

Lemma phase_crop artOnly lang' st px :
  let dest := cropDestination artOnly cardNum lang in
  files st !! originalWebp paths = Some (Image 734 1024 px) ->
  originalWebp paths <> topFileOf dest ->
  files st !! dest <> Some Corrupt ->
  exists st',
    fixedAll cardNum lang
      (if needsCrop (files st !! dest)
       then [mkIssue (cropStep artOnly) dest lang'] else []) st st'
    /\ (exists vw vh vpx, files st' !! dest = Some (Image vw vh vpx) /\ vh <> 1024)
    /\ agreeOutside (cropFiles dest) (files st) (files st').
Proof.
  intros dest Ho Hne Hd.
  destruct (needsCrop (files st !! dest)) eqn:E.
  - destruct (fixIssue_fixed (mkIssue (cropStep artOnly) dest lang') cardNum lang st
                (fun d => d !! dest
                          = Some (Image 734 (croppedHeight artOnly)
                                    (croppedPixels artOnly px))))
      as (st' & Hfix & Hp & Ha).
    { cbn [step].
      assert (wp (do _ <- cropImage (originalWebp paths) dest artOnly
                            (getCardNumber cardNum); ret tt)
                (fun r st' =>
                   r = Ok tt
                   /\ files st' !! dest
                      = Some (Image 734 (croppedHeight artOnly)
                                (croppedPixels artOnly px))) st) as H.
      { wp_step.
        eapply wp_mono;
          [apply (cropImage_ideal (originalWebp paths) artOnly cardNum lang _ st px
                    Hcodec Ho Hne)|].
        intros r s' [-> Hs']. run_prim. auto. }
      destruct artOnly; exact H. }
    exists st'. split; [exact Hfix|]. split.
    + eexists _, _, _. split; [exact Hp|]. rewrite croppedHeight_value.
      destruct artOnly; discriminate.
    + destruct artOnly; exact Ha.
  - exists st. split; [apply fixedAll_nil|]. split; [|apply agreeOutside_refl].
    unfold needsCrop in E.
    destruct (files st !! dest) as [[vw vh vpx|]|]; [|now destruct Hd | discriminate].
    apply Z.eqb_neq in E. eauto.
Qed.

Lemma findings_clean (disk : gmap string File) px :
  disk !! originalWebp paths = Some (Image 734 1024 px) ->
  is_Some (disk !! originalAvif paths) ->
  (negb (skipVariants config) && isFirstLanguage lang = true ->
   (exists vw vh vpx, disk !! artOnlyWebp paths = Some (Image vw vh vpx) /\ vh <> 1024)
   /\ is_Some (disk !! artOnlyAvif paths)) ->
  (negb (skipVariants config) = true ->
   (exists vw vh vpx, disk !! artAndNameWebp paths = Some (Image vw vh vpx) /\ vh <> 1024)
   /\ is_Some (disk !! artAndNameAvif paths)) ->
  exists fs, findings disk cardNum lang = Some fs /\ issuesOf fs = [].
Proof.
  intros Ho [fa Hoa] Hao Han. unfold findings. fold paths. rewrite Ho, Hoa.
  cbn [Z.eqb Pos.eqb negb orb app].
  destruct (negb (skipVariants config)) eqn:Es; cbn [andb] in *.
  - destruct (Han eq_refl) as [(vw & vh & vpx & Hw & Hh) [fn Hn]].
    unfold artAndNameFindings. rewrite Hw, Hn.
    apply Z.eqb_neq in Hh. rewrite Hh.
    destruct (isFirstLanguage lang) eqn:Ef.
    + destruct (Hao eq_refl) as [(vw' & vh' & vpx' & Hw' & Hh') [fo Ho']].
      unfold artOnlyFindings. rewrite Hw', Ho'.
      apply Z.eqb_neq in Hh'. rewrite Hh'.
      destruct (Z.abs _ >? _); destruct (Z.abs _ >? _); eexists; split; reflexivity.
    + destruct (Z.abs _ >? _); eexists; split; reflexivity.
  - eexists; split; reflexivity.
Qed.

Lemma phase_variant artOnly lang' st px :
  let dest := cropDestination artOnly cardNum lang in
  let avif := if artOnly then artOnlyAvif paths else artAndNameAvif paths in
  let convertStep := if artOnly then CONVERT_ART_ONLY else CONVERT_ART_AND_NAME in
  files st !! originalWebp paths = Some (Image 734 1024 px) ->
  files st !! dest <> Some Corrupt ->
  exists st',
    fixedAll cardNum lang
      ((if needsCrop (files st !! dest)
        then [mkIssue (cropStep artOnly) dest lang'] else [])
       ++ match files st !! avif with
          | None => [mkIssue convertStep avif lang']
          | Some _ => []
          end) st st'
    /\ (exists vw vh vpx, files st' !! dest = Some (Image vw vh vpx) /\ vh <> 1024)
    /\ is_Some (files st' !! avif)
    /\ agreeOutside (avif :: cropFiles dest) (files st) (files st').
Proof.
  intros dest avif convertStep Ho Hd.
  assert (originalWebp paths <> topFileOf dest) as Ntop.
  { assert (originalWebp paths ∉ [topFileOf dest]) as H
      by (destruct artOnly; [outside 0%nat [8%nat] | outside 0%nat [12%nat]]).
    now rewrite list_elem_of_singleton in H. }
  assert (avif ∉ cropFiles dest) as Navif
    by (destruct artOnly;
        [outside 4%nat [6%nat; 7%nat; 8%nat; 9%nat]
        | outside 5%nat [10%nat; 11%nat; 12%nat; 13%nat]]).
  assert (dest ∉ [avif]) as Ndest
    by (destruct artOnly; [outside 6%nat [4%nat] | outside 10%nat [5%nat]]).
  destruct (phase_crop artOnly lang' st px Ho Ntop Hd)
    as (s1 & F1 & (vw & vh & vpx & Hv1 & Hh) & A1).
  fold dest in F1, Hv1, A1.
  destruct (phase_convert convertStep dest avif lang' s1 vw vh vpx)
    as (s2 & F2 & Hs2 & A2); [destruct artOnly; reflexivity .. | exact Hv1 |].
  rewrite (A1 _ Navif) in F2.
  exists s2. split_and!.
  - eapply fixedAll_app; eauto.
  - exists vw, vh, vpx. rewrite (A2 _ Ndest). auto.
  - exact Hs2.
  - intros q Hq. rewrite not_elem_of_cons in Hq. destruct Hq as [Hq1 Hq2].
    rewrite (A2 q), (A1 q Hq2); [reflexivity|]. now rewrite list_elem_of_singleton.
Qed.

(** With a faultless codec, the fixes of everything a validation found
    on a card whose Original is on disk all succeed, and the next
    validation finds nothing. *)
Lemma one_pass st w h px fs :
  decodable (files st) ->
  files st !! originalWebp paths = Some (Image w h px) ->
  findings (files st) cardNum lang = Some fs ->
  exists st' fs',
    fixedAll cardNum lang (issuesOf fs) st st'
    /\ findings (files st') cardNum lang = Some fs'
    /\ issuesOf fs' = [].
Proof.
  intros Hd Ho Hfs.
  destruct (findings_existing _ _ _ _ _ _ _ Ho Hfs) as (ao & an & -> & Hao & Han).
  fold paths in Hao, Han |- *. rewrite !issuesOf_app.
  (* the Original *)
  destruct (phase_resize st w h px Ho (Hd _)) as (s1 & F1 & [px1 Ho1] & Hoa1 & A1).
  destruct (phase_convert CONVERT_ORIGINAL (originalWebp paths) (originalAvif paths)
              lang s1 734 1024 px1 eq_refl eq_refl Ho1) as (s2 & F2 & Hoa2 & A2).
  assert (originalWebp paths ∉ [originalAvif paths]) as N0 by outside 0%nat [2%nat].
  assert (files s2 !! originalWebp paths = Some (Image 734 1024 px1)) as Ho2
    by (rewrite (A2 _ N0); exact Ho1).
  assert (forall q,
             q ∉ [originalWebp paths; JS.replaceExt (originalWebp paths);
                  originalAvif paths; JS.replaceExt (originalAvif paths)] ->
             files s2 !! q = files st !! q) as A02.
  { intros q Hq. rewrite (A2 q), (A1 q Hq); [reflexivity|].
    intros Hin. apply list_elem_of_singleton in Hin as ->. apply Hq.
    do 2 right. left. }
  assert (fixedAll cardNum lang
            (issuesOf (if negb (w =? 734) || negb (h =? 1024)
                       then [(OriginalWrongDimensions (getCardNumber cardNum) lang w h,
                              Some (mkIssue RESIZE_ORIGINAL (originalWebp paths) lang))]
                       else [])
             ++ issuesOf match files st !! originalAvif paths with
                         | None => [(MissingOriginalAvif (getCardNumber cardNum) lang,
                                     Some (mkIssue CONVERT_ORIGINAL
                                             (originalAvif paths) lang))]
                         | Some _ => []
                         end) st s2) as F02.
  { eapply fixedAll_app.
    - destruct (negb (w =? 734) || negb (h =? 1024)); exact F1.
    - destruct (files st !! originalAvif paths) as [f|] eqn:E;
        destruct (files s1 !! originalAvif paths) as [f1|] eqn:E1; try exact F2.
      + destruct (proj2 Hoa1) as [? [=]]. eauto.
      + destruct (proj1 Hoa1) as [? [=]]. eauto. }
  (* the art_only variant *)
  assert (exists s4,
             fixedAll cardNum lang (issuesOf ao) s2 s4
             /\ files s4 !! originalWebp paths = Some (Image 734 1024 px1)
             /\ is_Some (files s4 !! originalAvif paths)
             /\ (negb (skipVariants config) && isFirstLanguage lang = true ->
                 (exists vw vh vpx, files s4 !! artOnlyWebp paths = Some (Image vw vh vpx)
                                    /\ vh <> 1024)
                 /\ is_Some (files s4 !! artOnlyAvif paths))
             /\ (forall q, q ∉ artOnlyAvif paths :: cropFiles (artOnlyWebp paths) ->
                           files s4 !! q = files s2 !! q))
    as (s4 & F4 & Ho4 & Hoa4 & Hao4 & A4).
  { destruct (negb (skipVariants config) && isFirstLanguage lang).
    - destruct (artOnlyFindings_exact _ _ _ _ Hao) as [Hc ->].
      assert (artOnlyWebp paths
                ∉ [originalWebp paths; JS.replaceExt (originalWebp paths);
                   originalAvif paths; JS.replaceExt (originalAvif paths)]) as N6
        by outside 6%nat [0%nat; 1%nat; 2%nat; 3%nat].
      assert (artOnlyAvif paths
                ∉ [originalWebp paths; JS.replaceExt (originalWebp paths);
                   originalAvif paths; JS.replaceExt (originalAvif paths)]) as N4
        by outside 4%nat [0%nat; 1%nat; 2%nat; 3%nat].
      destruct (phase_variant true "shared" s2 px1 Ho2) as (s4 & F4 & Hv4 & Ha4 & A4).
      { cbn [cropDestination]. fold paths. rewrite (A02 _ N6). exact Hc. }
      cbn [cropDestination] in F4, Hv4, A4. fold paths in F4, Hv4, A4.
      rewrite (A02 _ N6), (A02 _ N4) in F4.
      exists s4. split_and!; auto.
      + rewrite A4; [exact Ho2|].
        outside 0%nat [4%nat; 6%nat; 7%nat; 8%nat; 9%nat].
      + rewrite A4; [exact Hoa2|].
        outside 2%nat [4%nat; 6%nat; 7%nat; 8%nat; 9%nat].
    - injection Hao as <-. exists s2.
      split_and!; auto using fixedAll_nil; discriminate. }
  (* the art_and_name variant *)
  assert (forall q,
             q ∉ [originalWebp paths; JS.replaceExt (originalWebp paths);
                  originalAvif paths; JS.replaceExt (originalAvif paths)] ->
             q ∉ artOnlyAvif paths :: cropFiles (artOnlyWebp paths) ->
             files s4 !! q = files st !! q) as A04
    by (intros q Hq Hq'; rewrite (A4 q Hq'); now apply A02).
  assert (exists s6,
             fixedAll cardNum lang (issuesOf an) s4 s6
             /\ (negb (skipVariants config) = true ->
                 (exists vw vh vpx,
                     files s6 !! artAndNameWebp paths = Some (Image vw vh vpx)
                     /\ vh <> 1024)
                 /\ is_Some (files s6 !! artAndNameAvif paths))
             /\ (forall q, q ∉ artAndNameAvif paths :: cropFiles (artAndNameWebp paths) ->
                           files s6 !! q = files s4 !! q))
    as (s6 & F6 & Han6 & A6).
  { destruct (negb (skipVariants config)).
    - destruct (artAndNameFindings_exact _ _ _ _ _ Han) as [Hc ->].
      assert (artAndNameWebp paths
                ∉ [originalWebp paths; JS.replaceExt (originalWebp paths);
                   originalAvif paths; JS.replaceExt (originalAvif paths)]) as N10
        by outside 10%nat [0%nat; 1%nat; 2%nat; 3%nat].
      assert (artAndNameAvif paths
                ∉ [originalWebp paths; JS.replaceExt (originalWebp paths);
                   originalAvif paths; JS.replaceExt (originalAvif paths)]) as N5
        by outside 5%nat [0%nat; 1%nat; 2%nat; 3%nat].
      assert (artAndNameWebp paths
                ∉ artOnlyAvif paths :: cropFiles (artOnlyWebp paths)) as N10'
        by outside 10%nat [4%nat; 6%nat; 7%nat; 8%nat; 9%nat].
      assert (artAndNameAvif paths
                ∉ artOnlyAvif paths :: cropFiles (artOnlyWebp paths)) as N5'
        by outside 5%nat [4%nat; 6%nat; 7%nat; 8%nat; 9%nat].
      destruct (phase_variant false lang s4 px1 Ho4) as (s6 & F6 & Hv6 & Ha6 & A6).
      { cbn [cropDestination]. fold paths. rewrite (A04 _ N10 N10'). exact Hc. }
      cbn [cropDestination] in F6, Hv6, A6. fold paths in F6, Hv6, A6.
      rewrite (A04 _ N10 N10'), (A04 _ N5 N5') in F6.
      exists s6. split_and!; auto.
    - injection Han as <-. exists s4.
      split_and!; auto using fixedAll_nil; discriminate. }
  (* the disk afterwards *)
  destruct (findings_clean (files s6) px1) as (fs' & Hfs' & Hnone).
  - rewrite A6; [exact Ho4|].
    outside 0%nat [5%nat; 10%nat; 11%nat; 12%nat; 13%nat].
  - rewrite A6; [exact Hoa4|].
    outside 2%nat [5%nat; 10%nat; 11%nat; 12%nat; 13%nat].
  - intros Hex. destruct (Hao4 Hex) as [(vw & vh & vpx & Hv & Hh) Ha].
    split.
    + exists vw, vh, vpx. rewrite A6; [auto|].
      outside 6%nat [5%nat; 10%nat; 11%nat; 12%nat; 13%nat].
    + rewrite A6; [exact Ha|].
      outside 4%nat [5%nat; 10%nat; 11%nat; 12%nat; 13%nat].
  - exact Han6.
  - exists s6, fs'. split; [|auto].
    rewrite app_assoc. eapply fixedAll_app; [exact F02|].
    eapply fixedAll_app; eauto.
Qed.

End OnePass.

Lemma repairLoop_one_pass budget cardNum lang st issues st0 :
  faultless ->
  NoDup (repairFiles cardNum lang) ->
  decodable (files st) ->
  is_Some (files st !! originalWebp (getFilePaths cardNum lang)) ->
  validateCard cardNum lang st = (Ok issues, st0) ->
  exists st',
    repairLoop (S budget) cardNum lang issues st0
    = (Ok ([], match issues with
               | [] => (maxAttempts - S budget)%nat
               | _ :: _ => S (maxAttempts - S budget)
               end), st')
    /\ executed (journal st')
       = executed (journal st0) ++ map (fun i => (lang, step i, true)) issues
    /\ failed (stats st') = failed (stats st0).
Proof.
  intros Hw Hlayout Hd [f Ho] E.
  pose proof (wp_run _ _ _ (validateCard_findings cardNum lang st) _ _ E)
    as (Hf0 & _ & _ & _ & _ & Hdom0 & _ & fs & Hfs & -> & _ & _ & Hl).
  destruct f as [w h px|]; [|now destruct (Hd _ Ho)].
  rewrite <- Hf0 in Hd, Ho, Hfs.
  destruct (one_pass cardNum lang Hw Hlayout st0 w h px fs Hd Ho Hfs)
    as (s1 & fs' & (Efix & Hj1 & Hfa1 & Hdom1) & Hfs' & Hnone).
  destruct (issuesOf fs) as [|i issues] eqn:Ei.
  - exists st0. cbn [repairLoop length Nat.ltb Nat.leb map]. rewrite app_nil_r. auto.
  - destruct (validateCard_known_resolves cardNum lang s1 fs' Hfs')
      as (s2 & E2 & _ & _ & Hj2 & _ & Hfa2 & _).
    { rewrite (resolves_dom st0 s1 lang Hdom1), (resolves_dom st st0 lang Hdom0).
      exact Hl. }
    rewrite Hnone in E2.
    exists s2. split_and!; [| congruence | congruence].
    rewrite (repairLoop_pass budget cardNum lang (i :: issues) st0 s1 [] s2);
      [reflexivity | discriminate | | exact E2].
    rewrite <- Ei, (proj1 (findings_issues_sorted _ _ _ _ Hfs)), Ei. exact Efix.
Qed.

(** With an Original of the exact size and no variant of the full
    height on disk, validation asks for no resize, and for a crop only
    where the variant is missing. *)
Lemma findings_only_missing disk cardNum lang px fs i :
  let paths := getFilePaths cardNum lang in
  disk !! originalWebp paths = Some (Image 734 1024 px) ->
  uncropped (disk !! artOnlyWebp paths) = false ->
  uncropped (disk !! artAndNameWebp paths) = false ->
  findings disk cardNum lang = Some fs ->
  In i (issuesOf fs) ->
  match step i with
  | DOWNLOAD | RESIZE_ORIGINAL => False
  | CROP_ART_ONLY => disk !! artOnlyWebp paths = None
  | CROP_ART_AND_NAME => disk !! artAndNameWebp paths = None
  | _ => True
  end.
Proof.
  intros paths Ho Hao' Han' Hfs Hi.
  destruct (findings_existing _ _ _ _ _ _ _ Ho Hfs) as (ao & an & Hdec & Hao & Han).
  destruct (proj1 (in_issues_existing disk cardNum lang 734 1024 fs ao an i Hdec) Hi)
    as [[_ [H|H]] | [[-> _] | [Hi' | Hi']]];
    [now destruct H | now destruct H | exact I | |]; clear Hi; rename Hi' into Hi;
    fold paths in Hao, Han.
  - destruct (negb (skipVariants config) && isFirstLanguage lang);
      [|injection Hao as <-; destruct Hi].
    destruct (artOnlyFindings_exact _ _ _ _ Hao) as [_ E]. rewrite E in Hi.
    apply in_app_iff in Hi. destruct Hi as [Hi|Hi].
    + destruct (disk !! artOnlyWebp paths) as [[vw vh vpx|]|]; cbn in Hi, Hao' |- *.
      * rewrite Hao' in Hi. destruct Hi.
      * destruct Hi.
      * destruct Hi as [<-|[]]. reflexivity.
    + destruct (disk !! artOnlyAvif paths); [destruct Hi|].
      destruct Hi as [<-|[]]. exact I.
  - destruct (negb (skipVariants config)); [|injection Han as <-; destruct Hi].
    destruct (artAndNameFindings_exact _ _ _ _ _ Han) as [_ E]. rewrite E in Hi.
    apply in_app_iff in Hi. destruct Hi as [Hi|Hi].
    + destruct (disk !! artAndNameWebp paths) as [[vw vh vpx|]|]; cbn in Hi, Han' |- *.
      * rewrite Han' in Hi. destruct Hi.
      * destruct Hi.
      * destruct Hi as [<-|[]]. reflexivity.
    + destruct (disk !! artAndNameAvif paths); [destruct Hi|].
      destruct Hi as [<-|[]]. exact I.
Qed.

(** X17.  One pass is enough to create what is missing.  With a codec
    that never fails, on a disk where every file decodes and the
    files of the card have pairwise different paths, take a card
    whose Original WebP is on disk at exactly 734x1024 and whose
    variant WebPs, where they exist, are not 1024 high.  Then
    [validateCard] reports only missing files (AVIFs to convert,
    variants to crop): no resize, and a crop only for a variant that
    is not on disk.  The first pass of [fixCard] creates them all:
    every reported issue is fixed once, in the order reported, no fix
    fails, and the re-validation returns no issue. *)
Theorem one_pass_repairs cardNum lang st issues st0 px :
  let paths := getFilePaths cardNum lang in
  faultless ->
  NoDup (repairFiles cardNum lang) ->
  decodable (files st) ->
  files st !! originalWebp paths = Some (Image 734 1024 px) ->
  uncropped (files st !! artOnlyWebp paths) = false ->
  uncropped (files st !! artAndNameWebp paths) = false ->
  validateCard cardNum lang st = (Ok issues, st0) ->
  Forall (fun i => match step i with
                   | DOWNLOAD | RESIZE_ORIGINAL => False
                   | CROP_ART_ONLY => files st !! artOnlyWebp paths = None
                   | CROP_ART_AND_NAME => files st !! artAndNameWebp paths = None
                   | _ => True
                   end) issues
  /\ exists st',
      fixCard cardNum lang issues st0
      = (Ok ([], match issues with [] => 0%nat | _ :: _ => 1%nat end), st')
      /\ executed (journal st')
         = executed (journal st0) ++ map (fun i => (lang, step i, true)) issues
      /\ failed (stats st') = failed (stats st0).
Proof.
  intros paths Hw Hlayout Hd Ho Hao Han E. split.
  - destruct (validateCard_inv _ _ _ _ _ E) as (fs & Hfs & -> & _).
    apply List.Forall_forall. intros i Hi.
    exact (findings_only_missing _ _ _ _ _ _ Ho Hao Han Hfs Hi).
  - destruct (repairLoop_one_pass 2 cardNum lang st issues st0 Hw Hlayout Hd
                (ex_intro _ _ Ho) E)
      as (st' & E' & Hj & Hfa).
    exists st'. split_and!; [|exact Hj | exact Hfa].
    unfold fixCard. change maxAttempts with 3%nat in E' |- *.
    rewrite E'. now destruct issues.
Qed.




(** ** A variant that is only warned about *)

Lemma downloadDestination_neq_artAndName cardNum lang :
  downloadDestination cardNum lang <> artAndNameWebp (getFilePaths cardNum lang).
Proof.
  intros H. apply (f_equal String.length) in H.
  unfold downloadDestination, getFilePaths, getCardNumber in H.
  cbn [artAndNameWebp] in H.
  rewrite !length_append, !length_padStart0 in H.
  unfold JS.toUpperCase in H. rewrite length_map_string in H.
  cbn [String.length] in H. lia.
Qed.

Lemma findings_no_crop_artAndName disk cardNum lang fs vw vh vpx :
  disk !! artAndNameWebp (getFilePaths cardNum lang) = Some (Image vw vh vpx) ->
  vh <> 1024 ->
  findings disk cardNum lang = Some fs ->
  ~ In CROP_ART_AND_NAME (map step (issuesOf fs)).
Proof.
  intros Hv Hh Hfs Hin. apply in_map_iff in Hin as (i & Hstep & Hi).
  destruct (disk !! originalWebp (getFilePaths cardNum lang)) as [[w h px|]|] eqn:Ho.
  - destruct (findings_existing _ _ _ _ _ _ _ Ho Hfs) as (ao & an & Hdec & Hao & Han).
    destruct (proj1 (in_issues_existing disk cardNum lang w h fs ao an i Hdec) Hi)
      as [[-> _] | [[-> _] | [Hi' | Hi']]]; try discriminate.
    + destruct (negb (skipVariants config) && isFirstLanguage lang).
      * destruct (artOnlyFindings_steps _ _ _ _ _ Hao Hi') as [-> | ->]; discriminate.
      * injection Hao as <-. destruct Hi'.
    + destruct (negb (skipVariants config)).
      * destruct (artAndNameFindings_exact _ _ _ _ _ Han) as [_ E].
        rewrite E, Hv in Hi'. cbn [needsCrop] in Hi'.
        apply Z.eqb_neq in Hh. rewrite Hh in Hi'. cbn [app] in Hi'.
        destruct (disk !! artAndNameAvif (getFilePaths cardNum lang));
          [destruct Hi' | destruct Hi' as [<- | []]; discriminate].
      * injection Han as <-. destruct Hi'.
  - unfold findings in Hfs. rewrite Ho in Hfs. discriminate.
  - rewrite (findings_missing_original _ _ _ Ho) in Hfs. injection Hfs as <-.
    destruct Hi as [<- | []]. discriminate.
Qed.

Lemma repairLoop_keeps_artAndName budget cardNum lang issues st vw vh vpx :
  let variant := artAndNameWebp (getFilePaths cardNum lang) in
  NoDup (repairFiles cardNum lang) ->
  vh <> 1024 ->
  files st !! variant = Some (Image vw vh vpx) ->
  Forall (fun i => step i <> CROP_ART_AND_NAME) issues ->
  wp (repairLoop budget cardNum lang issues)
     (fun _ st' => files st' !! variant = Some (Image vw vh vpx)) st.
Proof.
  intros variant Hlayout Hh. revert issues st.
  induction budget as [|budget IH]; intros issues st Hv Hall; cbn [repairLoop].
  - unfold wp. cbn. exact Hv.
  - destruct (0 <? length issues)%nat; [|unfold wp; cbn; exact Hv].
    set (steps := [DOWNLOAD; RESIZE_ORIGINAL; CONVERT_ORIGINAL; CROP_ART_ONLY;
                   CONVERT_ART_ONLY; CONVERT_ART_AND_NAME]).
    assert (variant ∉ writeSets steps cardNum lang) as Hout.
    { unfold writeSets, steps. cbn [map concat writeSet app].
      rewrite not_elem_of_cons. split.
      - intros H. symmetry in H. exact (downloadDestination_neq_artAndName _ _ H).
      - exact (layout_outside _ [0; 1; 2; 3; 2; 6; 7; 8; 9; 4; 5]%nat 10%nat _
                 Hlayout eq_refl eq_refl). }
    wp_step.
    eapply wp_mono; [apply (fixAll_spec steps)|].
    { eapply List.Forall_impl;
        [|eapply Permutation_Forall; [symmetry; apply sortIssues_perm | exact Hall]].
      intros i Hi.
      apply list_elem_of_In. unfold steps. cbv beta in Hi. revert Hi.
      destruct (step i); intros Hi; cbn; first [tauto | congruence]. }
    intros r st1 (-> & Ha & _).
    assert (files st1 !! variant = Some (Image vw vh vpx)) as Hv1
      by (rewrite (Ha _ Hout); exact Hv).
    wp_step.
    pose proof (validateCard_findings cardNum lang st1) as Hval.
    unfold wp in Hval |- *.
    destruct (validateCard cardNum lang st1) as [[rest|e] st2]; cbn [fst snd] in *.
    + destruct Hval as (Hf2 & _ & _ & _ & _ & _ & _ & fs & Hfs & -> & _).
      destruct (length (issuesOf fs) =? 0)%nat.
      * cbn. now rewrite Hf2.
      * apply IH; [now rewrite Hf2|].
        apply List.Forall_forall. intros i Hi Hs.
        apply (findings_no_crop_artAndName _ _ _ _ _ _ _ Hv1 Hh Hfs).
        apply in_map_iff. eauto.
    + destruct Hval as (Hf2 & _). now rewrite Hf2.
Qed.

(** X19.  A variant that is only warned about is never repaired.  An
    art_and_name WebP that is on disk with a height other than 1024,
    whatever its dimensions, gets no crop issue from [validateCard],
    and the repair loop that follows never rewrites it, whatever the
    other issues are and whatever the CDN and the codec do: after
    [fixCard] the file is exactly what it was. *)
Theorem wrong_size_variant_left_alone cardNum lang st issues st0 vw vh vpx :
  let variant := artAndNameWebp (getFilePaths cardNum lang) in
  NoDup (repairFiles cardNum lang) ->
  files st !! variant = Some (Image vw vh vpx) ->
  vh <> 1024 ->
  validateCard cardNum lang st = (Ok issues, st0) ->
  ~ In CROP_ART_AND_NAME (map step issues)
  /\ wp (fixCard cardNum lang issues)
        (fun _ st' => files st' !! variant = Some (Image vw vh vpx)) st0.
Proof.
  intros variant Hlayout Hv Hh E.
  destruct (validateCard_inv _ _ _ _ _ E) as (fs & Hfs & -> & Hf0 & _).
  pose proof (findings_no_crop_artAndName _ _ _ _ _ _ _ Hv Hh Hfs) as Hno.
  split; [exact Hno|].
  unfold fixCard. apply repairLoop_keeps_artAndName; auto.
  - now rewrite Hf0.
  - apply List.Forall_forall. intros i Hi Hs. apply Hno. apply in_map_iff. eauto.
Qed.

(** ** The exit code *)

Lemma failures_none es : failures es = 0%nat <-> Forall (fun e => snd e = true) es.
Proof.
  unfold failures. induction es as [|[[l s] b] es IH]; cbn.
  - split; [constructor | reflexivity].
  - destruct b; cbn.
    + rewrite IH. split; [now constructor | now inversion 1].
    + split; [discriminate | inversion 1; discriminate].
Qed.

(** What [main] does, in terms of the run. *)
Lemma main_run isoTime now disk r s :
  validateAndFixAll isoTime now (constructor disk) = (r, s) ->
  main isoTime now disk
  = (match r with
     | Ok _ => if (0 <? failed (stats s))%nat then 1 else 0
     | Throw _ => 1
     end, s).
Proof.
  intros E. unfold main. rewrite E. destruct r as [report|e]; [|reflexivity].
  destruct (wp_run _ _ _ (validateAndFixAll_inv isoTime now (constructor disk)) _ _ E)
    as (r1 & st1 & _ & Hs & _ & _ & _ & _ & _ & _ & _ & _ & _ & Hfa).
  rewrite Hfa, <- Hs. destruct (0 <? failed (stats s))%nat; [reflexivity|].
  now destruct (_ && _).
Qed.

(** X20.  The exit code of [main].  It is 0 or 1, and it is 0 exactly
    when the run returned and every fix that was attempted succeeded.
    Issues that remain do not count: a dry run that completes, and a
    run that leaves issues unresolved without a failed fix, both exit
    with 0.  [main] itself writes no file: the disk it leaves is the
    one the run left. *)
Theorem main_exit_code isoTime now disk :
  let run := validateAndFixAll isoTime now (constructor disk) in
  let code := fst (main isoTime now disk) in
  (code = 0 \/ code = 1)
  /\ (code = 0
      <-> (exists report, fst run = Ok report)
          /\ Forall (fun e => snd e = true) (executed (journal (snd run))))
  /\ snd (main isoTime now disk) = snd run.
Proof.
  intros run code. subst code.
  destruct run as [r s] eqn:E. subst run. cbn [fst snd].
  rewrite (main_run isoTime now disk r s E). cbn [fst snd].
  pose proof (wp_run _ _ _ (validateAndFixAll_tallied isoTime now (constructor disk))
                _ _ E) as (es & Hj & _ & Hfa).
  cbn in Hj, Hfa. rewrite Hj. rewrite <- failures_none, <- Hfa.
  destruct r as [report|e].
  - destruct (Nat.ltb_spec 0 (failed (stats s))) as [Hpos|Hzero].
    + split_and!; [now right | | reflexivity].
      split; [discriminate | intros [_ H]; lia].
    + split_and!; [now left | | reflexivity].
      split; [intros _; split; [eauto | lia] | reflexivity].
  - split_and!; [now right | | reflexivity].
    split; [discriminate | intros [[? [=]] _]].
Qed.
End Validator.


(** ** The command line *)

Lemma parseArgs_dry_run args CONFIG :
  includes "--dry-run" args = true -> autoFix (parseArgs args CONFIG) = false.
Proof.
  intros H. unfold parseArgs. rewrite H.
  now destruct (includes "--verbose" args).
Qed.

(** X21.  The [--dry-run] flag.  With [--dry-run] among the arguments,
    whatever [CONFIG] says and whatever is on disk, [main] makes no
    request to the CDN, has the codec write no image and attempts no
    fix.  Either the run returns, and then the report is the only file
    written and the exit code is 0 even when issues were found; or the
    validation throws, and then nothing at all is written and the
    exit code is 1. *)
Theorem dry_run_flag_writes_only_the_report args CONFIG world isoTime now disk :
  includes "--dry-run" args = true ->
  let config := parseArgs args CONFIG in
  let run := validateAndFixAll config world isoTime now (constructor config disk) in
  let result := main config world isoTime now disk in
  clock (snd result) = 0%nat
  /\ executed (journal (snd result)) = []
  /\ ((exists report, fst run = Ok report)
      /\ fst result = 0
      /\ files (snd result) = <[reportPath config now := Corrupt]> disk
      \/ (exists e, fst run = Throw e)
         /\ fst result = 1
         /\ files (snd result) = disk).
Proof.
  intros Hflag config run result. subst result.
  destruct run as [r s] eqn:E. subst run.
  rewrite (main_run config world isoTime now disk r s E). cbn [fst snd].
  pose proof (parseArgs_dry_run args CONFIG Hflag) as Hdry. fold config in Hdry.
  destruct (wp_run _ _ _
              (validateAndFixAll_inv config world isoTime now (constructor config disk))
              _ _ E)
    as (r1 & st1 & E1 & Hs & Hj & Hc & H).
  destruct (wp_run _ _ _ (dry_run_untouched config world (constructor config disk) Hdry)
              _ _ E1)
    as (Hf1 & Hc1 & Hj1 & _ & Hfa1 & _).
  cbn in Hf1, Hc1, Hj1, Hfa1.
  split_and!; [congruence | congruence |].
  destruct r as [report|e].
  - left. destruct H as (_ & _ & Hf & _).
    rewrite Hs, Hfa1. cbn [Nat.ltb Nat.leb]. split_and!; eauto. now rewrite Hf, Hf1.
  - right. destruct H as [Hf _]. split_and!; eauto. congruence.
Qed.
(** ** The claims on the example inputs *)

Import Example.

Lemma counters_EN disk : is_Some (byLanguage (stats (stateOf disk)) !! "EN"%string).
Proof. exists noCounters. reflexivity. Qed.

Lemma counters_IT disk : is_Some (byLanguage (stats (stateOf disk)) !! "IT"%string).
Proof. exists noCounters. reflexivity. Qed.

(** C1, as stated, fails: with the Original missing, an uncropped
    art_and_name WebP on disk gets no Crop issue; validation returns the
    DOWNLOAD issue alone. *)
Lemma C1_counterexample :
  files (stateOf orphanVariantDisk) !! "cards/EN/001/art_and_name/001.webp"%string
  = Some (Image 734 1024 (card 3))
  /\ exists st',
       validateCard config 1 "EN" (stateOf orphanVariantDisk)
       = (Ok [mkIssue DOWNLOAD "cards/EN/001/001.webp" "EN"], st')
       /\ ~ In CROP_ART_AND_NAME
              (map step [mkIssue DOWNLOAD "cards/EN/001/001.webp" "EN"]).
Proof.
  split; [reflexivity|]. eexists. split; [vm_compute; reflexivity|].
  simpl. intros [H|[]]. discriminate H.
Qed.

Lemma C1_witness :
  exists issues st',
    validateCard config 1 "EN" (stateOf (artAndNameDisk 1024)) = (Ok issues, st')
    /\ In (mkIssue CROP_ART_AND_NAME "cards/EN/001/art_and_name/001.webp" "EN") issues.
Proof.
  destruct (C1_uncropped_variant_gets_crop_issue config)
    as (Hcrop & _ & _ & Hreturns & _).
  destruct (Hreturns 1%N "EN"%string (stateOf (artAndNameDisk 1024)))
    as (issues & st' & Hv).
  - intros p _. apply decodable_check. vm_compute. reflexivity.
  - apply counters_EN.
  - exists issues, st'. split; [exact Hv|].
    apply (proj1 (Hcrop 1%N "EN"%string _ issues st' Hv
                    ltac:(eexists; vm_compute; reflexivity) eq_refl)
             734 (card 3)).
    vm_compute. reflexivity.
Defined.

Lemma C2_witness :
  exists st0 st',
    validateCard config 1 "EN" (stateOf emptyDisk)
    = (Ok [mkIssue DOWNLOAD "cards/EN/001/001.webp" "EN"], st0)
    /\ fixCard config world404 1 "EN" [mkIssue DOWNLOAD "cards/EN/001/001.webp" "EN"] st0
       = (Ok ([mkIssue DOWNLOAD "cards/EN/001/001.webp" "EN"], 3%nat), st')
    /\ files st' = emptyDisk
    /\ failed (stats st') = (failed (stats st0) + 3)%nat.
Proof.
  destruct (proj2 (proj2 (C2_bounded_retry config world404))
              1%N "EN"%string (stateOf emptyDisk))
    as (st0 & st' & Hv & Hfix & Hf & _ & Hfa & _).
  - intros t url. exists 404. reflexivity.
  - reflexivity.
  - apply counters_EN.
  - exists st0, st'. auto.
Defined.

Lemma C3_witness :
  (exists st',
      cropImage worldOk "cards/EN/001/001.webp" "cards/001/art_only/001.webp"
        true "001" (stateOf (completeDisk 734 1024))
      = (Ok true, st')
      /\ files st' !! "cards/001/art_only/001.webp"%string
         = Some (Image 734 603
                   (Joined (Extracted 0 532 (card 1)) (Extracted 953 71 (card 1)))))
  /\ (exists e st',
         cropImage worldGarbled "cards/EN/001/001.webp"
           "cards/001/art_only/001.webp" true "001" (stateOf (completeDisk 734 1024))
         = (Throw e, st')
         /\ files st' !! "cards/001/art_only/001.webp"%string
            = Some (Image 734 603 (card 2))
         /\ files st' !! "cards/001/art_only/001_temp_dest.webp"%string = None).
Proof.
  split.
  - pose proof (proj1 (C3_crop_atomic config worldOk) true 1%N "EN"%string
                  "cards/EN/001/001.webp"%string "001"%string
                  (stateOf (completeDisk 734 1024)) (card 1)
                  eq_refl ltac:(vm_compute; discriminate)
                  ltac:(vm_compute; discriminate) eq_refl eq_refl) as H.
    cbv zeta in H.
    destruct (cropImage worldOk "cards/EN/001/001.webp"
                (cropDestination config true 1 "EN") true "001"
                (stateOf (completeDisk 734 1024))) as [r st'] eqn:E.
    change (writtenBy _ _)
      with (Some (Image 734 (croppedHeight true) (croppedPixels true (card 1)))) in H.
    assert (verified true (Image 734 (croppedHeight true) (croppedPixels true (card 1)))
            = true) as Hv by (vm_compute; reflexivity).
    cbv beta iota in H. rewrite Hv in H.
    destruct H as [-> Hd]. exists st'. split; [exact E | exact Hd].
  - pose proof (proj1 (C3_crop_atomic config worldGarbled) true 1%N "EN"%string
                  "cards/EN/001/001.webp"%string "001"%string
                  (stateOf (completeDisk 734 1024)) (card 1)
                  eq_refl ltac:(vm_compute; discriminate)
                  ltac:(vm_compute; discriminate) eq_refl eq_refl) as H.
    pose proof (proj1 (proj2 (C3_crop_atomic config worldGarbled)) true 1%N "EN"%string
                  "cards/EN/001/001.webp"%string "001"%string
                  (stateOf (completeDisk 734 1024))) as H'.
    cbv zeta in H, H'.
    destruct (cropImage worldGarbled "cards/EN/001/001.webp"
                (cropDestination config true 1 "EN") true "001"
                (stateOf (completeDisk 734 1024))) as [r st'] eqn:E.
    change (writtenBy _ _) with (Some (Image 1 1 (Served "garbled" 0))) in H.
    assert (verified true (Image 1 1 (Served "garbled" 0)) = false) as Hv
      by (vm_compute; reflexivity).
    cbv beta iota in H. rewrite Hv in H.
    destruct H as [[e ->] Hd]. destruct H' as (Htmp & _).
    exists e, st'. split; [exact E|]. split; [exact Hd | exact Htmp].
Defined.

Lemma C4_witness :
  exists st0 st' px,
    validateCard config 1 "IT" (stateOf emptyDisk)
    = (Ok [mkIssue DOWNLOAD "cards/IT/001/001.webp" "IT"], st0)
    /\ fixCard config worldOk 1 "IT" [mkIssue DOWNLOAD "cards/IT/001/001.webp" "IT"] st0
       = (Ok ([], 2%nat), st')
    /\ executed (journal st')
       = [("IT"%string, DOWNLOAD, true); ("IT"%string, CONVERT_ORIGINAL, true);
          ("IT"%string, CROP_ART_AND_NAME, true);
          ("IT"%string, CONVERT_ART_AND_NAME, true)]
    /\ files st' !! "cards/IT/001/art_and_name/001.webp"%string
       = Some (Image 734 767 (croppedPixels false px)).
Proof.
  destruct (proj1 (proj2 (proj2 (proj2 (C4_pipeline_order config worldOk))))
              1%N "IT"%string (stateOf emptyDisk))
    as (st0 & st' & px & Hv & Hfix & Hj & Hd).
  - intros t. reflexivity.
  - intros t url. eexists. reflexivity.
  - reflexivity.
  - reflexivity.
  - reflexivity.
  - apply (bool_decide_unpack _). vm_compute. exact I.
  - reflexivity.
  - reflexivity.
  - reflexivity.
  - apply counters_IT.
  - exists st0, st', px. auto.
Defined.

Lemma C5_witness :
  exists st',
    cropImage worldOk "cards/EN/001/001.webp" "cards/001/art_only/001.webp" true "001"
      (stateOf (completeDisk 734 1024))
    = (Ok true, st')
    /\ files st' !! "cards/001/art_only/001.webp"%string
       = Some (Image 734 603
                 (Joined (Extracted 0 532 (card 1)) (Extracted 953 71 (card 1)))).
Proof.
  apply (proj2 (proj2 (proj2 (proj2 (proj2 (proj2 (C5_crop_pixel_math config worldOk))))))
           true 1%N "EN"%string "cards/EN/001/001.webp"%string "001"%string
           (stateOf (completeDisk 734 1024)) (card 1)).
  - intros t. reflexivity.
  - vm_compute. reflexivity.
  - vm_compute. discriminate.
Defined.

Lemma C6_witness :
  Forall (fun i => step i <> CROP_ART_ONLY /\ step i <> CONVERT_ART_ONLY)
         [mkIssue CONVERT_ORIGINAL "cards/IT/001/001.avif" "IT";
          mkIssue CROP_ART_AND_NAME "cards/IT/001/art_and_name/001.webp" "IT";
          mkIssue CONVERT_ART_AND_NAME "cards/IT/001/art_and_name/001.avif" "IT"].
Proof.
  eapply (proj1 (C6_art_only_exclusive_to_first_language config worldOk)
            1%N "IT"%string (stateOf (originalOnlyDisk 734 1024))).
  - reflexivity.
  - vm_compute. reflexivity.
Defined.

(** C7, as stated, fails: an Original of 733x1023 is within 2 pixels of
    734x1024 on both axes and is flagged for resize all the same. *)
Lemma C7_counterexample :
  Z.abs (733 - 734) <= tolerancePx config
  /\ Z.abs (1023 - 1024) <= tolerancePx config
  /\ exists st',
       validateCard config 1 "EN" (stateOf (completeDisk 733 1023))
       = (Ok [mkIssue RESIZE_ORIGINAL "cards/EN/001/001.webp" "EN"], st').
Proof.
  split; [vm_compute; discriminate|]. split; [vm_compute; discriminate|].
  eexists. vm_compute. reflexivity.
Qed.

Lemma C7_witness :
  exists issues st',
    validateCard config 1 "EN" (stateOf (completeDisk 733 1023)) = (Ok issues, st')
    /\ In RESIZE_ORIGINAL (map step issues).
Proof.
  destruct (C7_original_resize_iff_not_exact config 1%N "EN"%string
              (stateOf (completeDisk 733 1023)))
    as (Hiff & Hreturns & _).
  destruct Hreturns as (issues & st' & Hv).
  - intros p _. apply decodable_check. vm_compute. reflexivity.
  - apply counters_EN.
  - exists issues, st'. split; [exact Hv|].
    apply (Hiff issues st' Hv). exists 733, 1023, (card 1).
    split; [vm_compute; reflexivity | left; lia].
Defined.

(** C8, as stated, fails: an Original of the wrong size whose AVIF is
    missing gets a RESIZE_ORIGINAL and a CONVERT_ORIGINAL issue in the
    same pass. *)
Lemma C8_counterexample :
  exists st',
    validateCard config 1 "EN" (stateOf (noAvifDisk 700 1000))
    = (Ok [mkIssue RESIZE_ORIGINAL "cards/EN/001/001.webp" "EN";
           mkIssue CONVERT_ORIGINAL "cards/EN/001/001.avif" "EN"], st').
Proof. eexists. vm_compute. reflexivity. Qed.

Lemma C8_witness :
  exists issues st',
    validateCard config 1 "EN" (stateOf (noAvifDisk 700 1000)) = (Ok issues, st')
    /\ In RESIZE_ORIGINAL (map step issues)
    /\ In CONVERT_ORIGINAL (map step issues).
Proof.
  destruct (C8_convert_original_iff_avif_absent config 1%N "EN"%string
              (stateOf (noAvifDisk 700 1000)))
    as (Hiff & _ & Hreturns & _).
  destruct Hreturns as (issues & st' & Hv).
  - intros p _. apply decodable_check. vm_compute. reflexivity.
  - apply counters_EN.
  - exists issues, st'. split; [exact Hv|].
    apply (proj2 (Hiff issues st' Hv) 700 1000 (card 1)).
    + vm_compute. reflexivity.
    + left. lia.
    + vm_compute. reflexivity.
Defined.

(** C9, as stated, fails: an art_and_name WebP of height 770, the
    expected 767 plus tolerance 2 plus 1 and not 1024, produces no Issue
    at all; validation only logs a warning. *)
Lemma C9_counterexample :
  770 = snd (getExpectedDimensions "art_and_name") + (tolerancePx config + 1)
  /\ exists st',
       validateCard config 1 "EN" (stateOf (artAndNameDisk 770)) = (Ok [], st')
       /\ warnings st' = [ArtAndNameUnexpectedDimensions "001" "EN" 734 770].
Proof.
  split; [reflexivity|]. eexists. split; vm_compute; reflexivity.
Qed.

Lemma C9_witness :
  exists issues st' ws,
    validateCard config 1 "EN" (stateOf (artAndNameDisk 770)) = (Ok issues, st')
    /\ warnings st' = warnings (stateOf (artAndNameDisk 770)) ++ ws
    /\ ~ In CROP_ART_AND_NAME (map step issues)
    /\ In (ArtAndNameUnexpectedDimensions "001" "EN" 734 770) ws.
Proof.
  destruct (C9_variant_beyond_tolerance_only_warns config 1%N "EN"%string
              (stateOf (artAndNameDisk 770)))
    as (Hwarns & Hreturns & _).
  - eexists. vm_compute. reflexivity.
  - reflexivity.
  - vm_compute. discriminate.
  - destruct Hreturns as (issues & st' & Hv).
    + intros p _. apply decodable_check. vm_compute. reflexivity.
    + apply counters_EN.
    + destruct (Hwarns issues st' Hv) as (ws & Hw & Han & _).
      exists issues, st', ws. split; [exact Hv|]. split; [exact Hw|].
      destruct (Han 734 770 (card 3)) as (Hno & _ & Hwarn).
      * vm_compute. reflexivity.
      * lia.
      * split; [exact Hno|]. apply Hwarn. left. reflexivity.
Defined.

Lemma C10_witness :
  exists st',
    fixIssue config worldOk
      (mkIssue CROP_ART_AND_NAME "cards/IT/001/art_and_name/001.webp" "IT") 1 "IT"
      (stateOf (originalOnlyDisk 733 1024))
    = (Ok false, st')
    /\ failed (stats st') = 1%nat
    /\ files st' !! "cards/IT/001/art_and_name/001.webp"%string = None.
Proof.
  destruct (C10_crop_refuses_inexact_source config worldOk false 1%N "IT"%string
              "cards/IT/001/art_and_name/001.webp"%string "IT"%string
              (stateOf (originalOnlyDisk 733 1024)) 733 1024 (card 1))
    as (st' & Hfix & Hfa & _ & Hdest & _).
  - vm_compute. reflexivity.
  - left. lia.
  - exists st'. split; [exact Hfix|]. split; [exact Hfa|]. exact Hdest.
Defined.

(** ** The further properties on the example inputs *)

Lemma validateCard_counts_witness :
  checked (stats (snd (validateCard config 1 "EN" (stateOf (noAvifDisk 734 1024)))))
  = 1%nat
  /\ missing (stats (snd (validateCard config 1 "EN" (stateOf (noAvifDisk 734 1024)))))
     = 1%nat.
Proof.
  destruct (validateCard_counts config 1%N "EN"%string (stateOf (noAvifDisk 734 1024))
              [mkIssue CONVERT_ORIGINAL "cards/EN/001/001.avif" "EN"]
              (snd (validateCard config 1 "EN" (stateOf (noAvifDisk 734 1024)))))
    as [-> _].
  - vm_compute. reflexivity.
  - split; reflexivity.
Defined.

Lemma validateCard_issues_in_pipeline_order_witness :
  sortIssuesByPipelineOrder
    [mkIssue CONVERT_ORIGINAL "cards/IT/001/001.avif" "IT";
     mkIssue CROP_ART_AND_NAME "cards/IT/001/art_and_name/001.webp" "IT";
     mkIssue CONVERT_ART_AND_NAME "cards/IT/001/art_and_name/001.avif" "IT"]
  = [mkIssue CONVERT_ORIGINAL "cards/IT/001/001.avif" "IT";
     mkIssue CROP_ART_AND_NAME "cards/IT/001/art_and_name/001.webp" "IT";
     mkIssue CONVERT_ART_AND_NAME "cards/IT/001/art_and_name/001.avif" "IT"].
Proof.
  apply (validateCard_issues_in_pipeline_order config 1%N "IT"%string
           (stateOf (originalOnlyDisk 734 1024)) _
           (snd (validateCard config 1 "IT" (stateOf (originalOnlyDisk 734 1024))))).
  vm_compute. reflexivity.
Defined.

Lemma validateCard_after_constructor_witness :
  (exists issues st',
      validateCard config 1 "EN" (constructor config emptyDisk) = (Ok issues, st'))
  /\ (exists st',
         validateCard config 1 "JA" (constructor config emptyDisk)
         = (Throw TypeError, st')
         /\ files st' = emptyDisk
         /\ checked (stats st') = 1%nat)
  /\ (exists issues st',
         validateCard config 1 "constructor" (constructor config emptyDisk)
         = (Ok issues, st')
         /\ byLanguage (stats st') = byLanguage (stats (constructor config emptyDisk))).
Proof.
  split_and!.
  - apply (validateCard_after_constructor config 1%N "EN"%string emptyDisk).
    + apply decodable_check. vm_compute. reflexivity.
    + apply (bool_decide_unpack _). vm_compute. exact I.
  - apply (validateCard_after_constructor config 1%N "JA"%string emptyDisk).
    + apply decodable_check. vm_compute. reflexivity.
    + apply (bool_decide_unpack _). vm_compute. exact I.
    + vm_compute. reflexivity.
  - destruct (proj2 (proj2 (validateCard_after_constructor config 1%N
                              "constructor"%string emptyDisk
                              ltac:(apply decodable_check; vm_compute; reflexivity))))
      as (issues & st' & E & _ & _ & Hb).
    + apply (bool_decide_unpack _). vm_compute. exact I.
    + vm_compute. reflexivity.
    + exists issues, st'. split; [exact E | exact Hb].
Defined.

Lemma dry_run_changes_nothing_witness :
  wp (validateAndFixAll dryRunConfig worldOk 0 0)
     (fun _ st' => clock st' = 0%nat /\ executed (journal st') = [])
     (constructor dryRunConfig emptyDisk).
Proof.
  eapply wp_mono.
  - apply (dry_run_changes_nothing dryRunConfig worldOk 0%N 0%N
             (constructor dryRunConfig emptyDisk)).
    reflexivity.
  - intros r st' (Hc & Hj & _). split; [exact Hc | exact Hj].
Defined.

Lemma undecodable_original_aborts_run_witness :
  exists e st',
    validateAndFixAll config worldOk 0 0 (stateOf corruptDisk) = (Throw e, st')
    /\ files st' = files (stateOf corruptDisk)
    /\ executed (journal st') = executed (journal (stateOf corruptDisk)).
Proof.
  apply (undecodable_original_aborts_run config worldOk 0%N 0%N 1%N "EN"%string
           (stateOf corruptDisk)).
  - apply (bool_decide_unpack _). vm_compute. exact I.
  - vm_compute. split; discriminate.
  - reflexivity.
Defined.

Lemma download_elsewhere_never_repairs_witness :
  exists st',
    fixCard lowerCaseConfig worldOk 1 "en"
      [mkIssue DOWNLOAD "cards/en/001/001.webp" "en"]
      (constructor lowerCaseConfig emptyDisk)
    = (Ok ([mkIssue DOWNLOAD "cards/en/001/001.webp" "en"], 3%nat), st')
    /\ files st' !! "cards/en/001/001.webp"%string = None
    /\ is_Some (files st' !! "cards/EN/001/001.webp"%string)
    /\ recovered (stats st') = 3%nat
    /\ failed (stats st') = 0%nat.
Proof.
  destruct (download_elsewhere_never_repairs lowerCaseConfig worldOk 1%N "en"%string
              (constructor lowerCaseConfig emptyDisk))
    as (st' & Hfix & Hnone & Hdest & Hr & Hfa & _).
  - intros t url. eexists. reflexivity.
  - left. vm_compute. discriminate.
  - reflexivity.
  - eexists. vm_compute. reflexivity.
  - exists st'. split_and!; assumption.
Defined.

Lemma validateCard_never_decodes_avif_witness :
  exists st'',
    validateCard config 1 "EN"
      (set_files (insert "cards/EN/001/001.avif"%string Corrupt)
         (stateOf (completeDisk 734 1024)))
    = (Ok [], st'').
Proof.
  apply (validateCard_never_decodes_avif config 1%N "EN"%string
           (stateOf (completeDisk 734 1024)) []
           (snd (validateCard config 1 "EN" (stateOf (completeDisk 734 1024))))
           "cards/EN/001/001.avif"%string Corrupt).
  - vm_compute. reflexivity.
  - left. reflexivity.
  - eexists. vm_compute. reflexivity.
Defined.

Lemma run_returns_witness :
  exists report st',
    validateAndFixAll config worldOk 0 0 (constructor config emptyDisk)
    = (Ok report, st')
    /\ forall p, p <> reportPath config 0 -> files st' !! p <> Some Corrupt.
Proof.
  apply (run_returns config worldOk 0%N 0%N emptyDisk).
  - intros t. reflexivity.
  - intros t url body [= <-]. discriminate.
  - apply decodable_check. vm_compute. reflexivity.
Defined.

Lemma one_pass_repairs_witness :
  exists st',
    fixCard config worldOk 1 "IT"
      [mkIssue CONVERT_ORIGINAL "cards/IT/001/001.avif" "IT";
       mkIssue CROP_ART_AND_NAME "cards/IT/001/art_and_name/001.webp" "IT";
       mkIssue CONVERT_ART_AND_NAME "cards/IT/001/art_and_name/001.avif" "IT"]
      (snd (validateCard config 1 "IT" (stateOf (originalOnlyDisk 734 1024))))
    = (Ok ([], 1%nat), st')
    /\ failed (stats st') = 0%nat.
Proof.
  destruct (one_pass_repairs config worldOk 1%N "IT"%string
              (stateOf (originalOnlyDisk 734 1024))
              [mkIssue CONVERT_ORIGINAL "cards/IT/001/001.avif" "IT";
               mkIssue CROP_ART_AND_NAME "cards/IT/001/art_and_name/001.webp" "IT";
               mkIssue CONVERT_ART_AND_NAME "cards/IT/001/art_and_name/001.avif" "IT"]
              (snd (validateCard config 1 "IT" (stateOf (originalOnlyDisk 734 1024))))
              (card 1))
    as (_ & st' & Hfix & _ & Hfa).
  - intros t. reflexivity.
  - apply (bool_decide_unpack _). vm_compute. exact I.
  - apply decodable_check. vm_compute. reflexivity.
  - vm_compute. reflexivity.
  - reflexivity.
  - reflexivity.
  - vm_compute. reflexivity.
  - exists st'. split; [exact Hfix | exact Hfa].
Defined.


Lemma wrong_size_variant_left_alone_witness :
  wp (fixCard config world404 1 "EN"
        [mkIssue CONVERT_ORIGINAL "cards/EN/001/001.avif" "EN"])
     (fun _ st' =>
        files st' !! "cards/EN/001/art_and_name/001.webp"%string
        = Some (Image 734 700 (card 3)))
     (snd (validateCard config 1 "EN" (stateOf oddVariantDisk))).
Proof.
  apply (wrong_size_variant_left_alone config world404 1%N "EN"%string
           (stateOf oddVariantDisk)
           [mkIssue CONVERT_ORIGINAL "cards/EN/001/001.avif" "EN"]
           (snd (validateCard config 1 "EN" (stateOf oddVariantDisk)))
           734 700 (card 3)).
  - apply (bool_decide_unpack _). vm_compute. exact I.
  - reflexivity.
  - discriminate.
  - vm_compute. reflexivity.
Defined.

Lemma dry_run_flag_writes_only_the_report_witness :
  clock (snd (main dryRunConfig worldOk 0 0 emptyDisk)) = 0%nat
  /\ executed (journal (snd (main dryRunConfig worldOk 0 0 emptyDisk))) = [].
Proof.
  destruct (dry_run_flag_writes_only_the_report ["--dry-run"%string] config worldOk
              0%N 0%N emptyDisk eq_refl)
    as (Hc & Hj & _).
  split; [exact Hc | exact Hj].
Defined.
